(** * Signal & Shadow: the room/session coordinator of the game server

    A shallow embedding of the socket server (the file with the
    [io.on("connection", ...)] handlers) and the properties of its room state
    machine: room creation, membership, role assignment, readiness, voting,
    scoring and the snapshot sent to the clients.

    The server keeps two JavaScript [Map]s, [rooms] and [players]; a player
    object is shared between the global [players] map and the [players] map
    of its room, and the handlers mutate it in place.  The embedding keeps
    that sharing: player objects live in a heap and both maps hold
    references into it.

    Two functions of the game page of the client are embedded as well: the
    handlers that keep the page's copy of the snapshot, and the text of the
    discussion timer. *)

From Stdlib Require Import ZArith QArith Qround.
From stdpp Require Import gmap strings list fin_maps pretty.

#[local] Set Warnings "-clear-no-such-hyp".

(** ** Insertion-ordered maps and sets

    A JavaScript [Map] iterates in insertion order; [set] on a present key
    keeps the key's position, [delete] removes the key.  The room's
    [players], the [votes] and the vote count are such maps, and their
    iteration order is observable (host hand-over, tally), so they are
    association lists. *)

Module JsMap.
Abbreviation t V := (list (string * V)) (only parsing).

Section JsMap.
Context {V : Type}.

Fixpoint get (k : string) (m : t V) : option V :=
  match m with
  | [] => None
  | (k', v) :: m' => if decide (k' = k) then Some v else get k m'
  end.

Fixpoint set (k : string) (v : V) (m : t V) : t V :=
  match m with
  | [] => [(k, v)]
  | (k', v') :: m' =>
      if decide (k' = k) then (k, v) :: m' else (k', v') :: set k v m'
  end.

Fixpoint delete (k : string) (m : t V) : t V :=
  match m with
  | [] => []
  | (k', v') :: m' =>
      if decide (k' = k) then delete k m' else (k', v') :: delete k m'
  end.

Definition size (m : t V) : nat := length m.
Definition keys (m : t V) : list string := m.*1.
Definition values (m : t V) : list V := m.*2.
End JsMap.
End JsMap.

Module JsSet.
Abbreviation t := (list string) (only parsing).

Definition has (x : string) (s : t) : bool := bool_decide (x ∈ s).

Definition add (x : string) (s : t) : t :=
  if has x s then s else s ++ [x].
End JsSet.

(** ** Data model *)

Inductive Role := shadow | signal.

Inductive GameState := lobby | assigning | discussion | results.

Global Instance Role_eq_dec : EqDecision Role.
Proof. solve_decision. Defined.

Global Instance GameState_eq_dec : EqDecision GameState.
Proof. solve_decision. Defined.

Record WordPair := mkWordPair { wp_shadow : string; wp_signal : string }.

Definition WORD_PAIRS : list WordPair :=
  [ mkWordPair "Vampire" "Garlic";
    mkWordPair "Alien" "Spaceship";
    mkWordPair "Impostor" "Crewmate";
    mkWordPair "Werewolf" "Silver";
    mkWordPair "Robot" "Human";
    mkWordPair "Ghost" "SÃ©ance";
    mkWordPair "Spy" "Password";
    mkWordPair "Doppelganger" "Mirror" ].

(** The player object.  [role] and [word] are [null] until a game starts.
    The score is a JavaScript number that starts at 0 and only ever has 100
    or 200 added to it: an integer, exact as long as it stays below 2^53. *)
Module Player.
Record t := mk {
  id : string;
  name : string;
  room : string;
  role : option Role;
  word : option string;
  isReady : bool;
  score : Z
}.

Definition set_isReady (b : bool) (p : t) : t :=
  mk (id p) (name p) (room p) (role p) (word p) b (score p).

Definition set_role_word (r : option Role) (w : option string) (p : t) : t :=
  mk (id p) (name p) (room p) r w (isReady p) (score p).

Definition add_score (d : Z) (p : t) : t :=
  mk (id p) (name p) (room p) (role p) (word p) (isReady p) (score p + d).
End Player.

(** A reference to a player object: its address in the heap. *)
Abbreviation ref := nat (only parsing).

(** The outcome of a tally, stored in [room.results].  [shadowCaught] is the
    value of [eliminatedPlayer && eliminatedPlayer.role === "shadow"]:
    [undefined] ([None]) when the eliminated id is not a member. *)
Record Results := mkResults {
  eliminatedPlayerId : option string;
  shadowCaught : option bool;
  voteCount : list (string * nat)
}.

Module Room.
Record t := mk {
  code : string;
  players : JsMap.t ref;
  gameState : GameState;
  round : Z;
  maxPlayers : Z;
  hostId : string;
  wordPair : option WordPair;
  votes : JsMap.t string;
  revealedPlayers : JsSet.t;
  results : option Results
}.

Definition set_players (ps : JsMap.t ref) (r : t) : t :=
  mk (code r) ps (gameState r) (round r) (maxPlayers r) (hostId r)
     (wordPair r) (votes r) (revealedPlayers r) (results r).

Definition set_gameState (g : GameState) (r : t) : t :=
  mk (code r) (players r) g (round r) (maxPlayers r) (hostId r)
     (wordPair r) (votes r) (revealedPlayers r) (results r).

Definition set_round (n : Z) (r : t) : t :=
  mk (code r) (players r) (gameState r) n (maxPlayers r) (hostId r)
     (wordPair r) (votes r) (revealedPlayers r) (results r).

Definition set_hostId (h : string) (r : t) : t :=
  mk (code r) (players r) (gameState r) (round r) (maxPlayers r) h
     (wordPair r) (votes r) (revealedPlayers r) (results r).

Definition set_wordPair (w : option WordPair) (r : t) : t :=
  mk (code r) (players r) (gameState r) (round r) (maxPlayers r) (hostId r)
     w (votes r) (revealedPlayers r) (results r).

Definition set_votes (v : JsMap.t string) (r : t) : t :=
  mk (code r) (players r) (gameState r) (round r) (maxPlayers r) (hostId r)
     (wordPair r) v (revealedPlayers r) (results r).

Definition set_revealedPlayers (s : JsSet.t) (r : t) : t :=
  mk (code r) (players r) (gameState r) (round r) (maxPlayers r) (hostId r)
     (wordPair r) (votes r) s (results r).

Definition set_results (x : option Results) (r : t) : t :=
  mk (code r) (players r) (gameState r) (round r) (maxPlayers r) (hostId r)
     (wordPair r) (votes r) (revealedPlayers r) x.
End Room.

(** The server state: the two global maps and the heap of player objects.
    Room objects are reached only through [rooms], so they are stored by
    value; player objects are reached through [players] and through a
    room's [players], so both hold a [ref]. *)
Record State := mkState {
  rooms : gmap string Room.t;
  players : gmap string ref;
  heap : list Player.t
}.

Definition initial : State := mkState ∅ ∅ [].

(** ** The snapshot sent to the clients ([getRoomData]) *)

Record PlayerData := mkPlayerData {
  pd_id : string;
  pd_name : string;
  pd_isReady : bool;
  pd_score : Z;
  pd_role : option Role;
  pd_word : option string
}.

Record RoomData := mkRoomData {
  rd_code : string;
  rd_players : list PlayerData;
  rd_gameState : GameState;
  rd_round : Z;
  rd_maxPlayers : Z;
  rd_hostId : string;
  rd_wordPair : option WordPair;
  rd_votes : nat;
  rd_revealedPlayers : list string
}.

(** The player objects of a room, in iteration order:
    [Array.from(room.players.values())]. *)
Definition members (h : list Player.t) (r : Room.t) : list Player.t :=
  omap (λ pref, h !! pref) (JsMap.values (Room.players r)).

Definition playerData (r : Room.t) (p : Player.t) : PlayerData :=
  let visible :=
    bool_decide (Room.gameState r = results)
    || JsSet.has (Player.id p) (Room.revealedPlayers r) in
  mkPlayerData (Player.id p) (Player.name p) (Player.isReady p)
    (Player.score p)
    (if visible then Player.role p else None)
    (if visible then Player.word p else None).

Definition roomData (h : list Player.t) (r : Room.t) : RoomData :=
  mkRoomData (Room.code r)
    (playerData r <$> members h r)
    (Room.gameState r) (Room.round r) (Room.maxPlayers r) (Room.hostId r)
    (if bool_decide (Room.gameState r = results) then Room.wordPair r
     else None)
    (JsMap.size (Room.votes r))
    (Room.revealedPlayers r).

Definition getRoomData (st : State) (roomCode : string) : option RoomData :=
  match rooms st !! roomCode with
  | None => None
  | Some room => Some (roomData (heap st) room)
  end.

(** ** Emitted events *)

Inductive Target :=
  | ToSocket (sid : string)      (* socket.emit, io.to(p.id) *)
  | ToRoom (roomCode : string).   (* io.to(roomCode) *)

Inductive Payload :=
  | PError (message : string)
  | PRoomPlayer (roomCode : string) (player : Player.t)
  | PRoomData (data : option RoomData)
  | PRoleAssigned (role : option Role) (word : option string)
      (roster : list (string * string * bool))
  | PVoteReceived (voterId : string) (remainingVotes : Z)
  | PRoleRevealed (playerId : string) (revealed : list string).

Record Event := mkEvent {
  ev_to : Target;
  ev_name : string;
  ev_payload : Payload
}.

(** ** Randomness

    [Math.random()] returns a number in the interval [0, 1); the handlers
    take its outcome as an argument [rnd].  [generateRoomCode] turns one
    outcome into a short string; its result is passed to [createRoom] as
    the argument [roomCode]. *)

Definition unit_interval (rnd : Q) : Prop := (0 <= rnd)%Q ∧ (rnd < 1)%Q.

(** [Math.floor(Math.random() * n)] *)
Definition random_index (rnd : Q) (n : nat) : Z :=
  Qfloor (Qmult rnd (inject_Z (Z.of_nat n))).

(** ** The handlers

    Every handler maps the state before the event to the state after it and
    the list of events it emits.  [sid] is [socket.id].  A handler runs to
    completion before the next event is handled, so a run of the server is a
    sequence of handler calls.

    A reference held by one of the maps always points to an object of the
    heap (see [wf] below); where the embedding has to say what happens
    otherwise, the handler behaves as if the entry were missing. *)

Definition getPlayer (st : State) (sid : string) : option (ref * Player.t) :=
  pref ← players st !! sid;
  p ← heap st !! pref;
  Some (pref, p).

Definition roomUpdated (st : State) (roomCode : string) : Event :=
  mkEvent (ToRoom roomCode) "roomUpdated" (PRoomData (getRoomData st roomCode)).

Definition createRoom (st : State) (sid playerName roomCode : string)
  : State * list Event :=
  let room :=
    Room.mk roomCode [] lobby 1 6 sid None [] [] None in
  let player := Player.mk sid playerName roomCode None None false 0 in
  let pref := length (heap st) in
  let room :=
    Room.set_players (JsMap.set sid pref (Room.players room)) room in
  let st' :=
    mkState (<[roomCode := room]> (rooms st))
            (<[sid := pref]> (players st))
            (heap st ++ [player]) in
  (st', [ mkEvent (ToSocket sid) "roomCreated" (PRoomPlayer roomCode player);
          roomUpdated st' roomCode ]).

Definition joinRoom (st : State) (sid roomCode playerName : string)
  : State * list Event :=
  match rooms st !! roomCode with
  | None => (st, [mkEvent (ToSocket sid) "error" (PError "Room not found")])
  | Some room =>
      if decide (Room.maxPlayers room
                 ≤ Z.of_nat (JsMap.size (Room.players room)))%Z
      then (st, [mkEvent (ToSocket sid) "error" (PError "Room is full")])
      else if decide (Room.gameState room ≠ lobby)
      then (st, [mkEvent (ToSocket sid) "error"
                   (PError "Game already in progress")])
      else
        let player := Player.mk sid playerName roomCode None None false 0 in
        let pref := length (heap st) in
        let room :=
          Room.set_players (JsMap.set sid pref (Room.players room)) room in
        let st' :=
          mkState (<[roomCode := room]> (rooms st))
                  (<[sid := pref]> (players st))
                  (heap st ++ [player]) in
        (st', [ mkEvent (ToSocket sid) "roomJoined"
                  (PRoomPlayer roomCode player);
                roomUpdated st' roomCode ])
  end.

(** The body of [playersArray.forEach((p, index) => ...)] in [startGame]:
    it writes the role, the word and the readiness of [p], then stores [p]
    under [p.id] in the room's players and in the global players. *)
Definition assignRole (wordPair : WordPair) (shadowPlayerIndex : Z)
    (index : nat) (p : Player.t) : Player.t :=
  Player.set_isReady false
    (if decide (Z.of_nat index = shadowPlayerIndex)
     then Player.set_role_word (Some shadow) (Some (wp_shadow wordPair)) p
     else Player.set_role_word (Some signal) (Some (wp_signal wordPair)) p).

Fixpoint assignRoles (wordPair : WordPair) (shadowPlayerIndex : Z)
    (index : nat) (playersArray : list ref)
    (h : list Player.t) (roomPlayers : JsMap.t ref) (pls : gmap string ref)
  : list Player.t * JsMap.t ref * gmap string ref :=
  match playersArray with
  | [] => (h, roomPlayers, pls)
  | pref :: rest =>
      match h !! pref with
      | None =>
          assignRoles wordPair shadowPlayerIndex (S index) rest h roomPlayers
            pls
      | Some p =>
          let p' := assignRole wordPair shadowPlayerIndex index p in
          assignRoles wordPair shadowPlayerIndex (S index) rest
            (<[pref := p']> h)
            (JsMap.set (Player.id p') pref roomPlayers)
            (<[Player.id p' := pref]> pls)
      end
  end.

Definition roster (data : option RoomData) : list (string * string * bool) :=
  match data with
  | None => []
  | Some d => (λ pd, (pd_id pd, pd_name pd, pd_isReady pd)) <$> rd_players d
  end.

(** [rnd1] is the draw for the shadow's position, [rnd2] the draw for the
    word pair.  For draws in the unit interval the position
    [Math.floor(rnd2 * WORD_PAIRS.length)] is within the catalogue (see
    [wordPair_drawn]), so the branch without a word pair is never taken. *)
Definition startGame (st : State) (sid : string) (rnd1 rnd2 : Q)
  : State * list Event :=
  match getPlayer st sid with
  | None => (st, [])
  | Some (_, player) =>
      match rooms st !! Player.room player with
      | None => (st, [])
      | Some room =>
          if decide (Room.hostId room ≠ sid) then (st, []) else
          let playersArray := JsMap.values (Room.players room) in
          let shadowPlayerIndex := random_index rnd1 (length playersArray) in
          match
            WORD_PAIRS !! Z.to_nat (random_index rnd2 (length WORD_PAIRS))
          with
          | None => (st, [])
          | Some wordPair =>
              let room := Room.set_wordPair (Some wordPair) room in
              let room := Room.set_gameState assigning room in
              let '(h, roomPlayers, pls) :=
                assignRoles wordPair shadowPlayerIndex 0 playersArray
                  (heap st) (Room.players room) (players st) in
              let room := Room.set_players roomPlayers room in
              let st' :=
                mkState (<[Player.room player := room]> (rooms st)) pls h in
              let data := getRoomData st' (Player.room player) in
              (st',
               ((λ p, mkEvent (ToSocket (Player.id p)) "roleAssigned"
                        (PRoleAssigned (Player.role p) (Player.word p)
                           (roster data)))
                  <$> omap (λ pref, h !! pref) playersArray)
               ++ [mkEvent (ToRoom (Player.room player)) "gameStarted"
                     (PRoomData data)])
          end
      end
  end.

Definition playerReady (st : State) (sid : string) : State * list Event :=
  match getPlayer st sid with
  | None => (st, [])
  | Some (pref, player) =>
      match rooms st !! Player.room player with
      | None => (st, [])
      | Some room =>
          let h := <[pref := Player.set_isReady true player]> (heap st) in
          let room :=
            Room.set_players (JsMap.set sid pref (Room.players room)) room in
          let allReady := forallb Player.isReady (members h room) in
          if allReady then
            let room := Room.set_gameState discussion room in
            let room := Room.set_votes [] room in
            let st' :=
              mkState (<[Player.room player := room]> (rooms st))
                      (players st) h in
            (st', [mkEvent (ToRoom (Player.room player)) "discussionStarted"
                     (PRoomData (getRoomData st' (Player.room player)))])
          else
            let st' :=
              mkState (<[Player.room player := room]> (rooms st))
                      (players st) h in
            (st', [roomUpdated st' (Player.room player)])
      end
  end.

(** [room.players.forEach((p) => { ... })] for a body that only writes the
    fields of [p]. *)
Fixpoint forEachPlayer (body : Player.t → Player.t) (prefs : list ref)
    (h : list Player.t) : list Player.t :=
  match prefs with
  | [] => h
  | pref :: rest =>
      match h !! pref with
      | None => forEachPlayer body rest h
      | Some p => forEachPlayer body rest (<[pref := body p]> h)
      end
  end.

(** *** The tally ([calculateResults]) *)

Definition countVotes (votes : JsMap.t string) : JsMap.t nat :=
  foldl (λ voteCount '(_, targetId),
           JsMap.set targetId (default 0 (JsMap.get targetId voteCount) + 1)
             voteCount)
        [] votes.

Definition mostVotes (voteCount : JsMap.t nat) : nat * option string :=
  foldl (λ '(maxVotes, eliminatedPlayerId) '(playerId, votes),
           if decide (maxVotes < votes) then (votes, Some playerId)
           else (maxVotes, eliminatedPlayerId))
        (0, None) voteCount.

Definition truthy (v : option bool) : bool := default false v.

Definition updateScore (shadowCaught : option bool) (player : Player.t)
  : Player.t :=
  if truthy shadowCaught && bool_decide (Player.role player = Some signal)
  then Player.add_score 100 player
  else if negb (truthy shadowCaught)
          && bool_decide (Player.role player = Some shadow)
  then Player.add_score 200 player
  else player.

Definition calculateResults (h : list Player.t) (room : Room.t)
  : list Player.t * Room.t :=
  let voteCount := countVotes (Room.votes room) in
  let eliminatedPlayerId := (mostVotes voteCount).2 in
  let eliminatedPlayer :=
    eid ← eliminatedPlayerId;
    pref ← JsMap.get eid (Room.players room);
    h !! pref in
  let shadowCaught :=
    match eliminatedPlayer with
    | None => None
    | Some p => Some (bool_decide (Player.role p = Some shadow))
    end in
  let h' :=
    forEachPlayer (updateScore shadowCaught)
      (JsMap.values (Room.players room)) h in
  (h', Room.set_results
         (Some (mkResults eliminatedPlayerId shadowCaught voteCount)) room).

Definition submitVote (st : State) (sid targetPlayerId : string)
  : State * list Event :=
  match getPlayer st sid with
  | None => (st, [])
  | Some (_, player) =>
      match rooms st !! Player.room player with
      | None => (st, [])
      | Some room =>
          if decide (Room.gameState room ≠ discussion) then (st, []) else
          let room :=
            Room.set_votes (JsMap.set sid targetPlayerId (Room.votes room))
              room in
          if decide (JsMap.size (Room.votes room)
                     = JsMap.size (Room.players room))
          then
            let room := Room.set_gameState results room in
            let '(h, room) := calculateResults (heap st) room in
            let st' :=
              mkState (<[Player.room player := room]> (rooms st))
                      (players st) h in
            (st', [mkEvent (ToRoom (Player.room player)) "roundResults"
                     (PRoomData (getRoomData st' (Player.room player)))])
          else
            let st' :=
              mkState (<[Player.room player := room]> (rooms st))
                      (players st) (heap st) in
            (st', [mkEvent (ToRoom (Player.room player)) "voteReceived"
                     (PVoteReceived sid
                        (Z.of_nat (JsMap.size (Room.players room))
                         - Z.of_nat (JsMap.size (Room.votes room))))])
      end
  end.

Definition resetPlayer (p : Player.t) : Player.t :=
  Player.set_isReady false (Player.set_role_word None None p).

Definition nextRound (st : State) (sid : string) : State * list Event :=
  match getPlayer st sid with
  | None => (st, [])
  | Some (_, player) =>
      match rooms st !! Player.room player with
      | None => (st, [])
      | Some room =>
          if decide (Room.hostId room ≠ sid) then (st, []) else
          let room := Room.set_round (Room.round room + 1) room in
          let room := Room.set_gameState lobby room in
          let room := Room.set_revealedPlayers [] room in
          let room := Room.set_votes [] room in
          let h :=
            forEachPlayer resetPlayer (JsMap.values (Room.players room))
              (heap st) in
          let st' :=
            mkState (<[Player.room player := room]> (rooms st))
                    (players st) h in
          (st', [mkEvent (ToRoom (Player.room player)) "roundAdvanced"
                   (PRoomData (getRoomData st' (Player.room player)))])
      end
  end.

Definition revealRole (st : State) (sid targetPlayerId : string)
  : State * list Event :=
  match getPlayer st sid with
  | None => (st, [])
  | Some (_, player) =>
      match rooms st !! Player.room player with
      | None => (st, [])
      | Some room =>
          if decide (Room.hostId room ≠ sid) then (st, []) else
          let room :=
            Room.set_revealedPlayers
              (JsSet.add targetPlayerId (Room.revealedPlayers room)) room in
          (mkState (<[Player.room player := room]> (rooms st))
                   (players st) (heap st),
           [mkEvent (ToRoom (Player.room player)) "roleRevealed"
              (PRoleRevealed targetPlayerId (Room.revealedPlayers room))])
      end
  end.

(** [room.players.keys().next().value]; the handlers call it on a map that
    is not empty, [dflt] stands for the value on an empty one. *)
Definition firstKey (ps : JsMap.t ref) (dflt : string) : string :=
  default dflt (head (JsMap.keys ps)).

Definition leaveRoom (st : State) (sid : string) : State * list Event :=
  match getPlayer st sid with
  | None => (st, [])
  | Some (_, player) =>
      match rooms st !! Player.room player with
      | None => (st, [])
      | Some room =>
          let room :=
            Room.set_players (JsMap.delete sid (Room.players room)) room in
          let pls := delete sid (players st) in
          if decide (JsMap.size (Room.players room) = 0) then
            (mkState (delete (Player.room player) (rooms st)) pls (heap st), [])
          else
            let room :=
              if decide (Room.hostId room = sid)
              then Room.set_hostId
                     (firstKey (Room.players room) (Room.hostId room)) room
              else room in
            let st' :=
              mkState (<[Player.room player := room]> (rooms st)) pls
                      (heap st) in
            (st', [roomUpdated st' (Player.room player)])
      end
  end.

(** The handler of the transport's [disconnect] event.  Its text differs from
    [leaveRoom] in two statements that touch neither map: it does not call
    [socket.leave] (the transport groups are not part of the state) and it
    writes a log line. *)
Definition disconnect (st : State) (sid : string) : State * list Event :=
  match getPlayer st sid with
  | None => (st, [])
  | Some (_, player) =>
      match rooms st !! Player.room player with
      | None => (st, [])
      | Some room =>
          let room :=
            Room.set_players (JsMap.delete sid (Room.players room)) room in
          let pls := delete sid (players st) in
          if decide (JsMap.size (Room.players room) = 0) then
            (mkState (delete (Player.room player) (rooms st)) pls (heap st), [])
          else
            let room :=
              if decide (Room.hostId room = sid)
              then Room.set_hostId
                     (firstKey (Room.players room) (Room.hostId room)) room
              else room in
            let st' :=
              mkState (<[Player.room player := room]> (rooms st)) pls
                      (heap st) in
            (st', [roomUpdated st' (Player.room player)])
      end
  end.

(** ** Runs of the server

    An input is one event received from a socket, together with the outcomes
    of the random draws its handler makes. *)

Inductive Input :=
  | CreateRoom (sid playerName roomCode : string)
  | JoinRoom (sid roomCode playerName : string)
  | StartGame (sid : string) (rnd1 rnd2 : Q)
  | PlayerReady (sid : string)
  | SubmitVote (sid targetPlayerId : string)
  | NextRound (sid : string)
  | RevealRole (sid targetPlayerId : string)
  | LeaveRoom (sid : string)
  | Disconnect (sid : string).

Definition handle (st : State) (i : Input) : State * list Event :=
  match i with
  | CreateRoom sid playerName roomCode => createRoom st sid playerName roomCode
  | JoinRoom sid roomCode playerName => joinRoom st sid roomCode playerName
  | StartGame sid rnd1 rnd2 => startGame st sid rnd1 rnd2
  | PlayerReady sid => playerReady st sid
  | SubmitVote sid targetPlayerId => submitVote st sid targetPlayerId
  | NextRound sid => nextRound st sid
  | RevealRole sid targetPlayerId => revealRole st sid targetPlayerId
  | LeaveRoom sid => leaveRoom st sid
  | Disconnect sid => disconnect st sid
  end.

Definition step (st : State) (i : Input) : State := (handle st i).1.

Definition run (st : State) (inputs : list Input) : State :=
  foldl step st inputs.

(** The random draws of an input are outcomes of [Math.random()]. *)
Definition valid_input (i : Input) : Prop :=
  match i with
  | StartGame _ rnd1 rnd2 => unit_interval rnd1 ∧ unit_interval rnd2
  | _ => True
  end.

(** An input does not collide when the code drawn for a new room is not the
    code of a live room. *)
Definition fresh_code (st : State) (i : Input) : Prop :=
  match i with
  | CreateRoom _ _ roomCode => rooms st !! roomCode = None
  | _ => True
  end.

Inductive reachable : State → Prop :=
  | reachable_initial : reachable initial
  | reachable_step st i :
      reachable st → valid_input i → reachable (step st i).

(** Reachable when no generated room code ever repeats a live one. *)
Inductive reachable_fresh : State → Prop :=
  | reachable_fresh_initial : reachable_fresh initial
  | reachable_fresh_step st i :
      reachable_fresh st → valid_input i → fresh_code st i →
      reachable_fresh (step st i).

(** ** Vocabulary of the statements *)

Definition errorEvent (sid message : string) : Event :=
  mkEvent (ToSocket sid) "error" (PError message).

(** The player object stored under [sid] in a room. *)
Definition member (h : list Player.t) (r : Room.t) (sid : string)
  : option Player.t :=
  pref ← JsMap.get sid (Room.players r); h !! pref.

Definition isShadow (p : Player.t) : bool :=
  bool_decide (Player.role p = Some shadow).

Definition newPlayer (sid playerName roomCode : string) : Player.t :=
  Player.mk sid playerName roomCode None None false 0.

(** ** Example runs

    Concrete runs of the server, used to evaluate the handlers. *)

(** Alice creates room X, Bob and Carol join. *)
Definition lobby3 : State :=
  run initial [ CreateRoom "A" "alice" "X"; JoinRoom "B" "X" "bob";
                JoinRoom "C" "X" "carol" ].

(** The host starts the game; the draws make the first member (Alice) the
    shadow and pick the pair Spy/Password. *)
Definition started3 : State := step lobby3 (StartGame "A" (0 # 1) (3 # 4)).

(** Everybody is ready: discussion. *)
Definition discussion3 : State :=
  run started3 [PlayerReady "A"; PlayerReady "B"; PlayerReady "C"].

(** A votes B, B votes C, C votes B: Bob is eliminated, the shadow wins. *)
Definition results3 : State :=
  run discussion3 [SubmitVote "A" "B"; SubmitVote "B" "C"; SubmitVote "C" "B"].

(** Six members: the room is full. *)
Definition full6 : State :=
  run lobby3 [ JoinRoom "D" "X" "dave"; JoinRoom "E" "X" "erin";
               JoinRoom "F" "X" "frank" ].

(** The number of voters whose recorded vote is [target]. *)
Definition votesFor (votes : JsMap.t string) (target : string) : nat :=
  length (filter (λ v, v.2 = target) votes).

(** The distinct elements of a list, each at the place of its first
    occurrence: the key order of a map filled by iterating over the list. *)
Definition seenStep (acc : list string) (x : string) : list string :=
  if decide (x ∈ acc) then acc else acc ++ [x].

Definition firstSeen (l : list string) : list string := foldl seenStep [] l.

(** The two loop bodies of [calculateResults], as functions of a map entry. *)
Definition countStep (voteCount : JsMap.t nat) (v : string * string)
  : JsMap.t nat :=
  JsMap.set v.2 (default 0 (JsMap.get v.2 voteCount) + 1) voteCount.

Definition maxStep (acc : nat * option string) (e : string * nat)
  : nat * option string :=
  if decide (acc.1 < e.2) then (e.2, Some e.1) else acc.

(** A member's secrets are shown in the snapshot of [r]. *)
Definition visibleIn (r : Room.t) (sid : string) : Prop :=
  Room.gameState r = results ∨ sid ∈ Room.revealedPlayers r.

(** ** Heaps

    A loop over player objects that writes their fields is a list of
    updates, applied in order to the objects that exist. *)
Fixpoint updateAll (fs : list (ref * (Player.t → Player.t)))
    (h : list Player.t) : list Player.t :=
  match fs with
  | [] => h
  | (pref, f) :: rest =>
      match h !! pref with
      | None => updateAll rest h
      | Some p => updateAll rest (<[pref := f p]> h)
      end
  end.

(** Every object of [h] is still there in [h'], related by [R]. *)
Definition heap_rel (R : Player.t → Player.t → Prop)
    (h h' : list Player.t) : Prop :=
  ∀ pref p, h !! pref = Some p → ∃ p', h' !! pref = Some p' ∧ R p p'.

(** What no handler changes in a player object, and the direction in which
    the score moves. *)
Definition grows (p p' : Player.t) : Prop :=
  Player.id p' = Player.id p ∧ Player.name p' = Player.name p
  ∧ Player.room p' = Player.room p ∧ (Player.score p ≤ Player.score p')%Z.

Definition sameRole (p p' : Player.t) : Prop :=
  Player.role p' = Player.role p ∧ Player.word p' = Player.word p.

(** The objects that do not belong to room [c] are untouched. *)
Definition heap_frame (c : string) (h h' : list Player.t) : Prop :=
  ∀ pref p, h !! pref = Some p → Player.room p ≠ c → h' !! pref = Some p.

(** ** Well-formed states *)

(** A room of the registry is stored under its own code, is not empty, has
    distinct keys, and each key maps to a live player object that carries
    this key as its id and the room's code as its room. *)
Definition room_wf (h : list Player.t) (c : string) (r : Room.t) : Prop :=
  Room.code r = c
  ∧ Room.players r ≠ []
  ∧ NoDup (JsMap.keys (Room.players r))
  ∧ ∀ k pref, (k, pref) ∈ Room.players r →
      ∃ p, h !! pref = Some p ∧ Player.id p = k ∧ Player.room p = c.

Definition wf (st : State) : Prop :=
  (∀ sid pref, players st !! sid = Some pref →
     ∃ p, heap st !! pref = Some p ∧ Player.id p = sid)
  ∧ (∀ c r, rooms st !! c = Some r → room_wf (heap st) c r).

(** Every entry of the global players is a member of the room it names. *)
Definition index_ok (st : State) : Prop :=
  ∀ sid pref, players st !! sid = Some pref →
    ∃ p r, heap st !! pref = Some p
      ∧ rooms st !! Player.room p = Some r
      ∧ JsMap.get sid (Room.players r) = Some pref.

Definition capacity_ok (r : Room.t) : Prop :=
  Room.maxPlayers r = 6%Z
  ∧ (Z.of_nat (JsMap.size (Room.players r)) ≤ Room.maxPlayers r)%Z.

Definition atMostOneShadow (h : list Player.t) (r : Room.t) : Prop :=
  ∀ k1 k2 p1 p2,
    member h r k1 = Some p1 → member h r k2 = Some p2 →
    Player.role p1 = Some shadow → Player.role p2 = Some shadow → k1 = k2.


Definition noRoles (h : list Player.t) (r : Room.t) : Prop :=
  ∀ k p, member h r k = Some p → Player.role p = None.

Definition roles_ok (h : list Player.t) (r : Room.t) : Prop :=
  atMostOneShadow h r ∧ (Room.gameState r = lobby → noRoles h r).

Definition room_ok (h : list Player.t) (r : Room.t) : Prop :=
  capacity_ok r ∧ roles_ok h r.

Definition invariant (st : State) : Prop :=
  wf st ∧ index_ok st
  ∧ ∀ c r, rooms st !! c = Some r → room_ok (heap st) r.


(** After the results the host opens the next round and Alice, the shadow
    who was not caught, joins the room once more. *)
Definition nextLobby3 : State := step results3 (NextRound "A").

Definition rejoined3 : State := step nextLobby3 (JoinRoom "A" "X" "alice").

(** Zoe creates a room; the generator then draws the same code for Alice's
    room, which fills up; Zoe, whose player still names the code, reports
    ready. *)
Definition collided : State :=
  run initial [ CreateRoom "Z" "zoe" "X"; CreateRoom "A" "alice" "X";
                JoinRoom "B" "X" "bob"; JoinRoom "C" "X" "carol";
                JoinRoom "D" "X" "dave"; JoinRoom "E" "X" "erin";
                JoinRoom "F" "X" "frank" ].

Definition overfull : State := step collided (PlayerReady "Z").

(** The score shown for [sid] in the room [c]. *)
Definition scoreOf (st : State) (c sid : string) : option Z :=
  room ← rooms st !! c; Player.score <$> member (heap st) room sid.

(** The roles of the members of the room [c], in iteration order. *)
Definition rolesOf (st : State) (c : string) : option (list (option Role)) :=
  room ← rooms st !! c; Some (Player.role <$> members (heap st) room).

(** A list of inputs whose draws are outcomes of [Math.random()], and, for
    [fresh_run], whose room codes never repeat a live one. *)
Fixpoint valid_run (inputs : list Input) : Prop :=
  match inputs with
  | [] => True
  | i :: rest => valid_input i ∧ valid_run rest
  end.

Fixpoint fresh_run (st : State) (inputs : list Input) : Prop :=
  match inputs with
  | [] => True
  | i :: rest => valid_input i ∧ fresh_code st i ∧ fresh_run (step st i) rest
  end.


(** The readiness of the members of the room [c], in iteration order. *)
Definition readinessOf (st : State) (c : string) : option (list bool) :=
  room ← rooms st !! c; Some (Player.isReady <$> members (heap st) room).

(** Alice and Bob vote, Alice leaves, Carol votes: three votes are recorded
    for a room of two. *)
Definition stuck3 : State :=
  run discussion3 [ SubmitVote "A" "B"; SubmitVote "B" "C"; LeaveRoom "A";
                    SubmitVote "C" "B" ].

(** What every room of the registry keeps besides [room_wf]: its host is one
    of its members, its capacity is the constant of [createRoom], and its
    round counter never went below the first round. *)
Definition room_static (r : Room.t) : Prop :=
  is_Some (JsMap.get (Room.hostId r) (Room.players r))
  ∧ Room.maxPlayers r = 6%Z
  ∧ (1 ≤ Room.round r)%Z.

(** A room under discussion or showing results has only ready members. *)
Definition ready_ok (h : list Player.t) (r : Room.t) : Prop :=
  Room.gameState r = discussion ∨ Room.gameState r = results →
  ∀ k p, member h r k = Some p → Player.isReady p = true.

(** The scores the tally can produce. *)
Definition score_ok (p : Player.t) : Prop :=
  (0 ≤ Player.score p)%Z ∧ (100 | Player.score p)%Z.

(** What the phase of a room says about its votes, word pair and stored
    results. *)
Definition tally_of (votes : JsMap.t string) (res : Results) : Prop :=
  votes ≠ []
  ∧ voteCount res = countVotes votes
  ∧ eliminatedPlayerId res = (mostVotes (countVotes votes)).2.

Definition phase_ok (r : Room.t) : Prop :=
  (Room.gameState r = lobby → Room.votes r = [])
  ∧ (Room.gameState r = assigning → Room.wordPair r ≠ None)
  ∧ (∀ wp, Room.wordPair r = Some wp → wp ∈ WORD_PAIRS)
  ∧ (Room.gameState r = results →
     ∃ res, Room.results r = Some res ∧ tally_of (Room.votes r) res)
  ∧ (∀ res, Room.results r = Some res → ∃ votes, tally_of votes res).

(** ** The game page of the client

    The game page keeps the last snapshot it was sent in its [room] state;
    the handlers it registers with [socket.on] replace or update it.
    [roleRevealedUpdate] is the updater passed to [setRoom] by the handler of
    [roleRevealed]; [onGameEvent] is the effect of one event of the server
    on the [room] state ([roleAssigned] and [voteReceived] do not touch
    it). *)

Definition roleRevealedUpdate (revealedPlayers : list string)
    (prev : option RoomData) : option RoomData :=
  match prev with
  | None => None
  | Some prev =>
      Some (mkRoomData (rd_code prev)
              ((λ p,
                  mkPlayerData (pd_id p) (pd_name p) (pd_isReady p)
                    (pd_score p)
                    (if bool_decide (pd_id p ∈ revealedPlayers)
                     then pd_role p else pd_role p)
                    (if bool_decide (pd_id p ∈ revealedPlayers)
                     then pd_word p else pd_word p))
                 <$> rd_players prev)
              (rd_gameState prev) (rd_round prev) (rd_maxPlayers prev)
              (rd_hostId prev) (rd_wordPair prev) (rd_votes prev)
              (rd_revealedPlayers prev))
  end.

Definition onGameEvent (room : option RoomData) (ev : Event)
  : option RoomData :=
  match ev_payload ev with
  | PRoomData roomData =>
      if bool_decide (ev_name ev ∈ ["roomUpdated"; "gameStarted";
                                    "discussionStarted"; "roundResults";
                                    "roundAdvanced"])
      then roomData else room
  | PRoleRevealed _ revealedPlayers =>
      if bool_decide (ev_name ev = "roleRevealed")
      then roleRevealedUpdate revealedPlayers room else room
  | _ => room
  end.

(** [str.padStart(targetLength, padString)]: the string is filled up on the
    left, to the target length, with the pad string repeated and cut as
    needed; [padFill n padString rest] is the first [n] characters of
    [rest] followed by repetitions of [padString]. *)
Fixpoint padFill (n : nat) (padString rest : string) : string :=
  match n with
  | 0 => EmptyString
  | S n' =>
      match rest with
      | String c rest' => String c (padFill n' padString rest')
      | EmptyString =>
          match padString with
          | String c rest' => String c (padFill n' padString rest')
          | EmptyString => EmptyString
          end
      end
  end.

Definition padStart (targetLength : nat) (padString s : string) : string :=
  padFill (targetLength - String.length s) padString padString +:+ s.

(** The text of the discussion timer.  [seconds] is the [timeLeft] state.
    JavaScript numbers are doubles; on the whole numbers between -2^53 and
    2^53 the quotient rounded down by [Math.floor(seconds / 60)], the
    remainder [%] (which has the sign of the dividend) and the decimal text
    of a number are those of the integers, and the embedding is defined on
    these arguments only: outside of them it gives no text. *)
Definition safeInteger (n : Z) : Prop := (- 2 ^ 53 < n < 2 ^ 53)%Z.

Definition formatTime (seconds : Z) : option string :=
  if decide (safeInteger seconds) then
    let mins := (seconds `div` 60)%Z in
    let secs := (seconds `rem` 60)%Z in
    Some (pretty mins +:+ ":" +:+ padStart 2 "0" (pretty secs))
  else None.

(** ** Further example runs *)

(** Dave joins, the game starts and everybody is ready.  Then A votes B,
    B votes C and C votes C: C is the first target to hold two votes.  The
    last vote, of D for B, makes it two votes each. *)
Definition discussion4 : State :=
  run lobby3 [ JoinRoom "D" "X" "dave"; StartGame "A" (0 # 1) (3 # 4);
               PlayerReady "A"; PlayerReady "B"; PlayerReady "C";
               PlayerReady "D" ].

Definition tied3 : State :=
  run discussion4 [SubmitVote "A" "B"; SubmitVote "B" "C"; SubmitVote "C" "C"].

Definition tied4 : State := step tied3 (SubmitVote "D" "B").

(** Alice, the host of X, creates a second room Y; then her connection
    drops. *)
Definition hostGone : State :=
  run lobby3 [CreateRoom "A" "alice" "Y"; Disconnect "A"].

(** Zoe's room X is replaced by Alice's room with the same code; Alice
    leaves, which deletes the room; then Zoe leaves. *)
Definition orphaned : State :=
  run initial [ CreateRoom "Z" "zoe" "X"; CreateRoom "A" "alice" "X";
                LeaveRoom "A"; LeaveRoom "Z" ].

(** * Properties *)

(** ** Insertion-ordered maps *)

Section JsMap_facts.
Context {V : Type}.
Implicit Types (m : JsMap.t V) (k : string) (v : V).

Lemma get_set_eq k v m : JsMap.get k (JsMap.set k v m) = Some v.
Proof.
  induction m as [|[k' v'] m IH]; simpl; repeat case_decide; simpl;
    repeat case_decide; congruence.
Qed.

Lemma get_set_ne k k' v m :
  k ≠ k' → JsMap.get k' (JsMap.set k v m) = JsMap.get k' m.
Proof.
  intros Hne. induction m as [|[k0 v0] m IH]; simpl; repeat case_decide;
    simpl; repeat case_decide; congruence.
Qed.

Lemma get_delete_eq k m : JsMap.get k (JsMap.delete k m) = None.
Proof.
  induction m as [|[k' v'] m IH]; simpl; repeat case_decide; simpl;
    repeat case_decide; congruence.
Qed.

Lemma get_delete_ne k k' m :
  k ≠ k' → JsMap.get k' (JsMap.delete k m) = JsMap.get k' m.
Proof.
  intros Hne. induction m as [|[k0 v0] m IH]; simpl; repeat case_decide;
    simpl; repeat case_decide; congruence.
Qed.

Lemma get_None_keys k m : JsMap.get k m = None ↔ k ∉ JsMap.keys m.
Proof.
  unfold JsMap.keys. induction m as [|[k' v'] m IH]; simpl.
  - split; [intros _; apply not_elem_of_nil | done].
  - rewrite not_elem_of_cons. case_decide; naive_solver.
Qed.

Lemma get_Some_elem k v m : JsMap.get k m = Some v → (k, v) ∈ m.
Proof.
  induction m as [|[k' v'] m IH]; simpl; [done|].
  case_decide; intros; simplify_eq; [left | right; auto].
Qed.

Lemma elem_get_Some k v m :
  NoDup (JsMap.keys m) → (k, v) ∈ m → JsMap.get k m = Some v.
Proof.
  unfold JsMap.keys. induction m as [|[k' v'] m IH]; simpl.
  - intros _ H. by apply elem_of_nil in H.
  - rewrite NoDup_cons. intros [Hk Hnd] [H|H]%elem_of_cons.
    + simplify_eq. by rewrite decide_True.
    + case_decide; [|auto]. subst. exfalso. apply Hk.
      apply list_elem_of_fmap. by exists (k, v).
Qed.

Lemma set_present k v m : JsMap.get k m = Some v → JsMap.set k v m = m.
Proof.
  induction m as [|[k' v'] m IH]; simpl; [done|].
  case_decide; intros; simplify_eq; [done | by rewrite IH].
Qed.

Lemma set_absent k v m : JsMap.get k m = None → JsMap.set k v m = m ++ [(k, v)].
Proof.
  induction m as [|[k' v'] m IH]; simpl; [done|].
  case_decide; intros; simplify_eq. by rewrite IH.
Qed.

Lemma keys_set_present k v m :
  is_Some (JsMap.get k m) → JsMap.keys (JsMap.set k v m) = JsMap.keys m.
Proof.
  unfold JsMap.keys. induction m as [|[k' v'] m IH]; simpl.
  - by intros [? ?].
  - case_decide; intros; simplify_eq; simpl; [done | f_equal; auto].
Qed.

Lemma size_set_present k v m :
  is_Some (JsMap.get k m) → JsMap.size (JsMap.set k v m) = JsMap.size m.
Proof.
  intros H. apply (keys_set_present k v) in H. unfold JsMap.size.
  apply (f_equal length) in H. unfold JsMap.keys in H.
  by rewrite !length_fmap in H.
Qed.

Lemma size_set_absent k v m :
  JsMap.get k m = None → JsMap.size (JsMap.set k v m) = S (JsMap.size m).
Proof.
  intros H. rewrite set_absent by done. unfold JsMap.size.
  rewrite length_app. simpl. lia.
Qed.

Lemma elem_of_set k v k' v' m :
  (k', v') ∈ JsMap.set k v m → (k', v') = (k, v) ∨ (k', v') ∈ m.
Proof.
  induction m as [|[k0 v0] m IH]; simpl.
  - intros ->%list_elem_of_singleton. by left.
  - case_decide; rewrite !elem_of_cons; naive_solver.
Qed.

Lemma elem_of_set_ne k v k' v' m :
  k' ≠ k → (k', v') ∈ JsMap.set k v m ↔ (k', v') ∈ m.
Proof.
  intros Hne. induction m as [|[k0 v0] m IH]; simpl.
  - rewrite list_elem_of_singleton. split; [naive_solver|].
    intros H. by apply elem_of_nil in H.
  - case_decide; rewrite !elem_of_cons; naive_solver.
Qed.

Lemma elem_of_delete k k' v' m :
  (k', v') ∈ JsMap.delete k m ↔ (k', v') ∈ m ∧ k' ≠ k.
Proof.
  induction m as [|[k0 v0] m IH]; simpl.
  - split; [intros H | intros [H _]]; by apply elem_of_nil in H.
  - case_decide; rewrite ?elem_of_cons, IH; naive_solver.
Qed.

Lemma keys_delete k m :
  JsMap.keys (JsMap.delete k m) = filter (λ x, x ≠ k) (JsMap.keys m).
Proof.
  unfold JsMap.keys. induction m as [|[k0 v0] m IH]; simpl; [done|].
  case_decide; simplify_eq.
  - rewrite filter_cons_False by naive_solver. done.
  - rewrite filter_cons_True by done. simpl. f_equal. apply IH.
Qed.

Lemma NoDup_keys_delete k m :
  NoDup (JsMap.keys m) → NoDup (JsMap.keys (JsMap.delete k m)).
Proof. rewrite keys_delete. apply NoDup_filter. Qed.

Lemma NoDup_keys_set k v m :
  NoDup (JsMap.keys m) → NoDup (JsMap.keys (JsMap.set k v m)).
Proof.
  intros Hnd. destruct (JsMap.get k m) as [v0|] eqn:Hget.
  - by rewrite keys_set_present.
  - rewrite set_absent by done. unfold JsMap.keys. rewrite fmap_app. simpl.
    apply NoDup_app. split_and!; [done| |apply NoDup_singleton].
    intros x Hx ->%list_elem_of_singleton.
    by apply get_None_keys in Hget.
Qed.

Lemma size_delete_le k m : JsMap.size (JsMap.delete k m) ≤ JsMap.size m.
Proof.
  unfold JsMap.size. induction m as [|[k0 v0] m IH]; simpl; [done|].
  case_decide; simpl; lia.
Qed.
End JsMap_facts.

(** ** Joining a room *)

Lemma joinRoom_not_found st sid roomCode playerName :
  rooms st !! roomCode = None →
  joinRoom st sid roomCode playerName
  = (st, [errorEvent sid "Room not found"]).
Proof. intros H. unfold joinRoom. by rewrite H. Qed.

Lemma joinRoom_full st sid roomCode playerName room :
  rooms st !! roomCode = Some room →
  (Room.maxPlayers room ≤ Z.of_nat (JsMap.size (Room.players room)))%Z →
  joinRoom st sid roomCode playerName = (st, [errorEvent sid "Room is full"]).
Proof. intros H Hfull. unfold joinRoom. rewrite H. by rewrite decide_True. Qed.

Lemma joinRoom_in_progress st sid roomCode playerName room :
  rooms st !! roomCode = Some room →
  (Z.of_nat (JsMap.size (Room.players room)) < Room.maxPlayers room)%Z →
  Room.gameState room ≠ lobby →
  joinRoom st sid roomCode playerName
  = (st, [errorEvent sid "Game already in progress"]).
Proof.
  intros H Hsize Hphase. unfold joinRoom. rewrite H.
  rewrite decide_False by lia. by rewrite decide_True.
Qed.

Lemma joinRoom_success st sid roomCode playerName room :
  rooms st !! roomCode = Some room →
  (Z.of_nat (JsMap.size (Room.players room)) < Room.maxPlayers room)%Z →
  Room.gameState room = lobby →
  joinRoom st sid roomCode playerName
  = (let st' :=
       mkState
         (<[roomCode :=
              Room.set_players
                (JsMap.set sid (length (heap st)) (Room.players room)) room]>
            (rooms st))
         (<[sid := length (heap st)]> (players st))
         (heap st ++ [newPlayer sid playerName roomCode]) in
     (st', [ mkEvent (ToSocket sid) "roomJoined"
               (PRoomPlayer roomCode (newPlayer sid playerName roomCode));
             roomUpdated st' roomCode ])).
Proof.
  intros H Hsize Hphase. unfold joinRoom. rewrite H.
  rewrite decide_False by lia. rewrite decide_False; [done|].
  intros Hne. by apply Hne.
Qed.

Lemma heap_grows_ne (h : list Player.t) (p : Player.t) : h ++ [p] ≠ h.
Proof.
  intros E. apply (f_equal length) in E. rewrite length_app in E.
  simpl in E. lia.
Qed.

(** C8: [joinRoom] answers with an error, and changes nothing, exactly when
    the code is not in the registry ("Room not found"), or the room already
    has [maxPlayers] members ("Room is full"), or the room is not in the
    lobby ("Game already in progress"), tested in this order.  Otherwise no
    error is sent, a new player object is created for the caller and stored
    under the caller's id both in the room and in the global players; the
    other members, the other rooms and the other players are untouched. *)
Theorem joinRoom_spec (st : State) (sid roomCode playerName : string) :
  let st' := (joinRoom st sid roomCode playerName).1 in
  let evs := (joinRoom st sid roomCode playerName).2 in
  (rooms st !! roomCode = None →
     st' = st ∧ evs = [errorEvent sid "Room not found"])
  ∧ (∀ room, rooms st !! roomCode = Some room →
       (Room.maxPlayers room ≤ Z.of_nat (JsMap.size (Room.players room)))%Z →
       st' = st ∧ evs = [errorEvent sid "Room is full"])
  ∧ (∀ room, rooms st !! roomCode = Some room →
       (Z.of_nat (JsMap.size (Room.players room)) < Room.maxPlayers room)%Z →
       Room.gameState room ≠ lobby →
       st' = st ∧ evs = [errorEvent sid "Game already in progress"])
  ∧ (∀ room, rooms st !! roomCode = Some room →
       (Z.of_nat (JsMap.size (Room.players room)) < Room.maxPlayers room)%Z →
       Room.gameState room = lobby →
       (∀ ev, ev ∈ evs → ev_name ev ≠ "error")
       ∧ ∃ room' pref,
           rooms st' !! roomCode = Some room'
           ∧ heap st' !! pref = Some (newPlayer sid playerName roomCode)
           ∧ heap st !! pref = None
           ∧ JsMap.get sid (Room.players room') = Some pref
           ∧ (∀ k, k ≠ sid →
                JsMap.get k (Room.players room')
                = JsMap.get k (Room.players room))
           ∧ Room.set_players (Room.players room) room' = room
           ∧ players st' !! sid = Some pref
           ∧ (∀ k, k ≠ sid → players st' !! k = players st !! k)
           ∧ (∀ c, c ≠ roomCode → rooms st' !! c = rooms st !! c)
           ∧ (∀ pref p, heap st !! pref = Some p → heap st' !! pref = Some p))
  ∧ (st' = st ↔
       rooms st !! roomCode = None
       ∨ ∃ room, rooms st !! roomCode = Some room
           ∧ ((Room.maxPlayers room
               ≤ Z.of_nat (JsMap.size (Room.players room)))%Z
              ∨ Room.gameState room ≠ lobby)).
Proof.
  intros st' evs. subst st' evs. split_and!.
  - intros H. by rewrite joinRoom_not_found.
  - intros room H Hfull. by rewrite (joinRoom_full _ _ _ _ room).
  - intros room H Hsize Hphase.
    by rewrite (joinRoom_in_progress _ _ _ _ room).
  - intros room H Hsize Hphase.
    rewrite (joinRoom_success _ _ _ _ room) by done. simpl. split.
    + intros ev [->| ->%list_elem_of_singleton]%elem_of_cons; done.
    + eexists _, (length (heap st)). split; [apply lookup_insert_eq|].
      split_and!.
      * rewrite lookup_app_r by lia. by rewrite Nat.sub_diag.
      * by apply lookup_ge_None_2.
      * simpl. apply get_set_eq.
      * intros k Hk. simpl. by rewrite get_set_ne.
      * by destruct room.
      * apply lookup_insert_eq.
      * intros k Hk. by rewrite lookup_insert_ne.
      * intros c Hc. by rewrite lookup_insert_ne.
      * intros pref p Hp. rewrite lookup_app_l; [done|].
        by apply lookup_lt_Some in Hp.
  - split.
    + intros E. destruct (rooms st !! roomCode) as [room|] eqn:H; [|by left].
      right. exists room. split; [done|].
      destruct (decide (Room.maxPlayers room
                        ≤ Z.of_nat (JsMap.size (Room.players room)))%Z);
        [by left|right].
      intros Hphase.
      rewrite (joinRoom_success _ _ _ _ room) in E by (done || lia).
      simpl in E. apply (f_equal heap) in E. simpl in E.
      by apply heap_grows_ne in E.
    + intros [H|(room & H & [Hfull|Hphase])].
      * by rewrite joinRoom_not_found.
      * by rewrite (joinRoom_full _ _ _ _ room).
      * destruct (decide (Room.maxPlayers room
                          ≤ Z.of_nat (JsMap.size (Room.players room)))%Z).
        -- by rewrite (joinRoom_full _ _ _ _ room).
        -- by rewrite (joinRoom_in_progress _ _ _ _ room) by (done || lia).
Qed.

Lemma joinRoom_spec_witness :
  ((joinRoom initial "B" "X" "bob").1 = initial
   ∧ (joinRoom initial "B" "X" "bob").2 = [errorEvent "B" "Room not found"])
  ∧ ((joinRoom full6 "G" "X" "grace").1 = full6
     ∧ (joinRoom full6 "G" "X" "grace").2 = [errorEvent "G" "Room is full"])
  ∧ ((joinRoom started3 "D" "X" "dave").1 = started3
     ∧ (joinRoom started3 "D" "X" "dave").2
       = [errorEvent "D" "Game already in progress"])
  ∧ (∀ ev, ev ∈ (joinRoom lobby3 "D" "X" "dave").2 → ev_name ev ≠ "error").
Proof.
  pose proof (joinRoom_spec initial "B" "X" "bob") as (H1 & _).
  pose proof (joinRoom_spec full6 "G" "X" "grace") as (_ & H2 & _).
  pose proof (joinRoom_spec started3 "D" "X" "dave") as (_ & _ & H3 & _).
  pose proof (joinRoom_spec lobby3 "D" "X" "dave") as (_ & _ & _ & H4 & _).
  refine (conj _ (conj _ (conj _ _))).
  - apply H1. reflexivity.
  - eapply H2; [reflexivity | vm_compute; discriminate].
  - eapply H3; [reflexivity | vm_compute; reflexivity
               | vm_compute; discriminate].
  - eapply H4; [reflexivity | vm_compute; reflexivity
               | vm_compute; reflexivity].
Defined.

(** ** Creating a room *)

(** Two rooms are created and the generator draws the code X twice: the
    second call replaces Alice's room by Bob's. *)
Lemma createRoom_overwrites :
  let st := (createRoom initial "A" "alice" "X").1 in
  let st' := (createRoom st "B" "bob" "X").1 in
  (Room.players <$> rooms st !! "X") = Some [("A", 0)]
  ∧ (Room.hostId <$> rooms st !! "X") = Some "A"
  ∧ (Room.players <$> rooms st' !! "X") = Some [("B", 1)]
  ∧ (Room.hostId <$> rooms st' !! "X") = Some "B".
Proof. vm_compute. done. Qed.

(** C3 (amended): [createRoom] stores the new room under the code drawn by
    the generator, whatever the registry holds: afterwards that code maps to
    a lobby room whose only member and host is the caller, every other code
    maps to what it mapped to before, and when the drawn code was not in use
    every room of the registry is still there, unchanged.  The code is not
    compared with the registry and nothing is retried. *)
Theorem createRoom_spec (st : State) (sid playerName roomCode : string) :
  let st' := (createRoom st sid playerName roomCode).1 in
  rooms st' !! roomCode
  = Some (Room.mk roomCode [(sid, length (heap st))] lobby 1 6 sid None [] []
            None)
  ∧ heap st' !! length (heap st) = Some (newPlayer sid playerName roomCode)
  ∧ players st' !! sid = Some (length (heap st))
  ∧ (∀ c, c ≠ roomCode → rooms st' !! c = rooms st !! c)
  ∧ (rooms st !! roomCode = None →
     ∀ c room, rooms st !! c = Some room → rooms st' !! c = Some room).
Proof.
  simpl. split_and!.
  - apply lookup_insert_eq.
  - rewrite lookup_app_r by lia. by rewrite Nat.sub_diag.
  - apply lookup_insert_eq.
  - intros c Hc. by rewrite lookup_insert_ne.
  - intros Hfresh c room Hc. rewrite lookup_insert_ne; [done|].
    intros ->. congruence.
Qed.

Lemma createRoom_spec_witness :
  let st := (createRoom initial "A" "alice" "X").1 in
  rooms (createRoom st "B" "bob" "Y").1 !! "X" = rooms st !! "X"
  ∧ rooms (createRoom st "B" "bob" "Y").1 !! "X"
    = Some (Room.mk "X" [("A", 0)] lobby 1 6 "A" None [] [] None).
Proof.
  intros st.
  destruct (createRoom_spec st "B" "bob" "Y") as (_ & _ & _ & Hother & Hkeep).
  split.
  - apply Hother. discriminate.
  - apply Hkeep; reflexivity.
Defined.

(** ** The snapshot *)

Lemma playerData_visible r p :
  visibleIn r (Player.id p) →
  pd_role (playerData r p) = Player.role p
  ∧ pd_word (playerData r p) = Player.word p.
Proof.
  intros Hvis. unfold playerData, JsSet.has. simpl.
  destruct Hvis as [H|H].
  - by rewrite (bool_decide_eq_true_2 _ H).
  - rewrite (bool_decide_eq_true_2 (Player.id p ∈ _) H).
    by rewrite orb_true_r.
Qed.

Lemma playerData_hidden r p :
  ¬ visibleIn r (Player.id p) →
  pd_role (playerData r p) = None ∧ pd_word (playerData r p) = None.
Proof.
  intros Hvis. unfold playerData, JsSet.has. simpl.
  rewrite bool_decide_eq_false_2 by (intros H; apply Hvis; by left).
  rewrite bool_decide_eq_false_2 by (intros H; apply Hvis; by right).
  done.
Qed.

(** C7: in the snapshot of a room every member appears with its id, name,
    readiness and score; its role and word are the member's own when the
    room is in the results phase or the member's id is in the revealed set,
    and are null otherwise; the word pair is the room's in the results phase
    and null otherwise; of the votes only their number is given.  Hence the
    snapshot does not depend on who voted for whom, nor, outside the results
    phase, on the word pair or on the role and word of a member that is not
    revealed. *)
Theorem getRoomData_secrecy (st : State) (roomCode : string) (room : Room.t) :
  rooms st !! roomCode = Some room →
  ∃ data,
    getRoomData st roomCode = Some data
    ∧ Forall2
        (λ p pd,
           pd_id pd = Player.id p ∧ pd_name pd = Player.name p
           ∧ pd_isReady pd = Player.isReady p ∧ pd_score pd = Player.score p
           ∧ (visibleIn room (Player.id p) →
              pd_role pd = Player.role p ∧ pd_word pd = Player.word p)
           ∧ (¬ visibleIn room (Player.id p) →
              pd_role pd = None ∧ pd_word pd = None))
        (members (heap st) room) (rd_players data)
    ∧ (Room.gameState room = results → rd_wordPair data = Room.wordPair room)
    ∧ (Room.gameState room ≠ results → rd_wordPair data = None)
    ∧ rd_votes data = JsMap.size (Room.votes room)
    ∧ (∀ votes',
         JsMap.size votes' = JsMap.size (Room.votes room) →
         roomData (heap st) (Room.set_votes votes' room) = data)
    ∧ (∀ wordPair',
         Room.gameState room ≠ results →
         roomData (heap st) (Room.set_wordPair wordPair' room) = data)
    ∧ (∀ p role' word',
         ¬ visibleIn room (Player.id p) →
         playerData room (Player.set_role_word role' word' p)
         = playerData room p).
Proof.
  intros Hroom. exists (roomData (heap st) room). split_and!.
  - unfold getRoomData. by rewrite Hroom.
  - simpl. apply Forall2_fmap_r, Forall_Forall2_diag, Forall_forall.
    intros p _. split_and!; try done.
    + apply playerData_visible.
    + apply playerData_hidden.
  - intros H. simpl. by rewrite (bool_decide_eq_true_2 _ H).
  - intros H. simpl. by rewrite (bool_decide_eq_false_2 _ H).
  - done.
  - intros votes' Hsize. unfold roomData. simpl. by rewrite Hsize.
  - intros wordPair' H. unfold roomData. simpl.
    by rewrite (bool_decide_eq_false_2 _ H).
  - intros p role' word' Hvis. unfold playerData, JsSet.has. simpl.
    rewrite bool_decide_eq_false_2 by (intros H; apply Hvis; by left).
    rewrite bool_decide_eq_false_2 by (intros H; apply Hvis; by right).
    done.
Qed.

Lemma getRoomData_secrecy_witness :
  ∃ data,
    getRoomData started3 "X" = Some data
    ∧ rd_wordPair data = None
    ∧ Forall (λ pd, pd_role pd = None ∧ pd_word pd = None) (rd_players data).
Proof.
  destruct (getRoomData_secrecy started3 "X"
              (Room.mk "X" [("A", 0); ("B", 1); ("C", 2)] assigning 1 6 "A"
                 (Some (mkWordPair "Spy" "Password")) [] [] None))
    as (data & Hdata & Hplayers & _ & Hpair & _).
  { reflexivity. }
  exists data. split_and!; [done | by apply Hpair |].
  apply Forall2_Forall_r with (1 := Hplayers).
  apply Forall_forall. intros p _ pd (_ & _ & _ & _ & _ & Hhid).
  apply Hhid. intros [H|H]; [discriminate | by apply elem_of_nil in H].
Defined.

(** ** Leaving a room *)

Lemma leaveRoom_eq_disconnect st sid : leaveRoom st sid = disconnect st sid.
Proof.
  unfold leaveRoom, disconnect.
  destruct (getPlayer st sid) as [[pref player]|]; [|done].
  destruct (rooms st !! Player.room player) as [room|]; [|done].
  by case_decide.
Qed.

Lemma size_0_nil {V} (m : JsMap.t V) : JsMap.size m = 0 ↔ m = [].
Proof. unfold JsMap.size. by destruct m. Qed.

(** C6 (amended): [leaveRoom] and [disconnect] are the same function of the
    state (and emit the same events).  A caller without a player entry, or
    whose entry names a room that is not in the registry, changes nothing:
    such an entry stays in the global players.  Otherwise the caller is
    removed from the global players and from the members of the room its
    entry names, and of no other room; when no member remains that room is
    deleted from the registry, so that every later [joinRoom] with its code
    answers "Room not found"; when members remain the room stays, its host
    is the first remaining member in iteration order if the caller was the
    host and is unchanged otherwise, and nothing else in the room, the other
    rooms, the other players or the heap changes. *)
Theorem leaveRoom_disconnect_spec (st : State) (sid : string) :
  let st' := (leaveRoom st sid).1 in
  leaveRoom st sid = disconnect st sid
  ∧ (getPlayer st sid = None → st' = st)
  ∧ (∀ pref player,
       getPlayer st sid = Some (pref, player) →
       rooms st !! Player.room player = None → st' = st)
  ∧ (∀ pref player room,
       getPlayer st sid = Some (pref, player) →
       rooms st !! Player.room player = Some room →
       let rest := JsMap.delete sid (Room.players room) in
       players st' !! sid = None
       ∧ (∀ k, k ≠ sid → players st' !! k = players st !! k)
       ∧ heap st' = heap st
       ∧ (∀ c, c ≠ Player.room player → rooms st' !! c = rooms st !! c)
       ∧ (JsMap.size rest = 0 →
          rooms st' !! Player.room player = None
          ∧ ∀ sid' playerName,
              joinRoom st' sid' (Player.room player) playerName
              = (st', [errorEvent sid' "Room not found"]))
       ∧ (JsMap.size rest ≠ 0 →
          ∃ room',
            rooms st' !! Player.room player = Some room'
            ∧ Room.players room' = rest
            ∧ JsMap.get sid (Room.players room') = None
            ∧ (Room.hostId room = sid →
               head (JsMap.keys rest) = Some (Room.hostId room'))
            ∧ (Room.hostId room ≠ sid → Room.hostId room' = Room.hostId room)
            ∧ Room.set_hostId (Room.hostId room)
                (Room.set_players (Room.players room) room') = room)).
Proof.
  intros st'. subst st'. split_and!.
  - apply leaveRoom_eq_disconnect.
  - intros H. unfold leaveRoom. by rewrite H.
  - intros pref player H Hroom. unfold leaveRoom. by rewrite H, Hroom.
  - intros pref player room H Hroom rest. unfold leaveRoom.
    rewrite H, Hroom. simpl. fold rest.
    destruct (decide (JsMap.size rest = 0)) as [Hz|Hnz]; simpl.
    + split_and!; try done.
      * apply lookup_delete_eq.
      * intros k Hk. by rewrite lookup_delete_ne.
      * intros c Hc. by rewrite lookup_delete_ne.
      * intros _. split; [apply lookup_delete_eq|].
        intros sid' playerName. apply joinRoom_not_found. simpl.
        apply lookup_delete_eq.
    + split_and!; try done.
      * apply lookup_delete_eq.
      * intros k Hk. by rewrite lookup_delete_ne.
      * intros c Hc. by rewrite lookup_insert_ne.
      * intros _. eexists. split; [apply lookup_insert_eq|].
        destruct (decide (Room.hostId room = sid)) as [Hhost|Hhost]; simpl.
        -- split_and!; try done.
           ++ apply get_delete_eq.
           ++ intros _. unfold firstKey. fold rest.
              destruct rest as [|[k v] rest'] eqn:E; [done|]. done.
           ++ by destruct room.
        -- split_and!; try done.
           ++ apply get_delete_eq.
           ++ by destruct room.
Qed.

Lemma leaveRoom_disconnect_spec_witness :
  (* the host of a three-member room drops: the next member takes over *)
  (Room.hostId <$> rooms (leaveRoom started3 "A").1 !! "X") = Some "B"
  ∧ players (disconnect started3 "A").1 !! "A" = None
  (* the only member of a room leaves: the room is gone *)
  ∧ (let st := (createRoom initial "A" "alice" "X").1 in
     joinRoom (leaveRoom st "A").1 "B" "X" "bob"
     = ((leaveRoom st "A").1, [errorEvent "B" "Room not found"])).
Proof.
  split_and!.
  - pose proof (leaveRoom_disconnect_spec started3 "A") as (_ & _ & _ & H).
    destruct (H 0 (Player.mk "A" "alice" "X" (Some shadow) (Some "Spy") false 0)
                (Room.mk "X" [("A", 0); ("B", 1); ("C", 2)] assigning 1 6 "A"
                   (Some (mkWordPair "Spy" "Password")) [] [] None)
                eq_refl eq_refl) as (_ & _ & _ & _ & _ & Hrest).
    destruct Hrest as (room' & Hroom' & _ & _ & Hhost & _); [discriminate|].
    simpl in Hroom'. rewrite Hroom'. simpl.
    specialize (Hhost eq_refl). simpl in Hhost. congruence.
  - pose proof (leaveRoom_disconnect_spec started3 "A") as (E & _ & _ & H).
    rewrite <- E.
    apply (H 0 (Player.mk "A" "alice" "X" (Some shadow) (Some "Spy") false 0)
             (Room.mk "X" [("A", 0); ("B", 1); ("C", 2)] assigning 1 6 "A"
                (Some (mkWordPair "Spy" "Password")) [] [] None)
             eq_refl eq_refl).
  - intros st.
    pose proof (leaveRoom_disconnect_spec st "A") as (_ & _ & _ & H).
    destruct (H 0 (newPlayer "A" "alice" "X")
                (Room.mk "X" [("A", 0)] lobby 1 6 "A" None [] [] None)
                eq_refl eq_refl) as (_ & _ & _ & _ & Hempty & _).
    apply Hempty. reflexivity.
Defined.

(** ** The tally *)

Lemma foldl_extensional {A B} (f g : A → B → A) (l : list B) :
  (∀ a b, f a b = g a b) → ∀ a, foldl f a l = foldl g a l.
Proof.
  intros Hfg. induction l as [|b l IH]; intros a; simpl; [done|].
  by rewrite Hfg, IH.
Qed.

Section tally.
Lemma countVotes_foldl votes : countVotes votes = foldl countStep [] votes.
Proof.
  unfold countVotes. apply foldl_extensional. by intros vc [voter target].
Qed.

Lemma mostVotes_foldl vc : mostVotes vc = foldl maxStep (0, None) vc.
Proof.
  unfold mostVotes. apply foldl_extensional. intros [m e] [t n]. unfold maxStep.
  simpl. by case_decide.
Qed.

Lemma votesFor_cons v votes t :
  votesFor (v :: votes) t
  = (if decide (v.2 = t) then 1 else 0) + votesFor votes t.
Proof.
  unfold votesFor. case_decide.
  - by rewrite filter_cons_True.
  - by rewrite filter_cons_False.
Qed.

Lemma count_get votes : ∀ vc t,
  JsMap.get t (foldl countStep vc votes)
  = match JsMap.get t vc with
    | Some c => Some (c + votesFor votes t)
    | None => if decide (votesFor votes t = 0) then None
              else Some (votesFor votes t)
    end.
Proof.
  induction votes as [|[voter target] votes IH]; intros vc t; simpl.
  - destruct (JsMap.get t vc); [f_equal; unfold votesFor; simpl; lia|done].
  - rewrite IH, votesFor_cons. unfold countStep. simpl.
    destruct (decide (target = t)) as [->|Hne].
    + rewrite get_set_eq.
      destruct (JsMap.get t vc); simpl; [f_equal; lia|].
      done.
    + rewrite get_set_ne by done. done.
Qed.

Lemma count_keys votes : ∀ vc,
  JsMap.keys (foldl countStep vc votes)
  = foldl seenStep (JsMap.keys vc) votes.*2.
Proof.
  induction votes as [|[voter target] votes IH]; intros vc; simpl; [done|].
  rewrite IH. f_equal. unfold countStep, seenStep. simpl.
  destruct (JsMap.get target vc) as [c|] eqn:E.
  - rewrite keys_set_present by (by rewrite E).
    rewrite decide_True; [done|].
    destruct (decide (target ∈ JsMap.keys vc)) as [|Hn]; [done|].
    apply get_None_keys in Hn. congruence.
  - rewrite set_absent by done.
    rewrite decide_False by (by apply get_None_keys).
    unfold JsMap.keys. by rewrite fmap_app.
Qed.

Lemma count_NoDup votes : ∀ vc,
  NoDup (JsMap.keys vc) → NoDup (JsMap.keys (foldl countStep vc votes)).
Proof.
  induction votes as [|v votes IH]; intros vc Hnd; simpl; [done|].
  apply IH. by apply NoDup_keys_set.
Qed.

Lemma countVotes_get votes t :
  JsMap.get t (countVotes votes)
  = if decide (votesFor votes t = 0) then None else Some (votesFor votes t).
Proof. rewrite countVotes_foldl. by rewrite count_get. Qed.

Lemma countVotes_keys votes :
  JsMap.keys (countVotes votes) = firstSeen votes.*2.
Proof. rewrite countVotes_foldl. by rewrite count_keys. Qed.

Lemma countVotes_NoDup votes : NoDup (JsMap.keys (countVotes votes)).
Proof. rewrite countVotes_foldl. apply count_NoDup. constructor. Qed.

Lemma countVotes_elem votes t n :
  (t, n) ∈ countVotes votes ↔ n = votesFor votes t ∧ n ≠ 0.
Proof.
  split.
  - intros H. apply elem_get_Some in H; [|apply countVotes_NoDup].
    rewrite countVotes_get in H. case_decide; simplify_eq. done.
  - intros [-> Hn]. apply get_Some_elem. rewrite countVotes_get.
    by rewrite decide_False.
Qed.

Lemma countVotes_nil votes : countVotes votes = [] ↔ votes = [].
Proof.
  split; [|by intros ->].
  destruct votes as [|[voter target] votes]; [done|]. intros E.
  pose proof (countVotes_get ((voter, target) :: votes) target) as H.
  rewrite E, votesFor_cons in H. simpl in H.
  rewrite (decide_True (P := target = target)) in H by done.
  simpl in H. done.
Qed.

(** The scan for the highest count. *)
Lemma maxStep_below l : ∀ m e,
  Forall (λ x, x.2 ≤ m) l → foldl maxStep (m, e) l = (m, e).
Proof.
  induction l as [|[t n] l IH]; intros m e Hall; simpl; [done|].
  apply Forall_cons in Hall as [Hn Hall]. simpl in Hn.
  unfold maxStep at 2. simpl. rewrite decide_False by lia. by apply IH.
Qed.

Lemma maxStep_bound l n : ∀ m e,
  m < n → Forall (λ x, x.2 < n) l → (foldl maxStep (m, e) l).1 < n.
Proof.
  induction l as [|[t k] l IH]; intros m e Hm Hall; simpl; [done|].
  apply Forall_cons in Hall as [Hk Hall]. simpl in Hk.
  unfold maxStep at 2. simpl. case_decide; by apply IH.
Qed.

Lemma maxStep_first_max l1 t n l2 m e :
  m < n → Forall (λ x, x.2 < n) l1 → Forall (λ x, x.2 ≤ n) l2 →
  foldl maxStep (m, e) (l1 ++ (t, n) :: l2) = (n, Some t).
Proof.
  intros Hm H1 H2. rewrite foldl_app. simpl.
  pose proof (maxStep_bound l1 n m e Hm H1) as Hb.
  destruct (foldl maxStep (m, e) l1) as [m1 e1]. simpl in Hb.
  unfold maxStep at 2. simpl. rewrite decide_True by done.
  by apply maxStep_below.
Qed.

(** Every non-empty list of counts has a first entry of maximal count. *)
Lemma first_max_exists (l : list (string * nat)) :
  l ≠ [] →
  ∃ l1 t n l2, l = l1 ++ (t, n) :: l2
    ∧ Forall (λ x, x.2 < n) l1 ∧ Forall (λ x, x.2 ≤ n) l2.
Proof.
  induction l as [|[t n] l IH]; [done|]. intros _.
  destruct l as [|x l'].
  { exists [], t, n, []. by split_and!. }
  destruct IH as (l1 & t' & n' & l2 & E & H1 & H2); [done|].
  destruct (decide (n' ≤ n)).
  - exists [], t, n, (x :: l'). split_and!; [done|constructor|].
    rewrite E. apply Forall_app. split.
    + eapply Forall_impl; [exact H1|]. simpl. intros; lia.
    + constructor; [simpl; lia|].
      eapply Forall_impl; [exact H2|]. simpl. intros; lia.
  - exists ((t, n) :: l1), t', n', l2. split_and!; [by rewrite E| |done].
    constructor; [simpl; lia|done].
Qed.
End tally.

Lemma mostVotes_first_max l1 t n l2 :
  0 < n → Forall (λ x, x.2 < n) l1 → Forall (λ x, x.2 ≤ n) l2 →
  mostVotes (l1 ++ (t, n) :: l2) = (n, Some t).
Proof.
  intros. rewrite mostVotes_foldl. by apply maxStep_first_max.
Qed.

Lemma calculateResults_results h room :
  Room.results (calculateResults h room).2
  = Some (mkResults
            (mostVotes (countVotes (Room.votes room))).2
            (match member h room
                     <$> (mostVotes (countVotes (Room.votes room))).2 with
             | Some (Some p) => Some (isShadow p)
             | _ => None
             end)
            (countVotes (Room.votes room))).
Proof.
  unfold calculateResults. simpl. do 2 f_equal.
  destruct (mostVotes (countVotes (Room.votes room))).2 as [eid|]; [|done].
  simpl. unfold member.
  destruct (JsMap.get eid (Room.players room)) as [pref|]; [|done]. simpl.
  by destruct (h !! pref).
Qed.

(** C4 (amended): the tally is a function of the votes map.  The eliminated
    id is the first key, in the iteration order of the vote count (the order
    in which the targets first occur in the votes map), whose count is the
    highest: no target has more votes and every target before it has
    strictly fewer.  Among targets with equally many votes the one that was
    voted for first wins, not the one that reached that count first.  With
    no votes nobody is eliminated.  [shadowCaught] is true exactly when the
    eliminated id is a member of the room whose role is shadow. *)
Theorem calculateResults_tally (h : list Player.t) (room : Room.t) :
  ∃ e sc,
    Room.results (calculateResults h room).2
    = Some (mkResults e sc (countVotes (Room.votes room)))
    ∧ (∀ h' room',
         Room.votes room' = Room.votes room →
         eliminatedPlayerId <$> Room.results (calculateResults h' room').2
         = Some e)
    ∧ (Room.votes room = [] → e = None)
    ∧ (Room.votes room ≠ [] →
       ∃ t before after,
         e = Some t
         ∧ firstSeen (Room.votes room).*2 = before ++ t :: after
         ∧ 0 < votesFor (Room.votes room) t
         ∧ (∀ t', votesFor (Room.votes room) t'
                  ≤ votesFor (Room.votes room) t)
         ∧ (∀ t', t' ∈ before →
                  votesFor (Room.votes room) t'
                  < votesFor (Room.votes room) t))
    ∧ (sc = Some true ↔
       ∃ t p, e = Some t ∧ member h room t = Some p
              ∧ Player.role p = Some shadow).
Proof.
  eexists _, _. split; [apply calculateResults_results|].
  set (votes := Room.votes room). split_and!.
  - intros h' room' E. rewrite calculateResults_results. simpl.
    by rewrite E.
  - intros E. by rewrite E.
  - intros Hne.
    destruct (first_max_exists (countVotes votes))
      as (l1 & t & n & l2 & E & H1 & H2).
    { by rewrite countVotes_nil. }
    assert (Hin : ∀ t' n', (t', n') ∈ countVotes votes ↔
                  (t', n') ∈ l1 ∨ (t', n') = (t, n) ∨ (t', n') ∈ l2).
    { intros t' n'. rewrite E, elem_of_app, elem_of_cons. done. }
    assert (Hn : n = votesFor votes t ∧ n ≠ 0).
    { apply countVotes_elem, Hin. by right; left. }
    destruct Hn as [Hn Hpos].
    exists t, l1.*1, l2.*1. split_and!.
    + rewrite E. rewrite mostVotes_first_max; [done|lia|done|done].
    + rewrite <- countVotes_keys, E. unfold JsMap.keys.
      by rewrite fmap_app.
    + lia.
    + intros t'. destruct (decide (votesFor votes t' = 0)) as [->|Hnz]; [lia|].
      assert (Ht' : (t', votesFor votes t') ∈ countVotes votes)
        by (by apply countVotes_elem).
      apply Hin in Ht' as [Ht'|[Ht'|Ht']].
      * rewrite Forall_forall in H1. apply H1 in Ht'. simpl in Ht'. lia.
      * simplify_eq. lia.
      * rewrite Forall_forall in H2. apply H2 in Ht'. simpl in Ht'. lia.
    + intros t' ([t'' n'] & -> & Ht')%list_elem_of_fmap. simpl.
      assert (n' = votesFor votes t'' ∧ n' ≠ 0) as [<- _].
      { apply countVotes_elem, Hin. by left. }
      rewrite Forall_forall in H1. apply H1 in Ht'. simpl in Ht'. lia.
  - destruct (mostVotes (countVotes votes)).2 as [eid|]; simpl.
    + destruct (member h room eid) as [p|] eqn:Hm.
      * unfold isShadow. split.
        -- intros [= Hs]. apply bool_decide_eq_true in Hs. by exists eid, p.
        -- intros (t & p' & [= <-] & Hp & Hrole). simplify_eq.
           by rewrite bool_decide_eq_true_2.
      * split; [done|]. intros (t & p' & [= <-] & Hp & _). congruence.
    + split; [done|]. by intros (t & p & ? & _).
Qed.

(** Two targets with two votes each: the one that was voted for first is
    eliminated, although the other one reached two votes earlier. *)
Lemma tally_tie_example :
  mostVotes (countVotes [("v1", "B"); ("v2", "C"); ("v3", "C"); ("v4", "B")])
  = (2, Some "B").
Proof. reflexivity. Qed.

Lemma calculateResults_tally_witness :
  ∃ e sc,
    (rooms results3 !! "X" ≫= Room.results)
    = Some (mkResults e sc [("B", 2); ("C", 1)])
    ∧ e = Some "B" ∧ sc ≠ Some true.
Proof.
  pose (room := Room.mk "X" [("A", 0); ("B", 1); ("C", 2)] results 1 6 "A"
                  (Some (mkWordPair "Spy" "Password"))
                  [("A", "B"); ("B", "C"); ("C", "B")] [] None).
  destruct (calculateResults_tally (heap discussion3) room)
    as (e & sc & Hres & _ & _ & Hmax & Hcaught).
  exists e, sc. split_and!.
  - transitivity (Room.results (calculateResults (heap discussion3) room).2);
      [vm_compute; reflexivity | exact Hres].
  - destruct Hmax as (t & before & after & -> & _); [discriminate|].
    vm_compute in Hres. congruence.
  - intros Hsc. apply Hcaught in Hsc as (t & p & -> & Hp & Hrole).
    vm_compute in Hres. simplify_eq. vm_compute in Hp. simplify_eq.
Defined.

(** ** Heaps and loops over player objects *)

Lemma grows_refl p : grows p p.
Proof. unfold grows. split_and!; done. Qed.

Lemma grows_trans p1 p2 p3 : grows p1 p2 → grows p2 p3 → grows p1 p3.
Proof.
  unfold grows. intros (? & ? & ? & ?) (? & ? & ? & ?).
  split_and!; try congruence. lia.
Qed.

Lemma sameRole_refl p : sameRole p p.
Proof. by split. Qed.

Lemma sameRole_trans p1 p2 p3 :
  sameRole p1 p2 → sameRole p2 p3 → sameRole p1 p3.
Proof. unfold sameRole. intros [? ?] [? ?]. split; congruence. Qed.

Section heap_rel.
Context (R : Player.t → Player.t → Prop).
Context (R_refl : ∀ p, R p p).
Context (R_trans : ∀ p1 p2 p3, R p1 p2 → R p2 p3 → R p1 p3).

Lemma heap_rel_refl h : heap_rel R h h.
Proof. intros pref p H. eauto. Qed.

Lemma heap_rel_trans h1 h2 h3 :
  heap_rel R h1 h2 → heap_rel R h2 h3 → heap_rel R h1 h3.
Proof.
  intros H12 H23 pref p H. apply H12 in H as (p2 & H2 & HR).
  apply H23 in H2 as (p3 & H3 & HR'). eauto.
Qed.

Lemma heap_rel_app h tl : heap_rel R h (h ++ tl).
Proof.
  intros pref p H. exists p. split; [|done]. rewrite lookup_app_l; [done|].
  by apply lookup_lt_Some in H.
Qed.

Lemma heap_rel_insert h pref p p' :
  h !! pref = Some p → R p p' → heap_rel R h (<[pref := p']> h).
Proof.
  intros H HR pref0 p0 H0. destruct (decide (pref0 = pref)) as [->|Hne].
  - exists p'. rewrite list_lookup_insert_eq by (by eapply lookup_lt_Some).
    split; [done|]. congruence.
  - exists p0. by rewrite list_lookup_insert_ne.
Qed.

Lemma updateAll_rel fs : ∀ h,
  (∀ pref f, (pref, f) ∈ fs → ∀ p, R p (f p)) →
  heap_rel R h (updateAll fs h).
Proof.
  induction fs as [|[pref f] fs IH]; intros h Hfs; simpl.
  - apply heap_rel_refl.
  - assert (Hrest : ∀ pref' f', (pref', f') ∈ fs → ∀ p, R p (f' p)).
    { intros pref' f' Hin. apply (Hfs pref' f'). by right. }
    destruct (h !! pref) as [p|] eqn:Hp; [|by apply IH].
    eapply heap_rel_trans; [|by apply IH].
    eapply heap_rel_insert; [done|]. apply (Hfs pref f). by left.
Qed.
End heap_rel.

Lemma updateAll_length fs : ∀ h, length (updateAll fs h) = length h.
Proof.
  induction fs as [|[pref f] fs IH]; intros h; simpl; [done|].
  destruct (h !! pref); rewrite IH; [apply length_insert|done].
Qed.

Lemma updateAll_notin fs pref : ∀ h,
  pref ∉ fs.*1 → updateAll fs h !! pref = h !! pref.
Proof.
  induction fs as [|[pref' f] fs IH]; intros h Hnot; simpl; [done|].
  simpl in Hnot. apply not_elem_of_cons in Hnot as [Hne Hnot].
  destruct (h !! pref') as [p|]; rewrite IH by done; [|done].
  by rewrite list_lookup_insert_ne.
Qed.

Lemma updateAll_in fs pref f : ∀ h,
  NoDup fs.*1 → (pref, f) ∈ fs → updateAll fs h !! pref = f <$> h !! pref.
Proof.
  induction fs as [|[pref' f'] fs IH]; intros h Hnd Hin; simpl.
  - by apply elem_of_nil in Hin.
  - simpl in Hnd. apply NoDup_cons in Hnd as [Hfirst Hnd].
    apply elem_of_cons in Hin as [Heq|Hin].
    + simplify_eq. destruct (h !! pref') as [p|] eqn:Hp.
      * rewrite updateAll_notin by done. simpl.
        apply list_lookup_insert_eq. by eapply lookup_lt_Some.
      * rewrite updateAll_notin by done. by rewrite Hp.
    + assert (pref ≠ pref').
      { intros ->. apply Hfirst. apply list_elem_of_fmap. by exists (pref', f). }
      destruct (h !! pref') as [p|]; rewrite IH by done; [|done].
      by rewrite list_lookup_insert_ne.
Qed.

Lemma forEachPlayer_updateAll f prefs : ∀ h,
  forEachPlayer f prefs h = updateAll ((λ pref, (pref, f)) <$> prefs) h.
Proof.
  induction prefs as [|pref prefs IH]; intros h; simpl; [done|].
  destruct (h !! pref); by rewrite IH.
Qed.

Lemma assignRoles_heap wp spi arr : ∀ i h rp pls,
  (assignRoles wp spi i arr h rp pls).1.1
  = updateAll (imap (λ j pref, (pref, assignRole wp spi (i + j))) arr) h.
Proof.
  induction arr as [|pref arr IH]; intros i h rp pls; simpl; [done|].
  rewrite Nat.add_0_r.
  assert (E : imap ((λ j pref0, (pref0, assignRole wp spi (i + j))) ∘ S) arr
            = imap (λ j pref0, (pref0, assignRole wp spi (S i + j))) arr).
  { apply imap_ext. intros j x _. simpl. do 2 f_equal. lia. }
  rewrite E. destruct (h !! pref); by rewrite IH.
Qed.

Lemma imap_fst_refs {B} (g : nat → B) (arr : list ref) :
  (imap (λ j pref, (pref, g j)) arr).*1 = arr.
Proof.
  revert g. induction arr as [|pref arr IH]; intros g; simpl; [done|].
  f_equal. apply (IH (g ∘ S)).
Qed.

Lemma fmap_fst_refs {B} (g : B) (arr : list ref) :
  ((λ pref, (pref, g)) <$> arr).*1 = arr.
Proof. induction arr as [|pref arr IH]; simpl; [done|]. by f_equal. Qed.

Lemma assignRole_grows wp spi j p : grows p (assignRole wp spi j p).
Proof. unfold assignRole, grows. case_decide; simpl; split_and!; done. Qed.

Lemma assignRoles_cons wp spi i pref rest h rp pls :
  assignRoles wp spi i (pref :: rest) h rp pls
  = match h !! pref with
    | None => assignRoles wp spi (S i) rest h rp pls
    | Some p =>
        assignRoles wp spi (S i) rest
          (<[pref := assignRole wp spi i p]> h)
          (JsMap.set (Player.id p) pref rp)
          (<[Player.id p := pref]> pls)
    end.
Proof.
  cbn [assignRoles]. destruct (h !! pref) as [p|]; [|done]. cbv zeta.
  assert (Player.id (assignRole wp spi i p) = Player.id p) as ->
    by apply assignRole_grows.
  done.
Qed.

Lemma resetPlayer_grows p : grows p (resetPlayer p).
Proof. unfold resetPlayer, grows. simpl. split_and!; done. Qed.

Lemma updateScore_grows sc p : grows p (updateScore sc p).
Proof.
  unfold updateScore, grows.
  destruct (truthy sc && _); [simpl; split_and!; (done || lia)|].
  destruct (negb (truthy sc) && _); simpl; split_and!; (done || lia).
Qed.

Lemma updateScore_sameRole sc p : sameRole p (updateScore sc p).
Proof.
  unfold updateScore, sameRole.
  destruct (truthy sc && _); [done|]. by destruct (negb (truthy sc) && _).
Qed.

Lemma set_isReady_grows b p : grows p (Player.set_isReady b p).
Proof. unfold grows. simpl. split_and!; done. Qed.

Lemma assignRoles_players wp spi arr : ∀ i h rp pls,
  (∀ pref p, pref ∈ arr → h !! pref = Some p →
             JsMap.get (Player.id p) rp = Some pref) →
  (assignRoles wp spi i arr h rp pls).1.2 = rp.
Proof.
  induction arr as [|pref arr IH]; intros i h rp pls Hin; [done|].
  rewrite assignRoles_cons.
  destruct (h !! pref) as [p|] eqn:Hp.
  - rewrite (set_present _ _ rp) by (apply Hin; [by left|done]).
    apply IH. intros pref' p' Hpref' Hp'.
    destruct (decide (pref' = pref)) as [->|Hne].
    + rewrite list_lookup_insert_eq in Hp' by (by eapply lookup_lt_Some).
      simplify_eq.
      replace (Player.id (assignRole wp spi i p)) with (Player.id p)
        by (symmetry; apply assignRole_grows).
      apply Hin; [by left|done].
    + rewrite list_lookup_insert_ne in Hp' by done.
      apply Hin; [by right|done].
  - apply IH. intros pref' p' Hpref' Hp'. apply Hin; [by right|done].
Qed.

Lemma assignRoles_index wp spi arr : ∀ i h rp pls sid pref,
  (assignRoles wp spi i arr h rp pls).2 !! sid = Some pref →
  pls !! sid = Some pref
  ∨ (pref ∈ arr ∧ ∃ p, h !! pref = Some p ∧ Player.id p = sid).
Proof.
  induction arr as [|pref0 arr IH]; intros i h rp pls sid pref.
  { by left. }
  rewrite assignRoles_cons.
  destruct (h !! pref0) as [p0|] eqn:Hp0.
  - intros [H|(Hin & p & Hp & Hid)]%IH.
    + destruct (decide (Player.id p0 = sid)) as [<-|Hne].
      * rewrite lookup_insert_eq in H. simplify_eq. right.
        split; [by left|]. eauto.
      * rewrite lookup_insert_ne in H by done. by left.
    + right. split; [by right|].
      destruct (decide (pref = pref0)) as [->|Hne].
      * rewrite list_lookup_insert_eq in Hp by (by eapply lookup_lt_Some).
        simplify_eq. exists p0. split; [done|].
        symmetry. apply assignRole_grows.
      * rewrite list_lookup_insert_ne in Hp by done. eauto.
  - intros [H|(Hin & p & Hp & Hid)]%IH; [by left|].
    right. split; [by right|]. eauto.
Qed.

(** No handler removes a player object from the heap, changes its id, name
    or room, or lowers its score. *)
Lemma step_heap_grows st i : heap_rel grows (heap st) (heap (step st i)).
Proof.
  pose proof grows_refl as Hrefl. pose proof grows_trans as Htrans.
  unfold step. destruct i as [sid playerName roomCode|sid roomCode playerName
    |sid rnd1 rnd2|sid|sid target|sid|sid target|sid|sid]; simpl.
  - by apply heap_rel_app.
  - unfold joinRoom. destruct (rooms st !! roomCode) as [room|];
      [|by apply heap_rel_refl].
    repeat case_decide; simpl;
      [by apply heap_rel_refl..|by apply heap_rel_app].
  - unfold startGame.
    destruct (getPlayer st sid) as [[pref player]|]; [|by apply heap_rel_refl].
    destruct (rooms st !! Player.room player) as [room|];
      [|by apply heap_rel_refl].
    case_decide; [by apply heap_rel_refl|].
    destruct (WORD_PAIRS !! _) as [wp|]; [|by apply heap_rel_refl].
    match goal with
    | |- context [assignRoles ?a ?b ?c ?d ?e ?f ?g] =>
        pose proof (assignRoles_heap a b d c e f g) as Hh;
        destruct (assignRoles a b c d e f g) as [[h rp] pls]
    end.
    simpl in *. subst h. apply updateAll_rel; [done..|].
    intros pref' f (j & y & [= -> ->] & _)%elem_of_lookup_imap p.
    apply assignRole_grows.
  - unfold playerReady.
    destruct (getPlayer st sid) as [[pref player]|] eqn:Hgp;
      [|by apply heap_rel_refl].
    destruct (rooms st !! Player.room player) as [room|];
      [|by apply heap_rel_refl].
    unfold getPlayer in Hgp.
    destruct (players st !! sid) as [pref'|]; [simpl in Hgp|done].
    destruct (heap st !! pref') as [p|] eqn:Hp; [simpl in Hgp|done].
    simplify_eq.
    case_match; simpl; (eapply heap_rel_insert; [done..|]);
      apply set_isReady_grows.
  - unfold submitVote.
    destruct (getPlayer st sid) as [[pref player]|]; [|by apply heap_rel_refl].
    destruct (rooms st !! Player.room player) as [room|];
      [|by apply heap_rel_refl].
    repeat case_decide; simpl; try by apply heap_rel_refl.
    rewrite forEachPlayer_updateAll. apply updateAll_rel; [done..|].
    intros pref' f (x & [= -> ->] & _)%list_elem_of_fmap p.
    apply updateScore_grows.
  - unfold nextRound.
    destruct (getPlayer st sid) as [[pref player]|]; [|by apply heap_rel_refl].
    destruct (rooms st !! Player.room player) as [room|];
      [|by apply heap_rel_refl].
    case_decide; simpl; [by apply heap_rel_refl|].
    rewrite forEachPlayer_updateAll. apply updateAll_rel; [done..|].
    intros pref' f (x & [= -> ->] & _)%list_elem_of_fmap p.
    apply resetPlayer_grows.
  - unfold revealRole.
    destruct (getPlayer st sid) as [[pref player]|]; [|by apply heap_rel_refl].
    destruct (rooms st !! Player.room player) as [room|];
      [|by apply heap_rel_refl].
    case_decide; simpl; by apply heap_rel_refl.
  - unfold leaveRoom.
    destruct (getPlayer st sid) as [[pref player]|]; [|by apply heap_rel_refl].
    destruct (rooms st !! Player.room player) as [room|];
      [|by apply heap_rel_refl].
    case_decide; simpl; by apply heap_rel_refl.
  - unfold disconnect.
    destruct (getPlayer st sid) as [[pref player]|]; [|by apply heap_rel_refl].
    destruct (rooms st !! Player.room player) as [room|];
      [|by apply heap_rel_refl].
    case_decide; simpl; by apply heap_rel_refl.
Qed.

(** ** Well-formedness is preserved by every handler *)

Lemma getPlayer_Some st sid pref p :
  getPlayer st sid = Some (pref, p)
  ↔ players st !! sid = Some pref ∧ heap st !! pref = Some p.
Proof.
  unfold getPlayer. split.
  - destruct (players st !! sid) as [pref'|]; [simpl|done].
    destruct (heap st !! pref') as [p'|] eqn:E; [simpl|done].
    intros [= -> ->]. done.
  - intros [-> Hp]. simpl. by rewrite Hp.
Qed.

Lemma room_wf_mono h h' c r :
  room_wf h c r → heap_rel grows h h' → room_wf h' c r.
Proof.
  intros (Hcode & Hne & Hnd & Hel) Hle. split_and!; try done.
  intros k pref Hin. destruct (Hel k pref Hin) as (p & Hp & Hid & Hroom).
  destruct (Hle pref p Hp) as (p' & Hp' & Hid' & _ & Hroom' & _).
  exists p'. split_and!; [done|by rewrite Hid'|by rewrite Hroom'].
Qed.

Lemma index_wf_mono (pls : gmap string ref) (h h' : list Player.t) :
  (∀ sid pref, pls !! sid = Some pref →
     ∃ p, h !! pref = Some p ∧ Player.id p = sid) →
  heap_rel grows h h' →
  ∀ sid pref, pls !! sid = Some pref →
    ∃ p, h' !! pref = Some p ∧ Player.id p = sid.
Proof.
  intros Hidx Hle sid pref H. destruct (Hidx sid pref H) as (p & Hp & Hid).
  destruct (Hle pref p Hp) as (p' & Hp' & Hid' & _).
  exists p'. split; [done|by rewrite Hid'].
Qed.

Lemma wf_update st c room' pls' h' :
  wf st → heap_rel grows (heap st) h' →
  (∀ sid pref, pls' !! sid = Some pref →
     ∃ p, h' !! pref = Some p ∧ Player.id p = sid) →
  room_wf h' c room' →
  wf (mkState (<[c := room']> (rooms st)) pls' h').
Proof.
  intros [Hidx Hrooms] Hle Hidx' Hroom'. split; [done|]. simpl.
  intros c0 r0. destruct (decide (c0 = c)) as [->|Hne].
  - rewrite lookup_insert_eq. by intros [= <-].
  - rewrite lookup_insert_ne by done. intros H0.
    eapply room_wf_mono; [by apply Hrooms|done].
Qed.

Lemma wf_delete st c sid :
  wf st → wf (mkState (delete c (rooms st)) (delete sid (players st)) (heap st)).
Proof.
  intros [Hidx Hrooms]. split; simpl.
  - intros sid' pref H. apply lookup_delete_Some in H as [_ H]. eauto.
  - intros c0 r0 H. apply lookup_delete_Some in H as [_ H]. eauto.
Qed.

Lemma index_delete (pls : gmap string ref) (h : list Player.t) sid :
  (∀ sid' pref, pls !! sid' = Some pref →
     ∃ p, h !! pref = Some p ∧ Player.id p = sid') →
  ∀ sid' pref, delete sid pls !! sid' = Some pref →
    ∃ p, h !! pref = Some p ∧ Player.id p = sid'.
Proof. intros Hidx sid' pref H. apply lookup_delete_Some in H as [_ H]. eauto. Qed.

Lemma index_insert_new (pls : gmap string ref) (h : list Player.t) p sid :
  Player.id p = sid →
  (∀ sid' pref, pls !! sid' = Some pref →
     ∃ p', h !! pref = Some p' ∧ Player.id p' = sid') →
  ∀ sid' pref, <[sid := length h]> pls !! sid' = Some pref →
    ∃ p', (h ++ [p]) !! pref = Some p' ∧ Player.id p' = sid'.
Proof.
  intros Hid Hidx sid' pref. destruct (decide (sid' = sid)) as [->|Hne].
  - rewrite lookup_insert_eq. intros [= <-]. exists p.
    rewrite lookup_app_r by lia. by rewrite Nat.sub_diag.
  - rewrite lookup_insert_ne by done. intros H.
    destruct (Hidx sid' pref H) as (p' & Hp' & Hid'). exists p'.
    split; [|done]. rewrite lookup_app_l; [done|]. by eapply lookup_lt_Some.
Qed.

Lemma set_not_nil {V} k (v : V) m : JsMap.set k v m ≠ [].
Proof. destruct m as [|[k' v'] m]; simpl; [done|]. by case_decide. Qed.

Lemma room_wf_set h c r sid pref p :
  room_wf h c r → h !! pref = Some p → Player.id p = sid → Player.room p = c →
  room_wf h c (Room.set_players (JsMap.set sid pref (Room.players r)) r).
Proof.
  intros (Hcode & Hne & Hnd & Hel) Hp Hid Hroom. split_and!; simpl.
  - done.
  - apply set_not_nil.
  - by apply NoDup_keys_set.
  - intros k pref' [[= -> ->]|Hin]%elem_of_set; [eauto|by apply Hel].
Qed.

Lemma room_wf_fields h c r r' :
  room_wf h c r → Room.code r' = Room.code r →
  Room.players r' = Room.players r → room_wf h c r'.
Proof.
  intros (Hcode & Hne & Hnd & Hel) Ec Ep. unfold room_wf.
  rewrite Ec, Ep. done.
Qed.

Lemma room_get_wf h c r k pref :
  room_wf h c r → JsMap.get k (Room.players r) = Some pref →
  ∃ p, h !! pref = Some p ∧ Player.id p = k ∧ Player.room p = c.
Proof. intros (_ & _ & _ & Hel) H. by apply Hel, get_Some_elem. Qed.

Lemma room_values_wf h c r pref :
  room_wf h c r → pref ∈ JsMap.values (Room.players r) →
  ∃ p, h !! pref = Some p ∧ Player.room p = c
       ∧ JsMap.get (Player.id p) (Room.players r) = Some pref.
Proof.
  intros (_ & _ & Hnd & Hel) ([k pref'] & -> & Hin)%list_elem_of_fmap.
  simpl. destruct (Hel k pref' Hin) as (p & Hp & Hid & Hroom).
  exists p. split_and!; [done..|]. rewrite Hid. by apply elem_get_Some.
Qed.

(** In a well-formed room distinct keys hold distinct objects. *)
Lemma room_values_NoDup h c r :
  room_wf h c r → NoDup (JsMap.values (Room.players r)).
Proof.
  intros (_ & _ & Hnd & Hel). unfold JsMap.values, JsMap.keys in *.
  revert Hnd Hel. induction (Room.players r) as [|[k pref] ps IH]; simpl.
  { constructor. }
  rewrite NoDup_cons. intros [Hk Hnd] Hel. constructor.
  - intros ([k' pref'] & Heq & Hin)%list_elem_of_fmap. simpl in Heq. subst.
    destruct (Hel k pref') as (p & Hp & Hid & _); [by left|].
    destruct (Hel k' pref') as (p' & Hp' & Hid' & _); [by right|].
    apply Hk. apply list_elem_of_fmap. exists (k', pref'). split; [|done].
    simpl. congruence.
  - apply IH; [done|]. intros k' pref' Hin. apply Hel. by right.
Qed.

(** ** Random draws *)

Lemma random_index_range rnd n :
  unit_interval rnd → 0 < n →
  (0 ≤ random_index rnd n < Z.of_nat n)%Z.
Proof.
  intros [H0 H1] Hn. unfold random_index.
  assert (Hpos : (0 < inject_Z (Z.of_nat n))%Q).
  { change (inject_Z 0 < inject_Z (Z.of_nat n))%Q. rewrite <- Zlt_Qlt. lia. }
  split.
  - rewrite <- (Qfloor_Z 0). apply Qfloor_resp_le.
    apply Qmult_le_0_compat; [done|]. by apply Qlt_le_weak.
  - rewrite Zlt_Qlt. eapply Qle_lt_trans; [apply Qfloor_le|].
    eapply Qlt_le_trans; [apply Qmult_lt_compat_r; [done|exact H1]|].
    rewrite Qmult_1_l. apply Qle_refl.
Qed.

Lemma wordPair_drawn rnd :
  unit_interval rnd →
  ∃ wp, WORD_PAIRS !! Z.to_nat (random_index rnd (length WORD_PAIRS)) = Some wp.
Proof.
  intros Hrnd. apply lookup_lt_is_Some.
  pose proof (random_index_range rnd (length WORD_PAIRS) Hrnd) as H.
  simpl in *. lia.
Qed.

(** ** The handlers after their guards *)

Lemma startGame_run st sid rnd1 rnd2 pref player room wp :
  getPlayer st sid = Some (pref, player) →
  rooms st !! Player.room player = Some room →
  Room.hostId room = sid →
  WORD_PAIRS !! Z.to_nat (random_index rnd2 (length WORD_PAIRS)) = Some wp →
  let res :=
    assignRoles wp
      (random_index rnd1 (length (JsMap.values (Room.players room)))) 0
      (JsMap.values (Room.players room)) (heap st) (Room.players room)
      (players st) in
  (startGame st sid rnd1 rnd2).1
  = mkState
      (<[Player.room player :=
           Room.set_players res.1.2
             (Room.set_gameState assigning
                (Room.set_wordPair (Some wp) room))]> (rooms st))
      res.2 res.1.1.
Proof.
  intros Hgp Hroom Hhost Hwp res. unfold startGame.
  rewrite Hgp, Hroom. rewrite decide_False by (intros H; by apply H).
  rewrite Hwp. simpl. fold res. by destruct res as [[h rp] pls].
Qed.

Lemma playerReady_run st sid pref player room :
  getPlayer st sid = Some (pref, player) →
  rooms st !! Player.room player = Some room →
  let h := <[pref := Player.set_isReady true player]> (heap st) in
  let room1 :=
    Room.set_players (JsMap.set sid pref (Room.players room)) room in
  (playerReady st sid).1
  = mkState
      (<[Player.room player :=
           if forallb Player.isReady (members h room1)
           then Room.set_votes [] (Room.set_gameState discussion room1)
           else room1]> (rooms st))
      (players st) h.
Proof.
  intros Hgp Hroom h room1. unfold playerReady. rewrite Hgp, Hroom.
  fold h. fold room1. by destruct (forallb Player.isReady (members h room1)).
Qed.

Lemma submitVote_run st sid target pref player room :
  getPlayer st sid = Some (pref, player) →
  rooms st !! Player.room player = Some room →
  Room.gameState room = discussion →
  let room1 :=
    Room.set_votes (JsMap.set sid target (Room.votes room)) room in
  (submitVote st sid target).1
  = if decide (JsMap.size (Room.votes room1) = JsMap.size (Room.players room1))
    then
      mkState
        (<[Player.room player :=
             (calculateResults (heap st)
                (Room.set_gameState results room1)).2]> (rooms st))
        (players st)
        (calculateResults (heap st) (Room.set_gameState results room1)).1
    else
      mkState (<[Player.room player := room1]> (rooms st)) (players st)
        (heap st).
Proof.
  intros Hgp Hroom Hphase room1. unfold submitVote. rewrite Hgp, Hroom.
  rewrite decide_False by (intros H; by apply H). fold room1.
  by case_decide.
Qed.

Lemma nextRound_run st sid pref player room :
  getPlayer st sid = Some (pref, player) →
  rooms st !! Player.room player = Some room →
  Room.hostId room = sid →
  (nextRound st sid).1
  = mkState
      (<[Player.room player :=
           Room.set_votes []
             (Room.set_revealedPlayers []
                (Room.set_gameState lobby
                   (Room.set_round (Room.round room + 1) room)))]>
         (rooms st))
      (players st)
      (forEachPlayer resetPlayer (JsMap.values (Room.players room)) (heap st)).
Proof.
  intros Hgp Hroom Hhost. unfold nextRound. rewrite Hgp, Hroom.
  by rewrite decide_False by (intros H; by apply H).
Qed.

Lemma revealRole_run st sid target pref player room :
  getPlayer st sid = Some (pref, player) →
  rooms st !! Player.room player = Some room →
  Room.hostId room = sid →
  (revealRole st sid target).1
  = mkState
      (<[Player.room player :=
           Room.set_revealedPlayers
             (JsSet.add target (Room.revealedPlayers room)) room]>
         (rooms st))
      (players st) (heap st).
Proof.
  intros Hgp Hroom Hhost. unfold revealRole. rewrite Hgp, Hroom.
  by rewrite decide_False by (intros H; by apply H).
Qed.

Lemma leaveRoom_run st sid pref player room :
  getPlayer st sid = Some (pref, player) →
  rooms st !! Player.room player = Some room →
  let rest := JsMap.delete sid (Room.players room) in
  (leaveRoom st sid).1
  = if decide (JsMap.size rest = 0)
    then mkState (delete (Player.room player) (rooms st))
           (delete sid (players st)) (heap st)
    else
      mkState
        (<[Player.room player :=
             if decide (Room.hostId room = sid)
             then Room.set_hostId (firstKey rest (Room.hostId room))
                    (Room.set_players rest room)
             else Room.set_players rest room]> (rooms st))
        (delete sid (players st)) (heap st).
Proof.
  intros Hgp Hroom rest. unfold leaveRoom. rewrite Hgp, Hroom. simpl.
  fold rest. by case_decide.
Qed.

(** What a handler does when one of its guards fails. *)
Lemma guarded_handlers_skip st sid :
  (getPlayer st sid = None
   ∨ ∃ pref player, getPlayer st sid = Some (pref, player)
       ∧ rooms st !! Player.room player = None) →
  (∀ rnd1 rnd2, startGame st sid rnd1 rnd2 = (st, []))
  ∧ playerReady st sid = (st, [])
  ∧ (∀ target, submitVote st sid target = (st, []))
  ∧ nextRound st sid = (st, [])
  ∧ (∀ target, revealRole st sid target = (st, []))
  ∧ leaveRoom st sid = (st, []).
Proof.
  unfold startGame, playerReady, submitVote, nextRound, revealRole, leaveRoom.
  intros [->|(pref & player & -> & ->)]; done.
Qed.

Lemma host_handlers_skip st sid pref player room :
  getPlayer st sid = Some (pref, player) →
  rooms st !! Player.room player = Some room →
  Room.hostId room ≠ sid →
  (∀ rnd1 rnd2, startGame st sid rnd1 rnd2 = (st, []))
  ∧ nextRound st sid = (st, [])
  ∧ (∀ target, revealRole st sid target = (st, [])).
Proof.
  intros Hgp Hroom Hhost. unfold startGame, nextRound, revealRole.
  rewrite Hgp, Hroom.
  destruct (decide (Room.hostId room ≠ sid)); [split_and!; done|done].
Qed.

Lemma submitVote_skip st sid target pref player room :
  getPlayer st sid = Some (pref, player) →
  rooms st !! Player.room player = Some room →
  Room.gameState room ≠ discussion →
  submitVote st sid target = (st, []).
Proof.
  intros Hgp Hroom Hphase. unfold submitVote.
  rewrite Hgp, Hroom. by rewrite decide_True.
Qed.

Lemma startGame_players st c room wp spi i pls :
  wf st → rooms st !! c = Some room →
  (assignRoles wp spi i (JsMap.values (Room.players room)) (heap st)
     (Room.players room) pls).1.2 = Room.players room.
Proof.
  intros [_ Hrooms] Hroom. apply assignRoles_players.
  intros pref p Hin Hp.
  destruct (room_values_wf _ _ _ pref (Hrooms _ _ Hroom) Hin)
    as (p' & Hp' & _ & Hget).
  congruence.
Qed.

(** The case analysis shared by the handlers that look the caller up. *)
Ltac caller_cases st sid :=
  let Hgp := fresh "Hgp" in
  let Hroom := fresh "Hroom" in
  let pref := fresh "pref" in
  let player := fresh "player" in
  let room := fresh "room" in
  destruct (getPlayer st sid) as [[pref player]|] eqn:Hgp;
  [ destruct (rooms st !! Player.room player) as [room|] eqn:Hroom;
    [ | pose proof (guarded_handlers_skip st sid
                      (or_intror (ex_intro _ pref (ex_intro _ player
                         (conj Hgp Hroom))))) as Hskip ]
  | pose proof (guarded_handlers_skip st sid (or_introl Hgp)) as Hskip ].

Ltac skip_with Hskip :=
  destruct Hskip as (Hs1 & Hs2 & Hs3 & Hs4 & Hs5 & Hs6);
  unfold step; simpl;
  rewrite ?Hs1, ?Hs2, ?Hs3, ?Hs4, ?Hs5, ?Hs6,
    <- ?leaveRoom_eq_disconnect, ?Hs6.

Lemma wf_leaveRoom st sid : wf st → wf (leaveRoom st sid).1.
Proof.
  intros Hwf. pose proof Hwf as [Hidx Hrooms].
  caller_cases st sid;
    [|destruct Hskip as (_ & _ & _ & _ & _ & E); by rewrite E..].
  rewrite (leaveRoom_run _ _ _ _ _ Hgp Hroom).
  case_decide as Hsize; [by apply wf_delete|].
  apply wf_update; [done|apply heap_rel_refl, grows_refl
                   |by apply index_delete|].
  destruct (Hrooms _ _ Hroom) as (Hcode & Hne & Hnd & Hel).
  eapply room_wf_fields with
    (r := Room.set_players (JsMap.delete sid (Room.players room)) room);
    [|by case_decide..].
  split_and!; simpl; [done| |by apply NoDup_keys_delete|].
  - by rewrite <- size_0_nil.
  - intros k pref' [Hin _]%elem_of_delete. by apply Hel.
Qed.

Lemma wf_step st i : wf st → wf (step st i).
Proof.
  intros Hwf. pose proof (step_heap_grows st i) as Hle.
  pose proof Hwf as [Hidx Hrooms].
  destruct i as [sid playerName roomCode|sid roomCode playerName
    |sid rnd1 rnd2|sid|sid target|sid|sid target|sid|sid].
  - (* createRoom *)
    unfold step in *. simpl in *. apply wf_update; [done..| |].
    + by apply index_insert_new.
    + split_and!; simpl; [done|done|apply NoDup_singleton|].
      intros k pref [= -> ->]%list_elem_of_singleton.
      exists (Player.mk sid playerName roomCode None None false 0).
      split; [|done]. rewrite lookup_app_r by lia. by rewrite Nat.sub_diag.
  - (* joinRoom *)
    unfold step in *. simpl in *. unfold joinRoom in *.
    destruct (rooms st !! roomCode) as [room|] eqn:Hroom; [|done].
    repeat case_decide; try done. simpl in *.
    apply wf_update; [done..| |].
    + by apply index_insert_new.
    + eapply room_wf_set; [|by rewrite lookup_app_r, Nat.sub_diag by lia|done..].
      eapply room_wf_mono; [by apply Hrooms|done].
  - (* startGame *)
    caller_cases st sid; [|by skip_with Hskip..].
    destruct (decide (Room.hostId room = sid)) as [Hhost|Hhost]; cycle 1.
    { destruct (host_handlers_skip _ _ _ _ _ Hgp Hroom Hhost) as (E & _).
      unfold step. simpl. by rewrite E. }
    destruct (WORD_PAIRS !! Z.to_nat (random_index rnd2 (length WORD_PAIRS)))
      as [wp|] eqn:Hwp; cycle 1.
    { unfold step. simpl. unfold startGame. rewrite Hgp, Hroom.
      rewrite decide_False by (intros H; by apply H). by rewrite Hwp. }
    unfold step in *. simpl in *.
    rewrite (startGame_run _ _ _ _ _ _ _ _ Hgp Hroom Hhost Hwp) in *.
    simpl in *. apply wf_update; [done..| |].
    + intros sid' pref' [H|(Hin & p & Hp & Hid)]%assignRoles_index.
      * exact (index_wf_mono _ _ _ Hidx Hle _ _ H).
      * destruct (Hle _ _ Hp) as (p' & Hp' & Hid' & _).
        exists p'. split; [done|]. by rewrite Hid'.
    + rewrite (startGame_players st (Player.room player)) by done.
      eapply room_wf_fields with (r := room); [|done..].
      eapply room_wf_mono; [by apply Hrooms|done].
  - (* playerReady *)
    caller_cases st sid; [|by skip_with Hskip..].
    unfold step in *. simpl in *.
    rewrite (playerReady_run _ _ _ _ _ Hgp Hroom) in *. simpl in *.
    apply getPlayer_Some in Hgp as [Hsid Hp].
    destruct (Hidx _ _ Hsid) as (p & Hp0 & Hid).
    assert (p = player) as -> by congruence.
    assert (Hp' : <[pref := Player.set_isReady true player]> (heap st) !! pref
                  = Some (Player.set_isReady true player)).
    { apply list_lookup_insert_eq. by eapply lookup_lt_Some. }
    apply wf_update; [done..| |].
    + exact (index_wf_mono _ _ _ Hidx Hle).
    + eapply room_wf_fields with
        (r := Room.set_players (JsMap.set sid pref (Room.players room)) room).
      * eapply room_wf_set; [|done..].
        eapply room_wf_mono; [by apply Hrooms|done].
      * by case_match.
      * by case_match.
  - (* submitVote *)
    caller_cases st sid; [|by skip_with Hskip..].
    destruct (decide (Room.gameState room = discussion)) as [Hphase|Hphase];
      cycle 1.
    { unfold step. simpl.
      by rewrite (submitVote_skip _ _ _ _ _ _ Hgp Hroom Hphase). }
    unfold step in *. simpl in *.
    rewrite (submitVote_run _ _ _ _ _ _ Hgp Hroom Hphase) in *.
    case_decide; simpl in *.
    + apply wf_update; [done..| |].
      * exact (index_wf_mono _ _ _ Hidx Hle).
      * eapply room_wf_fields with (r := room); [|done..].
        eapply room_wf_mono; [by apply Hrooms|done].
    + apply wf_update; [done..| |].
      * exact (index_wf_mono _ _ _ Hidx Hle).
      * eapply room_wf_fields with (r := room); [by apply Hrooms|done..].
  - (* nextRound *)
    caller_cases st sid; [|by skip_with Hskip..].
    destruct (decide (Room.hostId room = sid)) as [Hhost|Hhost]; cycle 1.
    { destruct (host_handlers_skip _ _ _ _ _ Hgp Hroom Hhost) as (_ & E & _).
      unfold step. simpl. by rewrite E. }
    unfold step in *. simpl in *.
    rewrite (nextRound_run _ _ _ _ _ Hgp Hroom Hhost) in *. simpl in *.
    apply wf_update; [done..| |].
    + exact (index_wf_mono _ _ _ Hidx Hle).
    + eapply room_wf_fields with (r := room); [|done..].
      eapply room_wf_mono; [by apply Hrooms|done].
  - (* revealRole *)
    caller_cases st sid; [|by skip_with Hskip..].
    destruct (decide (Room.hostId room = sid)) as [Hhost|Hhost]; cycle 1.
    { destruct (host_handlers_skip _ _ _ _ _ Hgp Hroom Hhost) as (_ & _ & E).
      unfold step. simpl. by rewrite E. }
    unfold step in *. simpl in *.
    rewrite (revealRole_run _ _ _ _ _ _ Hgp Hroom Hhost) in *. simpl in *.
    apply wf_update; [done..| |].
    + exact (index_wf_mono _ _ _ Hidx Hle).
    + eapply room_wf_fields with (r := room); [by apply Hrooms|done..].
  - (* leaveRoom *)
    by apply wf_leaveRoom.
  - (* disconnect *)
    unfold step. simpl. rewrite <- leaveRoom_eq_disconnect.
    by apply wf_leaveRoom.
Qed.

Lemma wf_initial : wf initial.
Proof. split; intros ? ? H; simpl in H; by rewrite lookup_empty in H. Qed.

Lemma reachable_wf st : reachable st → wf st.
Proof.
  induction 1 as [|st i _ IH _]; [apply wf_initial|by apply wf_step].
Qed.

Lemma reachable_fresh_reachable st : reachable_fresh st → reachable st.
Proof. induction 1; by constructor. Qed.

(** ** Members of a room across a heap change *)

Lemma member_Some h r k p :
  member h r k = Some p
  ↔ ∃ pref, JsMap.get k (Room.players r) = Some pref ∧ h !! pref = Some p.
Proof.
  unfold member. destruct (JsMap.get k (Room.players r)) as [pref|]; simpl.
  - split; [eauto|]. by intros (pref' & [= <-] & H).
  - split; [done|]. by intros (pref' & ? & _).
Qed.

Lemma heap_frame_app c (h tl : list Player.t) : heap_frame c h (h ++ tl).
Proof.
  intros pref p H _. rewrite lookup_app_l; [done|]. by eapply lookup_lt_Some.
Qed.

Lemma heap_frame_refl c (h : list Player.t) : heap_frame c h h.
Proof. by intros pref p H _. Qed.

Lemma heap_frame_insert c (h : list Player.t) pref p p' :
  h !! pref = Some p → Player.room p = c →
  heap_frame c h (<[pref := p']> h).
Proof.
  intros Hp Hroom pref0 p0 H0 Hne. rewrite list_lookup_insert_ne; [done|].
  intros ->. congruence.
Qed.

Lemma room_loop_frame h c r fs :
  room_wf h c r → fs.*1 = JsMap.values (Room.players r) →
  heap_frame c h (updateAll fs h).
Proof.
  intros Hwf Hfs pref p Hp Hne. rewrite updateAll_notin; [done|].
  rewrite Hfs. intros Hin.
  destruct (room_values_wf _ _ _ _ Hwf Hin) as (p' & Hp' & Hroom & _).
  congruence.
Qed.

Lemma room_loop_lookup h c r fs pref f :
  room_wf h c r → fs.*1 = JsMap.values (Room.players r) →
  (pref, f) ∈ fs → updateAll fs h !! pref = f <$> h !! pref.
Proof.
  intros Hwf Hfs Hin. apply updateAll_in; [|done].
  rewrite Hfs. by eapply room_values_NoDup.
Qed.

Lemma member_frame h h' c r c' k :
  room_wf h c' r → c' ≠ c → heap_frame c h h' →
  member h' r k = member h r k.
Proof.
  intros Hwf Hne Hfr. unfold member.
  destruct (JsMap.get k (Room.players r)) as [pref|] eqn:Hget; [simpl|done].
  destruct (room_get_wf _ _ _ _ _ Hwf Hget) as (p & Hp & _ & Hroom).
  rewrite Hp. apply (Hfr _ _ Hp). congruence.
Qed.

Lemma member_forEach h c r r' f k :
  room_wf h c r → Room.players r' = Room.players r →
  member (forEachPlayer f (JsMap.values (Room.players r)) h) r' k
  = f <$> member h r k.
Proof.
  intros Hwf Hps. unfold member. rewrite Hps.
  destruct (JsMap.get k (Room.players r)) as [pref|] eqn:Hget; [simpl|done].
  rewrite forEachPlayer_updateAll.
  eapply room_loop_lookup; [done|apply fmap_fst_refs|].
  apply list_elem_of_fmap. exists pref. split; [done|].
  apply list_elem_of_fmap. exists (k, pref). split; [done|].
  by apply get_Some_elem.
Qed.

(** The position of a key in a map with distinct keys. *)
Lemma keys_position {V} (m : JsMap.t V) j1 j2 k v1 v2 :
  NoDup (JsMap.keys m) → m !! j1 = Some (k, v1) → m !! j2 = Some (k, v2) →
  j1 = j2.
Proof.
  intros Hnd H1 H2. eapply NoDup_lookup; [exact Hnd|..];
    unfold JsMap.keys; rewrite list_lookup_fmap.
  - by rewrite H1.
  - by rewrite H2.
Qed.

Lemma assignRole_fields wp spi j p :
  Player.role (assignRole wp spi j p)
  = Some (if decide (Z.of_nat j = spi) then shadow else signal)
  ∧ Player.word (assignRole wp spi j p)
    = Some (if decide (Z.of_nat j = spi) then wp_shadow wp else wp_signal wp)
  ∧ Player.isReady (assignRole wp spi j p) = false
  ∧ Player.score (assignRole wp spi j p) = Player.score p.
Proof. unfold assignRole. by case_decide. Qed.

(** After the loop of [startGame] the member at position [j] is the old one
    with the role and word of that position, not ready. *)
Lemma startGame_member st c room wp spi j k pref :
  wf st → rooms st !! c = Some room →
  Room.players room !! j = Some (k, pref) →
  ∃ p, heap st !! pref = Some p
    ∧ updateAll
        (imap (λ j pref, (pref, assignRole wp spi (0 + j)))
           (JsMap.values (Room.players room))) (heap st) !! pref
      = Some (assignRole wp spi j p).
Proof.
  intros [_ Hrooms] Hroom Hj. pose proof (Hrooms _ _ Hroom) as Hwf.
  destruct Hwf as (_ & _ & _ & Hel).
  destruct (Hel k pref) as (p & Hp & _); [by eapply list_elem_of_lookup_2|].
  exists p. split; [done|].
  erewrite room_loop_lookup; [by rewrite Hp|by apply Hrooms
                              |apply imap_fst_refs|].
  apply elem_of_lookup_imap. exists j, pref. split; [done|].
  unfold JsMap.values. rewrite list_lookup_fmap. by rewrite Hj.
Qed.

(** ** Invariants of the runs without a code collision *)

Lemma roles_ok_noRoles h r : noRoles h r → roles_ok h r.
Proof.
  intros Hno. split; [|done]. intros k1 k2 p1 p2 H1 _ Hs1 _.
  apply Hno in H1. congruence.
Qed.

Lemma roles_ok_sub h h' r r' :
  (∀ k p', member h' r' k = Some p' →
     ∃ p, member h r k = Some p ∧ Player.role p' = Player.role p) →
  (Room.gameState r' = lobby → Room.gameState r = lobby) →
  roles_ok h r → roles_ok h' r'.
Proof.
  intros Hsub Hphase [Hone Hlobby]. split.
  - intros k1 k2 p1 p2 H1 H2 Hs1 Hs2.
    apply Hsub in H1 as (q1 & Hq1 & E1). apply Hsub in H2 as (q2 & Hq2 & E2).
    apply (Hone k1 k2 q1 q2); congruence.
  - intros Hl k p Hm. apply Hsub in Hm as (q & Hq & E).
    rewrite E. eapply Hlobby; eauto.
Qed.

Lemma member_sameRole h h' c r r' k p' :
  room_wf h c r → Room.players r' = Room.players r →
  heap_rel sameRole h h' →
  member h' r' k = Some p' →
  ∃ p, member h r k = Some p ∧ Player.role p' = Player.role p.
Proof.
  intros Hwf Hps Hrel (pref & Hget & Hp')%member_Some.
  rewrite Hps in Hget.
  destruct (room_get_wf _ _ _ _ _ Hwf Hget) as (p & Hp & _).
  destruct (Hrel _ _ Hp) as (q & Hq & Hrole & _).
  exists p. split; [apply member_Some; eauto|congruence].
Qed.

Lemma room_ok_frame h h' c c0 r0 :
  room_wf h c0 r0 → c0 ≠ c → heap_frame c h h' →
  room_ok h r0 → room_ok h' r0.
Proof.
  intros Hwf Hne Hfr [Hcap Hroles]. split; [done|].
  eapply roles_ok_sub; [|done|exact Hroles].
  intros k p'. rewrite (member_frame h h' c r0 c0 k) by done. eauto.
Qed.

Lemma rooms_ok_update st c room' h' :
  wf st →
  (∀ c0 r0, rooms st !! c0 = Some r0 → room_ok (heap st) r0) →
  heap_frame c (heap st) h' →
  room_ok h' room' →
  ∀ c0 r0, <[c := room']> (rooms st) !! c0 = Some r0 → room_ok h' r0.
Proof.
  intros [_ Hrooms] Hok Hfr Hroom' c0 r0.
  destruct (decide (c0 = c)) as [->|Hne].
  - rewrite lookup_insert_eq. by intros [= <-].
  - rewrite lookup_insert_ne by done. intros H0.
    eapply room_ok_frame; [by apply Hrooms|done..|by eapply Hok].
Qed.

Lemma index_ok_update st c room room' pls' h' :
  index_ok st → rooms st !! c = Some room →
  Room.players room' = Room.players room →
  heap_rel grows (heap st) h' →
  (∀ sid pref, pls' !! sid = Some pref →
     players st !! sid = Some pref
     ∨ ∃ p, heap st !! pref = Some p ∧ Player.room p = c
            ∧ JsMap.get sid (Room.players room) = Some pref) →
  index_ok (mkState (<[c := room']> (rooms st)) pls' h').
Proof.
  intros Hidx Hroom Hps Hle Hpls sid pref H. simpl in *.
  assert (Hold : ∃ p r, heap st !! pref = Some p
                 ∧ rooms st !! Player.room p = Some r
                 ∧ JsMap.get sid (Room.players r) = Some pref).
  { destruct (Hpls _ _ H) as [Hin|(p & Hp & Hc & Hget)]; [by apply Hidx|].
    exists p, room. by rewrite Hc. }
  destruct Hold as (p & r & Hp & Hr & Hget).
  destruct (Hle _ _ Hp) as (p' & Hp' & _ & _ & Hroom' & _).
  rewrite <- Hroom' in Hr.
  destruct (decide (Player.room p' = c)) as [Hc|Hc].
  - exists p', room'. rewrite Hc, lookup_insert_eq. split_and!; [done..|].
    rewrite Hps. rewrite Hc in Hr. congruence.
  - exists p', r. by rewrite lookup_insert_ne.
Qed.

Lemma capacity_ok_fields r r' :
  Room.maxPlayers r' = Room.maxPlayers r →
  JsMap.size (Room.players r') ≤ JsMap.size (Room.players r) →
  capacity_ok r → capacity_ok r'.
Proof. unfold capacity_ok. intros -> Hsize [H6 Hle]. split; [done|lia]. Qed.

Lemma invariant_initial : invariant initial.
Proof.
  split; [apply wf_initial|]. split.
  - intros sid pref H. simpl in H. by rewrite lookup_empty in H.
  - intros c r H. simpl in H. by rewrite lookup_empty in H.
Qed.

Lemma invariant_createRoom st sid playerName roomCode :
  invariant st → rooms st !! roomCode = None →
  invariant (createRoom st sid playerName roomCode).1.
Proof.
  intros (Hwf & Hidx & Hok) Hfresh.
  split; [exact (wf_step st (CreateRoom sid playerName roomCode) Hwf)|].
  simpl. split.
  - intros sid' pref. simpl. destruct (decide (sid' = sid)) as [->|Hne].
    + rewrite lookup_insert_eq. intros [= <-].
      eexists _, _. rewrite lookup_app_r, Nat.sub_diag by lia.
      split; [done|]. simpl. rewrite lookup_insert_eq. split; [done|].
      simpl. by rewrite decide_True.
    + rewrite lookup_insert_ne by done. intros H.
      destruct (Hidx _ _ H) as (p & r & Hp & Hr & Hget). exists p, r.
      split_and!; [|rewrite lookup_insert_ne; [done|]|done].
      * rewrite lookup_app_l; [done|]. by eapply lookup_lt_Some.
      * intros E. rewrite <- E, Hfresh in Hr. done.
  - apply rooms_ok_update; [done..|apply heap_frame_app|]. split.
    + split; simpl; [done|lia].
    + apply roles_ok_noRoles. intros k p (pref & Hget & Hp)%member_Some.
      simpl in Hget. case_decide; [|done]. simplify_eq.
      rewrite lookup_app_r, Nat.sub_diag in Hp by lia. simpl in Hp.
        by simplify_eq.
Qed.

Lemma invariant_joinRoom st sid roomCode playerName :
  invariant st → invariant (joinRoom st sid roomCode playerName).1.
Proof.
  intros (Hwf & Hidx & Hok).
  split; [exact (wf_step st (JoinRoom sid roomCode playerName) Hwf)|].
  destruct (rooms st !! roomCode) as [room|] eqn:Hroom;
    [|by rewrite joinRoom_not_found].
  destruct (decide (Room.maxPlayers room
                    ≤ Z.of_nat (JsMap.size (Room.players room)))%Z).
  { by rewrite (joinRoom_full _ _ _ _ room). }
  destruct (decide (Room.gameState room = lobby)) as [Hphase|Hphase];
    [|by rewrite (joinRoom_in_progress _ _ _ _ room) by (done || lia)].
  rewrite (joinRoom_success _ _ _ _ room) by (done || lia). simpl.
  pose proof Hwf as [_ Hrooms]. pose proof (Hrooms _ _ Hroom) as Hrwf.
  destruct (Hok _ _ Hroom) as [[H6 Hcap] [_ Hlobby]]. split.
  - intros sid' pref. simpl. destruct (decide (sid' = sid)) as [->|Hne].
    + rewrite lookup_insert_eq. intros [= <-].
      eexists _, _. rewrite lookup_app_r, Nat.sub_diag by lia.
      split; [done|]. simpl. rewrite lookup_insert_eq. split; [done|].
      simpl. apply get_set_eq.
    + rewrite lookup_insert_ne by done. intros H.
      destruct (Hidx _ _ H) as (p & r & Hp & Hr & Hget).
      assert (Hp' : (heap st ++ [newPlayer sid playerName roomCode]) !! pref
                    = Some p).
      { rewrite lookup_app_l; [done|]. by eapply lookup_lt_Some. }
      destruct (decide (Player.room p = roomCode)) as [Hc|Hc].
      * eexists p, _. rewrite Hc, lookup_insert_eq. split_and!; [done..|].
        simpl. rewrite get_set_ne by done. congruence.
      * exists p, r. by rewrite lookup_insert_ne.
  - apply rooms_ok_update; [done..|apply heap_frame_app|]. split.
    + split; [done|]. simpl.
      destruct (JsMap.get sid (Room.players room)) eqn:Hget.
      * rewrite size_set_present by (by rewrite Hget). done.
      * rewrite size_set_absent by done. lia.
    + apply roles_ok_noRoles. intros k p (pref & Hget & Hp)%member_Some.
      simpl in Hget. destruct (decide (k = sid)) as [->|Hne].
      * rewrite get_set_eq in Hget. simplify_eq.
        rewrite lookup_app_r, Nat.sub_diag in Hp by lia. simpl in Hp.
        by simplify_eq.
      * rewrite get_set_ne in Hget by done.
        destruct (room_get_wf _ _ _ _ _ Hrwf Hget) as (q & Hq & _).
        rewrite lookup_app_l in Hp by (by eapply lookup_lt_Some).
        apply (Hlobby Hphase k). apply member_Some. eauto.
Qed.

Lemma invariant_startGame st sid rnd1 rnd2 :
  invariant st → invariant (startGame st sid rnd1 rnd2).1.
Proof.
  intros (Hwf & Hidx & Hok).
  split; [exact (wf_step st (StartGame sid rnd1 rnd2) Hwf)|].
  pose proof (step_heap_grows st (StartGame sid rnd1 rnd2)) as Hle.
  unfold step in Hle. simpl in Hle.
  caller_cases st sid;
    [|destruct Hskip as (E & _); by rewrite E in *..].
  destruct (decide (Room.hostId room = sid)) as [Hhost|Hhost]; cycle 1.
  { destruct (host_handlers_skip _ _ _ _ _ Hgp Hroom Hhost) as (E & _).
    by rewrite E. }
  destruct (WORD_PAIRS !! Z.to_nat (random_index rnd2 (length WORD_PAIRS)))
    as [wp|] eqn:Hwp; cycle 1.
  { unfold startGame. rewrite Hgp, Hroom.
    rewrite decide_False by (intros H; by apply H). by rewrite Hwp. }
  rewrite (startGame_run _ _ _ _ _ _ _ _ Hgp Hroom Hhost Hwp) in *.
  simpl in *. pose proof Hwf as [_ Hrooms].
  pose proof (Hrooms _ _ Hroom) as Hrwf.
  rewrite (startGame_players st (Player.room player)) by done.
  rewrite assignRoles_heap in *.
  set (spi := random_index rnd1 (length (JsMap.values (Room.players room)))).
  split.
  - eapply index_ok_update with (room := room); [done..|].
    intros sid' pref' [H|(Hin & p & Hp & Hid)]%assignRoles_index; [by left|].
    right.
    destruct (room_values_wf _ _ _ _ Hrwf Hin) as (p' & Hp' & Hc & Hget).
    exists p. assert (p' = p) as -> by congruence.
    by rewrite <- Hid.
  - apply rooms_ok_update; [done..| |].
    { eapply room_loop_frame; [done|apply imap_fst_refs]. }
    destruct (Hok _ _ Hroom) as [Hcap _]. split; [done|]. split; [|done].
    assert (Hpos : ∀ k p, member (updateAll
                (imap (λ j pref, (pref, assignRole wp spi (0 + j)))
                   (JsMap.values (Room.players room))) (heap st))
                room k = Some p → Player.role p = Some shadow →
              ∃ j pref0, Room.players room !! j = Some (k, pref0)
                         ∧ Z.of_nat j = spi).
    { intros k p (pref0 & Hget & Hp)%member_Some Hs.
      apply get_Some_elem, list_elem_of_lookup in Hget as [j Hj].
      destruct (startGame_member st _ room wp spi j k pref0 Hwf Hroom Hj)
        as (q & Hq & Hq').
      rewrite Hq' in Hp. simplify_eq.
      destruct (assignRole_fields wp spi j q) as (Hr & _).
      rewrite Hr in Hs. exists j, pref0. split; [done|].
      by case_decide. }
    intros k1 k2 p1 p2 H1 H2 Hs1 Hs2. simpl in *.
    destruct (Hpos k1 p1) as (j1 & pref1 & Hj1 & E1); [done..|].
    destruct (Hpos k2 p2) as (j2 & pref2 & Hj2 & E2); [done..|].
    assert (j1 = j2) as -> by lia. congruence.
Qed.

Lemma set_isReady_sameRole b p : sameRole p (Player.set_isReady b p).
Proof. by split. Qed.

Lemma invariant_playerReady st sid :
  invariant st → invariant (playerReady st sid).1.
Proof.
  intros (Hwf & Hidx & Hok).
  split; [exact (wf_step st (PlayerReady sid) Hwf)|].
  pose proof (step_heap_grows st (PlayerReady sid)) as Hle.
  unfold step in Hle. simpl in Hle.
  caller_cases st sid;
    [|destruct Hskip as (_ & E & _); by rewrite E in *..].
  rewrite (playerReady_run _ _ _ _ _ Hgp Hroom) in *. simpl in *.
  pose proof Hwf as [_ Hrooms]. pose proof (Hrooms _ _ Hroom) as Hrwf.
  apply getPlayer_Some in Hgp as [Hsid Hp].
  destruct (Hidx _ _ Hsid) as (p & r & Hp0 & Hr & Hget).
  assert (p = player) as -> by congruence.
  assert (r = room) as -> by congruence.
  rewrite (set_present _ _ _ Hget) in *.
  set (h' := <[pref := Player.set_isReady true player]> (heap st)) in *.
  set (room1 := Room.set_players (Room.players room) room) in *.
  set (room' := if forallb Player.isReady (members h' room1)
                then Room.set_votes [] (Room.set_gameState discussion room1)
                else room1) in *.
  assert (Hps : Room.players room' = Room.players room)
    by (subst room'; by case_match).
  assert (Hmax : Room.maxPlayers room' = Room.maxPlayers room)
    by (subst room'; by case_match).
  assert (Hphase : Room.gameState room' = lobby → Room.gameState room = lobby)
    by (subst room'; by case_match).
  split.
  - eapply index_ok_update with (room := room); [done..|]. by left.
  - apply rooms_ok_update; [done..| |].
    { by eapply heap_frame_insert. }
    destruct (Hok _ _ Hroom) as [Hcap Hroles]. split.
    + eapply capacity_ok_fields; [done| |done]. by rewrite Hps.
    + eapply roles_ok_sub; [|done..]. intros k p'.
      eapply member_sameRole; [done..|].
      eapply heap_rel_insert;
        [apply sameRole_refl|done|apply set_isReady_sameRole].
Qed.

Lemma invariant_submitVote st sid target :
  invariant st → invariant (submitVote st sid target).1.
Proof.
  intros (Hwf & Hidx & Hok).
  split; [exact (wf_step st (SubmitVote sid target) Hwf)|].
  pose proof (step_heap_grows st (SubmitVote sid target)) as Hle.
  unfold step in Hle. simpl in Hle.
  caller_cases st sid;
    [|destruct Hskip as (_ & _ & E & _); by rewrite E in *..].
  destruct (decide (Room.gameState room = discussion)) as [Hphase|Hphase];
    [|by rewrite (submitVote_skip _ _ _ _ _ _ Hgp Hroom Hphase)].
  rewrite (submitVote_run _ _ _ _ _ _ Hgp Hroom Hphase) in *.
  pose proof Hwf as [_ Hrooms]. pose proof (Hrooms _ _ Hroom) as Hrwf.
  destruct (Hok _ _ Hroom) as [Hcap Hroles].
  case_decide; simpl in *.
  - split.
    + eapply index_ok_update with (room := room); [done..|]. by left.
    + apply rooms_ok_update; [done..| |].
      { rewrite forEachPlayer_updateAll.
        eapply room_loop_frame; [done|apply fmap_fst_refs]. }
      split; [done|].
      eapply roles_ok_sub; [|by rewrite Hphase|exact Hroles]. intros k p'.
      eapply member_sameRole; [done..|].
      rewrite forEachPlayer_updateAll.
      apply updateAll_rel; [apply sameRole_refl|apply sameRole_trans|].
      intros pref' f (x & [= -> ->] & _)%list_elem_of_fmap p.
      apply updateScore_sameRole.
  - split.
    + eapply index_ok_update with (room := room); [done..|]. by left.
    + apply rooms_ok_update; [done..|apply heap_frame_refl|].
      split; [done|]. eapply roles_ok_sub; [|done|exact Hroles]. eauto.
Qed.

Lemma invariant_nextRound st sid :
  invariant st → invariant (nextRound st sid).1.
Proof.
  intros (Hwf & Hidx & Hok).
  split; [exact (wf_step st (NextRound sid) Hwf)|].
  pose proof (step_heap_grows st (NextRound sid)) as Hle.
  unfold step in Hle. simpl in Hle.
  caller_cases st sid;
    [|destruct Hskip as (_ & _ & _ & E & _); by rewrite E in *..].
  destruct (decide (Room.hostId room = sid)) as [Hhost|Hhost]; cycle 1.
  { destruct (host_handlers_skip _ _ _ _ _ Hgp Hroom Hhost) as (_ & E & _).
    by rewrite E. }
  rewrite (nextRound_run _ _ _ _ _ Hgp Hroom Hhost) in *. simpl in *.
  pose proof Hwf as [_ Hrooms]. pose proof (Hrooms _ _ Hroom) as Hrwf.
  destruct (Hok _ _ Hroom) as [Hcap Hroles]. split.
  - eapply index_ok_update with (room := room); [done..|]. by left.
  - apply rooms_ok_update; [done..| |].
    { rewrite forEachPlayer_updateAll.
      eapply room_loop_frame; [done|apply fmap_fst_refs]. }
    split; [done|]. apply roles_ok_noRoles. intros k p Hm.
    erewrite member_forEach in Hm by done.
    destruct (member (heap st) room k) as [q|]; simpl in Hm; by simplify_eq.
Qed.

Lemma invariant_revealRole st sid target :
  invariant st → invariant (revealRole st sid target).1.
Proof.
  intros (Hwf & Hidx & Hok).
  split; [exact (wf_step st (RevealRole sid target) Hwf)|].
  caller_cases st sid;
    [|destruct Hskip as (_ & _ & _ & _ & E & _); by rewrite E in *..].
  destruct (decide (Room.hostId room = sid)) as [Hhost|Hhost]; cycle 1.
  { destruct (host_handlers_skip _ _ _ _ _ Hgp Hroom Hhost) as (_ & _ & E).
    by rewrite E. }
  rewrite (revealRole_run _ _ _ _ _ _ Hgp Hroom Hhost) in *. simpl in *.
  destruct (Hok _ _ Hroom) as [Hcap Hroles]. split.
  - eapply index_ok_update with (room := room);
      [done..|apply heap_rel_refl, grows_refl|]. by left.
  - apply rooms_ok_update; [done..|apply heap_frame_refl|].
    split; [done|]. eapply roles_ok_sub; [|done|exact Hroles]. eauto.
Qed.

Lemma invariant_leaveRoom st sid :
  invariant st → invariant (leaveRoom st sid).1.
Proof.
  intros (Hwf & Hidx & Hok).
  split; [exact (wf_step st (LeaveRoom sid) Hwf)|].
  caller_cases st sid;
    [|destruct Hskip as (_ & _ & _ & _ & _ & E); by rewrite E in *..].
  rewrite (leaveRoom_run _ _ _ _ _ Hgp Hroom) in *.
  set (rest := JsMap.delete sid (Room.players room)).
  destruct (Hok _ _ Hroom) as [Hcap Hroles].
  (* the entries of the other callers *)
  assert (Hothers : ∀ sid' pref', delete sid (players st) !! sid' = Some pref' →
            ∃ p r, heap st !! pref' = Some p
              ∧ rooms st !! Player.room p = Some r
              ∧ JsMap.get sid' (Room.players r) = Some pref'
              ∧ (Player.room p = Player.room player →
                 JsMap.get sid' rest = Some pref')).
  { intros sid' pref' [Hne H]%lookup_delete_Some.
    destruct (Hidx _ _ H) as (p & r & Hp & Hr & Hget).
    exists p, r. split_and!; [done..|]. intros E. rewrite E in Hr.
    assert (r = room) as -> by congruence.
    unfold rest. by rewrite get_delete_ne. }
  case_decide as Hsize; simpl.
  - split.
    + intros sid' pref' H. simpl in H.
      destruct (Hothers _ _ H) as (p & r & Hp & Hr & Hget & Hrest).
      exists p, r. simpl. split_and!; [done| |done].
      rewrite lookup_delete_ne; [done|]. intros E.
      apply size_0_nil in Hsize. rewrite Hsize in Hrest.
      by specialize (Hrest (eq_sym E)).
    + intros c r [_ H]%lookup_delete_Some. by eapply Hok.
  - set (room' := if decide (Room.hostId room = sid)
                  then Room.set_hostId (firstKey rest (Room.hostId room))
                         (Room.set_players rest room)
                  else Room.set_players rest room).
    assert (Hps : Room.players room' = rest)
      by (subst room'; by case_decide).
    assert (Hmax : Room.maxPlayers room' = Room.maxPlayers room)
      by (subst room'; by case_decide).
    assert (Hphase : Room.gameState room' = Room.gameState room)
      by (subst room'; by case_decide).
    split.
    + intros sid' pref' H. simpl in H.
      destruct (Hothers _ _ H) as (p & r & Hp & Hr & Hget & Hrest).
      simpl. destruct (decide (Player.room p = Player.room player)) as [E|E].
      * exists p, room'. rewrite E, lookup_insert_eq, Hps. auto.
      * exists p, r. by rewrite lookup_insert_ne.
    + apply rooms_ok_update; [done..|apply heap_frame_refl|]. split.
      * eapply capacity_ok_fields; [done| |done]. rewrite Hps.
        apply size_delete_le.
      * eapply roles_ok_sub; [|by rewrite Hphase|exact Hroles].
        intros k p' (pref' & Hget & Hp')%member_Some. rewrite Hps in Hget.
        exists p'. split; [|done]. apply member_Some. exists pref'.
        split; [|done]. destruct (decide (sid = k)) as [->|Hne].
        -- unfold rest in Hget. by rewrite get_delete_eq in Hget.
        -- unfold rest in Hget. by rewrite get_delete_ne in Hget.
Qed.

Lemma invariant_step st i :
  invariant st → fresh_code st i → invariant (step st i).
Proof.
  intros Hinv Hfresh. unfold step.
  destruct i; simpl in *.
  - by apply invariant_createRoom.
  - by apply invariant_joinRoom.
  - by apply invariant_startGame.
  - by apply invariant_playerReady.
  - by apply invariant_submitVote.
  - by apply invariant_nextRound.
  - by apply invariant_revealRole.
  - by apply invariant_leaveRoom.
  - rewrite <- leaveRoom_eq_disconnect. by apply invariant_leaveRoom.
Qed.

Lemma reachable_fresh_invariant st : reachable_fresh st → invariant st.
Proof.
  induction 1 as [|st i _ IH _ Hfresh];
    [apply invariant_initial|by apply invariant_step].
Qed.

(** ** Runs *)

Lemma reachable_run st inputs :
  reachable st → valid_run inputs → reachable (run st inputs).
Proof.
  revert st. induction inputs as [|i inputs IH]; intros st Hst Hval; [done|].
  destruct Hval as [Hi Hrest]. simpl. apply IH; [|done]. by constructor.
Qed.

Lemma reachable_fresh_run st inputs :
  reachable_fresh st → fresh_run st inputs → reachable_fresh (run st inputs).
Proof.
  revert st. induction inputs as [|i inputs IH]; intros st Hst Hval; [done|].
  destruct Hval as (Hi & Hfresh & Hrest). simpl. apply IH; [|done].
  by constructor.
Qed.

Lemma unit_interval_0 : unit_interval (0 # 1).
Proof. split; [apply Qle_refl|reflexivity]. Qed.

Lemma unit_interval_3_4 : unit_interval (3 # 4).
Proof. split; unfold Qle, Qlt; simpl; lia. Qed.

Lemma lobby3_fresh : reachable_fresh lobby3.
Proof.
  apply reachable_fresh_run; [constructor|]. simpl. by split_and!.
Qed.

Lemma started3_fresh : reachable_fresh started3.
Proof.
  constructor; [apply lobby3_fresh| |done].
  split; [apply unit_interval_0|apply unit_interval_3_4].
Qed.

Lemma discussion3_fresh : reachable_fresh discussion3.
Proof.
  apply reachable_fresh_run; [apply started3_fresh|]. simpl. by split_and!.
Qed.

Lemma results3_fresh : reachable_fresh results3.
Proof.
  apply reachable_fresh_run; [apply discussion3_fresh|]. simpl. by split_and!.
Qed.

Lemma full6_fresh : reachable_fresh full6.
Proof.
  apply reachable_fresh_run; [apply lobby3_fresh|]. simpl. by split_and!.
Qed.

(** ** Further runs *)

(** In a game of four, after the votes of A for B, B for C and C for C the
    count of C is two and that of B is one; the vote of D for B closes the
    round with two votes each, and the tally eliminates B: the first key of
    the vote count, not the first target to hold two votes. *)
Lemma tally_first_key_wins :
  reachable_fresh tied4
  ∧ (Room.gameState <$> rooms tied3 !! "X") = Some discussion
  ∧ (countVotes ∘ Room.votes <$> rooms tied3 !! "X")
    = Some [("B", 1); ("C", 2)]
  ∧ (Room.votes <$> rooms tied4 !! "X")
    = Some [("A", "B"); ("B", "C"); ("C", "C"); ("D", "B")]
  ∧ (rooms tied4 !! "X" ≫= Room.results)
    = Some (mkResults (Some "B") (Some false) [("B", 2); ("C", 2)]).
Proof.
  split; [|vm_compute; done].
  constructor; [|done..].
  apply reachable_fresh_run; [|simpl; by split_and!].
  apply reachable_fresh_run; [apply lobby3_fresh|]. simpl.
  by split_and!.
Qed.

(** A departure that removes the caller from neither structure it should
    leave.  Alice, host of X, has created a second room when her connection
    drops: she is removed from that room only, and X keeps her as a member
    and as its host, with no entry in the global players; [leaveRoom] gives
    the same state.  And after a code collision Zoe's entry names a room
    that has been deleted: her [leaveRoom] returns at the guard and the
    entry stays. *)
Lemma departure_keeps_membership :
  reachable_fresh hostGone
  ∧ run lobby3 [CreateRoom "A" "alice" "Y"; LeaveRoom "A"] = hostGone
  ∧ players hostGone !! "A" = None
  ∧ (JsMap.keys ∘ Room.players <$> rooms hostGone !! "X")
    = Some ["A"; "B"; "C"]
  ∧ (Room.hostId <$> rooms hostGone !! "X") = Some "A"
  ∧ rooms hostGone !! "Y" = None
  ∧ reachable orphaned
  ∧ rooms orphaned !! "X" = None
  ∧ players orphaned !! "Z" = Some 0.
Proof.
  split_and!; try (vm_compute; done).
  - apply reachable_fresh_run; [apply lobby3_fresh|]. simpl. by split_and!.
  - apply reachable_run; [constructor|]. simpl. by split_and!.
Qed.

(** ** Capacity *)

(** Seven members in a room for six: the room X of Zoe is replaced by a room
    with the same code, that room fills up, and Zoe's [playerReady] stores
    her player in it. *)
Lemma capacity_exceeded_after_collision :
  reachable overfull
  ∧ (Room.maxPlayers <$> rooms overfull !! "X") = Some 6%Z
  ∧ (JsMap.keys ∘ Room.players <$> rooms overfull !! "X")
    = Some ["A"; "B"; "C"; "D"; "E"; "F"; "Z"].
Proof.
  split.
  - constructor; [|done]. apply reachable_run; [constructor|].
    simpl. by split_and!.
  - vm_compute. done.
Qed.

(** C9 (amended): in every state reached without the generator drawing the
    code of a live room, every room has capacity 6 and at most that many
    members.  In any state, [joinRoom] on a room that has reached its
    capacity answers "Room is full" and changes nothing.  (When a drawn code
    repeats a live one the bound can be exceeded.) *)
Theorem capacity_invariant (st : State) (c : string) (room : Room.t) :
  rooms st !! c = Some room →
  (reachable_fresh st →
   Room.maxPlayers room = 6%Z
   ∧ (Z.of_nat (JsMap.size (Room.players room)) ≤ Room.maxPlayers room)%Z)
  ∧ ((Room.maxPlayers room ≤ Z.of_nat (JsMap.size (Room.players room)))%Z →
     ∀ sid playerName,
       joinRoom st sid c playerName = (st, [errorEvent sid "Room is full"])).
Proof.
  intros Hroom. split.
  - intros (_ & _ & Hok)%reachable_fresh_invariant.
    by destruct (Hok _ _ Hroom) as [Hcap _].
  - intros Hfull sid playerName. by apply (joinRoom_full _ _ _ _ room).
Qed.

Lemma capacity_invariant_witness :
  (JsMap.size ∘ Room.players <$> rooms full6 !! "X") = Some 6
  ∧ joinRoom full6 "G" "X" "grace" = (full6, [errorEvent "G" "Room is full"]).
Proof.
  pose (room := Room.mk "X"
                  [("A", 0); ("B", 1); ("C", 2); ("D", 3); ("E", 4); ("F", 5)]
                  lobby 1 6 "A" None [] [] None).
  assert (Hroom : rooms full6 !! "X" = Some room) by reflexivity.
  destruct (capacity_invariant full6 "X" room Hroom) as [Hcap Hjoin].
  destruct (Hcap full6_fresh) as [H6 Hle]. split.
  - rewrite Hroom. reflexivity.
  - apply Hjoin. rewrite H6. vm_compute. discriminate.
Defined.

(** ** Starting a game *)

(** The effect of [startGame] once its guards are passed, in a well-formed
    state: a word pair of the catalogue and a position [i] among the members
    are drawn; the room keeps its members, stores the pair and enters the
    assigning phase; the member at position [i] becomes the shadow with the
    odd word, every other member a signal with the common word, nobody is
    ready; the objects of other rooms are untouched. *)
Lemma startGame_assigns st sid rnd1 rnd2 pref player room :
  wf st → unit_interval rnd1 → unit_interval rnd2 →
  getPlayer st sid = Some (pref, player) →
  rooms st !! Player.room player = Some room →
  Room.hostId room = sid →
  ∃ wp i,
    wp ∈ WORD_PAIRS
    ∧ i < JsMap.size (Room.players room)
    ∧ rooms (startGame st sid rnd1 rnd2).1
      = <[Player.room player :=
            Room.set_gameState assigning (Room.set_wordPair (Some wp) room)]>
          (rooms st)
    ∧ (∀ j k pref0, Room.players room !! j = Some (k, pref0) →
         ∃ p, heap st !! pref0 = Some p
           ∧ heap (startGame st sid rnd1 rnd2).1 !! pref0
             = Some (assignRole wp (Z.of_nat i) j p))
    ∧ heap_frame (Player.room player) (heap st)
        (heap (startGame st sid rnd1 rnd2).1).
Proof.
  intros Hwf Hrnd1 Hrnd2 Hgp Hroom Hhost.
  destruct (wordPair_drawn rnd2 Hrnd2) as [wp Hwp].
  pose proof Hwf as [_ Hrooms]. pose proof (Hrooms _ _ Hroom) as Hrwf.
  set (n := JsMap.size (Room.players room)).
  assert (Hn : 0 < n).
  { destruct Hrwf as (_ & Hne & _). unfold n, JsMap.size.
    destruct (Room.players room); [done|simpl; lia]. }
  pose proof (random_index_range rnd1 n Hrnd1 Hn) as Hi.
  exists wp, (Z.to_nat (random_index rnd1 n)).
  rewrite (startGame_run _ _ _ _ _ _ _ _ Hgp Hroom Hhost Hwp). simpl.
  rewrite (startGame_players st (Player.room player)) by done.
  rewrite assignRoles_heap.
  replace (length (JsMap.values (Room.players room))) with n
    by (unfold n, JsMap.size, JsMap.values; by rewrite length_fmap).
  rewrite Z2Nat.id by lia. split_and!.
  - by eapply list_elem_of_lookup_2.
  - lia.
  - done.
  - intros j k pref0 Hj.
    by apply (startGame_member st (Player.room player) room wp _ j k).
  - eapply room_loop_frame; [done|apply imap_fst_refs].
Qed.


(** ** The shadow *)








Lemma assignRole_record wp i j p :
  assignRole wp (Z.of_nat i) j p
  = Player.mk (Player.id p) (Player.name p) (Player.room p)
      (Some (if decide (j = i) then shadow else signal))
      (Some (if decide (j = i) then wp_shadow wp else wp_signal wp))
      false (Player.score p).
Proof.
  unfold assignRole. destruct (decide (j = i)) as [->|Hne].
  - by rewrite decide_True.
  - by rewrite decide_False by lia.
Qed.

(** [startGame] looks neither at the phase nor at the number of members: the
    only member of a new room starts a game alone, and the host of a room
    showing its results starts a game from there. *)
Lemma startGame_unguarded :
  (let st := (createRoom initial "A" "alice" "X").1 in
   (JsMap.size ∘ Room.players <$> rooms st !! "X") = Some 1
   ∧ (Room.gameState <$> rooms st !! "X") = Some lobby
   ∧ (Room.gameState <$> rooms (startGame st "A" (0 # 1) (0 # 1)).1 !! "X")
     = Some assigning
   ∧ rolesOf (startGame st "A" (0 # 1) (0 # 1)).1 "X" = Some [Some shadow])
  ∧ (Room.gameState <$> rooms results3 !! "X") = Some results
  ∧ (Room.gameState <$>
       rooms (startGame results3 "A" (3 # 4) (0 # 1)).1 !! "X")
    = Some assigning
  ∧ rolesOf (startGame results3 "A" (3 # 4) (0 # 1)).1 "X"
    = Some [Some signal; Some signal; Some shadow].
Proof. vm_compute. done. Qed.

(** C2 (amended): [startGame] changes nothing and emits nothing unless the
    caller has a player entry, the room named by it is in the registry and
    the caller is that room's host; the phase and the number of members are
    not tested.  When these guards pass (in a reachable state, with draws
    from the unit interval) a word pair of the catalogue and one member are
    drawn: the room keeps its members, stores the pair and enters the
    assigning phase; the drawn member becomes the shadow and gets the odd
    word, all the others become signals and get the common word; every
    member's readiness is reset; nothing else in the members, the other rooms
    or the objects of other rooms changes. *)
Theorem startGame_spec (st : State) (sid : string) (rnd1 rnd2 : Q) :
  let st' := (startGame st sid rnd1 rnd2).1 in
  (getPlayer st sid = None → startGame st sid rnd1 rnd2 = (st, []))
  ∧ (∀ pref player,
       getPlayer st sid = Some (pref, player) →
       rooms st !! Player.room player = None →
       startGame st sid rnd1 rnd2 = (st, []))
  ∧ (∀ pref player room,
       getPlayer st sid = Some (pref, player) →
       rooms st !! Player.room player = Some room →
       Room.hostId room ≠ sid →
       startGame st sid rnd1 rnd2 = (st, []))
  ∧ (∀ pref player room,
       reachable st → unit_interval rnd1 → unit_interval rnd2 →
       getPlayer st sid = Some (pref, player) →
       rooms st !! Player.room player = Some room →
       Room.hostId room = sid →
       ∃ wp i,
         wp ∈ WORD_PAIRS
         ∧ i < JsMap.size (Room.players room)
         ∧ rooms st'
           = <[Player.room player :=
                 Room.set_gameState assigning
                   (Room.set_wordPair (Some wp) room)]> (rooms st)
         ∧ (∀ j k pref0,
              Room.players room !! j = Some (k, pref0) →
              ∃ p, heap st !! pref0 = Some p
                ∧ heap st' !! pref0
                  = Some (Player.mk (Player.id p) (Player.name p)
                            (Player.room p)
                            (Some (if decide (j = i) then shadow else signal))
                            (Some (if decide (j = i) then wp_shadow wp
                                   else wp_signal wp))
                            false (Player.score p)))
         ∧ heap_frame (Player.room player) (heap st) (heap st')).
Proof.
  intros st'. subst st'. split_and!.
  - intros Hgp.
    by destruct (guarded_handlers_skip st sid (or_introl Hgp)) as (E & _).
  - intros pref player Hgp Hroom.
    destruct (guarded_handlers_skip st sid) as (E & _); [|done].
    right. eauto.
  - intros pref player room Hgp Hroom Hhost.
    by destruct (host_handlers_skip _ _ _ _ _ Hgp Hroom Hhost) as (E & _).
  - intros pref player room Hwf%reachable_wf Hrnd1 Hrnd2 Hgp Hroom Hhost.
    destruct (startGame_assigns _ _ _ _ _ _ _ Hwf Hrnd1 Hrnd2 Hgp Hroom Hhost)
      as (wp & i & Hwp & Hi & Hrooms' & Hmem & Hframe).
    exists wp, i. split_and!; [done..| |done].
    intros j k pref0 Hj. destruct (Hmem _ _ _ Hj) as (p & Hp & Hp').
    exists p. split; [done|]. by rewrite <- assignRole_record.
Qed.

Lemma startGame_spec_witness :
  startGame initial "A" (0 # 1) (0 # 1) = (initial, [])
  ∧ startGame lobby3 "B" (0 # 1) (0 # 1) = (lobby3, [])
  ∧ ∃ wp, rooms started3
          = <["X" := Room.mk "X" [("A", 0); ("B", 1); ("C", 2)] assigning 1 6
                       "A" (Some wp) [] [] None]> (rooms lobby3).
Proof.
  split_and!.
  - by apply (startGame_spec initial "A" (0 # 1) (0 # 1)).
  - pose proof (startGame_spec lobby3 "B" (0 # 1) (0 # 1)) as (_ & _ & H & _).
    apply (H 1 (newPlayer "B" "bob" "X")
             (Room.mk "X" [("A", 0); ("B", 1); ("C", 2)] lobby 1 6 "A" None
                [] [] None)); [reflexivity..|discriminate].
  - pose proof (startGame_spec lobby3 "A" (0 # 1) (3 # 4)) as (_ & _ & _ & H).
    destruct (H 0 (newPlayer "A" "alice" "X")
                (Room.mk "X" [("A", 0); ("B", 1); ("C", 2)] lobby 1 6 "A" None
                   [] [] None))
      as (wp & i & _ & _ & Hrooms & _);
      [apply reachable_fresh_reachable, lobby3_fresh
      |apply unit_interval_0|apply unit_interval_3_4|reflexivity..|].
    exists wp. exact Hrooms.
Defined.

(** ** Scores *)

(** Alice, the shadow, was not caught and holds 200 points; the room returns
    to the lobby and her client joins the room again: the room now lists her
    with 0 points. *)
Lemma score_drops_on_rejoin :
  reachable_fresh nextLobby3
  ∧ (JsMap.keys ∘ Room.players <$> rooms nextLobby3 !! "X")
    = Some ["A"; "B"; "C"]
  ∧ scoreOf nextLobby3 "X" "A" = Some 200%Z
  ∧ (JsMap.keys ∘ Room.players <$> rooms rejoined3 !! "X")
    = Some ["A"; "B"; "C"]
  ∧ scoreOf rejoined3 "X" "A" = Some 0%Z.
Proof.
  split; [|vm_compute; done].
  constructor; [apply results3_fresh|done..].
Qed.

Lemma updateScore_score sc p :
  Player.score (updateScore sc p)
  = (Player.score p
     + if truthy sc
       then (if decide (Player.role p = Some signal) then 100 else 0)
       else (if decide (Player.role p = Some shadow) then 200 else 0))%Z.
Proof.
  unfold updateScore. destruct (truthy sc); simpl.
  - case_bool_decide; rewrite ?decide_True, ?decide_False by done; simpl; lia.
  - case_bool_decide; rewrite ?decide_True, ?decide_False by done; simpl; lia.
Qed.

Lemma updateScore_fields sc p :
  Player.isReady (updateScore sc p) = Player.isReady p.
Proof.
  unfold updateScore. destruct (truthy sc && _); [done|].
  by destruct (negb (truthy sc) && _).
Qed.

(** C5 (amended): after a tally, when the shadow was caught every member
    whose role is signal has 100 points more and every other member has the
    score it had; when the shadow was not caught every member whose role is
    shadow has 200 points more and every other member has the score it had;
    the tally changes nothing else in a member and nothing in the players of
    other rooms.  No handler ever lowers the score of a player object, which
    lives from the [createRoom] or [joinRoom] that made it on. *)
Theorem scoring_spec :
  (∀ st c room votes' res k p,
     reachable st → rooms st !! c = Some room →
     let room1 := Room.set_gameState results (Room.set_votes votes' room) in
     Room.results (calculateResults (heap st) room1).2 = Some res →
     member (heap st) room k = Some p →
     ∃ p',
       member (calculateResults (heap st) room1).1 room k = Some p'
       ∧ Player.score p'
         = (Player.score p
            + if truthy (shadowCaught res)
              then (if decide (Player.role p = Some signal) then 100 else 0)
              else (if decide (Player.role p = Some shadow) then 200 else 0))%Z
       ∧ grows p p' ∧ sameRole p p'
       ∧ Player.isReady p' = Player.isReady p
       ∧ heap_frame c (heap st) (calculateResults (heap st) room1).1)
  ∧ (∀ st i pref p,
       heap st !! pref = Some p →
       ∃ p', heap (step st i) !! pref = Some p'
         ∧ Player.id p' = Player.id p ∧ Player.room p' = Player.room p
         ∧ (Player.score p ≤ Player.score p')%Z).
Proof.
  split_and!.
  - intros st c room votes' res k p [_ Hrooms]%reachable_wf Hroom room1 Hres Hm.
    pose proof (Hrooms _ _ Hroom) as Hrwf.
    assert (Hwf1 : room_wf (heap st) c room1) by (by eapply room_wf_fields).
    unfold calculateResults in *. simpl in *. simplify_eq. simpl.
    match goal with
    | |- context [forEachPlayer (updateScore ?sc) _ _] => set (caught := sc)
    end.
    exists (updateScore caught p). split_and!.
    + erewrite member_forEach by done. by rewrite Hm.
    + apply updateScore_score.
    + apply updateScore_grows.
    + apply updateScore_sameRole.
    + apply updateScore_fields.
    + rewrite forEachPlayer_updateAll.
      eapply room_loop_frame; [done|apply fmap_fst_refs].
  - intros st i pref p Hp.
    destruct (step_heap_grows st i _ _ Hp) as (p' & Hp' & Hid & _ & Hr & Hle).
    eauto.
Qed.

Lemma scoring_spec_witness :
  scoreOf discussion3 "X" "A" = Some 0%Z
  ∧ scoreOf results3 "X" "A" = Some 200%Z
  ∧ scoreOf results3 "X" "B" = Some 0%Z
  ∧ ∃ p', heap rejoined3 !! 0 = Some p' ∧ (200 ≤ Player.score p')%Z.
Proof.
  destruct scoring_spec as (Htally & Hmono).
  pose (room := Room.mk "X" [("A", 0); ("B", 1); ("C", 2)] discussion 1 6 "A"
                  (Some (mkWordPair "Spy" "Password")) [] [] None).
  pose (votes := [("A", "B"); ("B", "C"); ("C", "B")]).
  pose (res := mkResults (Some "B") (Some false) [("B", 2); ("C", 1)]).
  assert (Hreach : reachable discussion3)
    by apply reachable_fresh_reachable, discussion3_fresh.
  split_and!.
  - reflexivity.
  - destruct (Htally discussion3 "X" room votes res "A"
                (Player.mk "A" "alice" "X" (Some shadow) (Some "Spy") true 0)
                Hreach eq_refl eq_refl eq_refl) as (p' & Hm & Hscore & _).
    transitivity (Some (Player.score p')); [|by rewrite Hscore].
    change (Some (Player.score p')) with (Player.score <$> Some p').
    rewrite <- Hm. reflexivity.
  - destruct (Htally discussion3 "X" room votes res "B"
                (Player.mk "B" "bob" "X" (Some signal) (Some "Password") true 0)
                Hreach eq_refl eq_refl eq_refl) as (p' & Hm & Hscore & _).
    transitivity (Some (Player.score p')); [|by rewrite Hscore].
    change (Some (Player.score p')) with (Player.score <$> Some p').
    rewrite <- Hm. reflexivity.
  - destruct (Hmono nextLobby3 (JoinRoom "A" "X" "alice") 0
                (Player.mk "A" "alice" "X" None None false 200) eq_refl)
      as (p' & Hp' & _ & _ & Hle).
    exists p'. split; [exact Hp'|exact Hle].
Defined.

(** ** Readiness *)

(** The last member reports ready: the room enters the discussion and every
    member is still marked ready. *)
Lemma playerReady_keeps_readiness :
  let st := run started3 [PlayerReady "A"; PlayerReady "B"] in
  (Room.gameState <$> rooms st !! "X") = Some assigning
  ∧ readinessOf st "X" = Some [true; true; false]
  ∧ (Room.gameState <$> rooms (playerReady st "C").1 !! "X") = Some discussion
  ∧ readinessOf (playerReady st "C").1 "X" = Some [true; true; true].
Proof. vm_compute. done. Qed.

Lemma forallb_isReady (l : list Player.t) :
  forallb Player.isReady l = true ↔ Forall (λ p, Player.isReady p = true) l.
Proof.
  induction l as [|p l IH]; simpl.
  - split; [constructor|done].
  - rewrite andb_true_iff, Forall_cons, IH. done.
Qed.

(** C10 (amended): a [playerReady] of a caller with a player entry and a live
    room marks the caller's player ready (and stores it under the caller's id
    in the room).  When every member of the room is then ready, the room's
    votes are emptied and its phase becomes discussion, whatever the phase
    was; the readiness of the members is not cleared: all of them stay
    ready.  Otherwise the room keeps its phase and votes.  Nothing else
    changes. *)
Theorem playerReady_spec (st : State) (sid : string) (pref : nat)
    (player : Player.t) (room : Room.t) :
  getPlayer st sid = Some (pref, player) →
  rooms st !! Player.room player = Some room →
  let st' := (playerReady st sid).1 in
  let room1 :=
    Room.set_players (JsMap.set sid pref (Room.players room)) room in
  heap st' = <[pref := Player.set_isReady true player]> (heap st)
  ∧ players st' = players st
  ∧ (∀ c, c ≠ Player.room player → rooms st' !! c = rooms st !! c)
  ∧ (index_ok st → Room.players room1 = Room.players room)
  ∧ (Forall (λ p, Player.isReady p = true) (members (heap st') room1) →
     ∃ room',
       rooms st' !! Player.room player = Some room'
       ∧ room' = Room.set_votes [] (Room.set_gameState discussion room1)
       ∧ Room.gameState room' = discussion ∧ Room.votes room' = []
       ∧ Forall (λ p, Player.isReady p = true) (members (heap st') room'))
  ∧ (¬ Forall (λ p, Player.isReady p = true) (members (heap st') room1) →
     rooms st' !! Player.room player = Some room1).
Proof.
  intros Hgp Hroom st' room1. subst st'.
  rewrite (playerReady_run _ _ _ _ _ Hgp Hroom). simpl. fold room1.
  split_and!; try done.
  - intros c Hc. by rewrite lookup_insert_ne.
  - intros Hidx. apply getPlayer_Some in Hgp as [Hsid Hp].
    destruct (Hidx _ _ Hsid) as (q & r & Hq & Hr & Hget).
    assert (q = player) as -> by congruence.
    assert (r = room) as -> by congruence.
    simpl. by apply set_present.
  - intros Hall. pose proof Hall as Hb. apply forallb_isReady in Hb.
    rewrite Hb, lookup_insert_eq. eexists. split_and!; done.
  - intros Hall. rewrite lookup_insert_eq.
    destruct (forallb Player.isReady _) eqn:Hb; [|done].
    by apply forallb_isReady in Hb.
Qed.

Lemma playerReady_spec_witness :
  let st := run started3 [PlayerReady "A"; PlayerReady "B"] in
  ∃ room',
    rooms (playerReady st "C").1 !! "X" = Some room'
    ∧ Room.gameState room' = discussion ∧ Room.votes room' = []
    ∧ Forall (λ p, Player.isReady p = true)
        (members (heap (playerReady st "C").1) room').
Proof.
  intros st.
  destruct (playerReady_spec st "C" 2
              (Player.mk "C" "carol" "X" (Some signal) (Some "Password")
                 false 0)
              (Room.mk "X" [("A", 0); ("B", 1); ("C", 2)] assigning 1 6 "A"
                 (Some (mkWordPair "Spy" "Password")) [] [] None)
              eq_refl eq_refl) as (_ & _ & _ & _ & Hall & _).
  destruct Hall as (room' & Hroom' & _ & Hphase & Hvotes & Hready).
  - vm_compute. repeat constructor.
  - exists room'. done.
Defined.

(** * Further properties of the handlers *)

(** ** More on insertion-ordered maps and sets *)

Lemma set_set {V} k (v1 v2 : V) m :
  JsMap.set k v2 (JsMap.set k v1 m) = JsMap.set k v2 m.
Proof.
  induction m as [|[k' v'] m IH]; simpl.
  - by rewrite decide_True.
  - case_decide; simpl; [by rewrite decide_True|].
    rewrite decide_False by done. by rewrite IH.
Qed.

Lemma size_set_ge {V} k (v : V) m : JsMap.size m ≤ JsMap.size (JsMap.set k v m).
Proof.
  destruct (JsMap.get k m) eqn:E.
  - rewrite size_set_present by (by rewrite E). done.
  - rewrite size_set_absent by done. lia.
Qed.

Lemma keys_set {V} k (v : V) m :
  JsMap.keys (JsMap.set k v m)
  = if decide (k ∈ JsMap.keys m) then JsMap.keys m else JsMap.keys m ++ [k].
Proof.
  case_decide as Hin.
  - apply keys_set_present. destruct (JsMap.get k m) eqn:E; [done|].
    by apply get_None_keys in E.
  - rewrite set_absent by (by apply get_None_keys).
    unfold JsMap.keys. by rewrite fmap_app.
Qed.

Lemma elem_of_add x y s : x ∈ JsSet.add y s ↔ x = y ∨ x ∈ s.
Proof.
  unfold JsSet.add, JsSet.has. case_bool_decide as Hy.
  - split; [by right|]. by intros [->|?].
  - rewrite elem_of_app, list_elem_of_singleton. tauto.
Qed.

Lemma add_add y s : JsSet.add y (JsSet.add y s) = JsSet.add y s.
Proof.
  unfold JsSet.add at 1. unfold JsSet.has.
  rewrite bool_decide_eq_true_2; [done|]. apply elem_of_add. by left.
Qed.

Lemma getPlayer_same st st' sid :
  players st' = players st → heap st' = heap st →
  getPlayer st' sid = getPlayer st sid.
Proof. unfold getPlayer. by intros -> ->. Qed.

(** ** Revealing a role *)

(** X1: [revealRole] is idempotent on the whole server state, whoever calls
    it and whatever the target is: a second call with the same target changes
    nothing more than the first. *)
Theorem revealRole_idempotent (st : State) (sid target : string) :
  (revealRole (revealRole st sid target).1 sid target).1
  = (revealRole st sid target).1.
Proof.
  caller_cases st sid;
    [|destruct Hskip as (_ & _ & _ & _ & E & _); by rewrite !E..].
  destruct (decide (Room.hostId room = sid)) as [Hhost|Hhost]; cycle 1.
  { destruct (host_handlers_skip _ _ _ _ _ Hgp Hroom Hhost) as (_ & _ & E).
    by rewrite !E. }
  rewrite (revealRole_run _ _ _ _ _ _ Hgp Hroom Hhost).
  erewrite revealRole_run; [|by erewrite getPlayer_same
                            |simpl; apply lookup_insert_eq|done].
  simpl. rewrite insert_insert_eq. by rewrite add_add.
Qed.

(** X2: when the host of a room reveals a target, the target is in the
    room's revealed set afterwards and the set holds nothing else that was not
    in it; the target need not be a member.  From then on the snapshot of the
    room shows the role and the word of the member with that id, in any
    phase, and shows every other member as it did before.  A caller that is
    not the host changes nothing. *)
Theorem revealRole_shows (st : State) (sid target : string) (pref : nat)
    (player : Player.t) (room : Room.t) :
  getPlayer st sid = Some (pref, player) →
  rooms st !! Player.room player = Some room →
  let st' := (revealRole st sid target).1 in
  (Room.hostId room ≠ sid → revealRole st sid target = (st, []))
  ∧ (Room.hostId room = sid →
     ∃ room' data,
       rooms st' !! Player.room player = Some room'
       ∧ (∀ x, x ∈ Room.revealedPlayers room'
               ↔ x = target ∨ x ∈ Room.revealedPlayers room)
       ∧ Room.set_revealedPlayers (Room.revealedPlayers room) room' = room
       ∧ heap st' = heap st ∧ players st' = players st
       ∧ getRoomData st' (Player.room player) = Some data
       ∧ Forall2
           (λ p pd,
              (Player.id p = target →
               pd_role pd = Player.role p ∧ pd_word pd = Player.word p)
              ∧ (Player.id p ≠ target → pd = playerData room p))
           (members (heap st) room) (rd_players data)).
Proof.
  intros Hgp Hroom st'. subst st'. split.
  - intros Hhost.
    by destruct (host_handlers_skip _ _ _ _ _ Hgp Hroom Hhost) as (_ & _ & E).
  - intros Hhost. rewrite (revealRole_run _ _ _ _ _ _ Hgp Hroom Hhost).
    unfold getRoomData. simpl. rewrite lookup_insert_eq.
    eexists _, _. split_and!; try done.
    + intros x. simpl. apply elem_of_add.
    + by destruct room.
    + simpl. apply Forall2_fmap_r, Forall_Forall2_diag, Forall_forall.
      intros p _. split.
      * intros Hid. apply playerData_visible. right. simpl.
        apply elem_of_add. by left.
      * intros Hid. unfold playerData, JsSet.has. simpl.
        assert (E : bool_decide (Player.id p
                      ∈ JsSet.add target (Room.revealedPlayers room))
                    = bool_decide (Player.id p ∈ Room.revealedPlayers room)).
        { apply bool_decide_ext. rewrite elem_of_add. naive_solver. }
        by rewrite E.
Qed.

Lemma revealRole_shows_witness :
  ∃ data,
    getRoomData (revealRole started3 "A" "B").1 "X" = Some data
    ∧ (pd_role <$> rd_players data) = [None; Some signal; None].
Proof.
  destruct (revealRole_shows started3 "A" "B" 0
              (Player.mk "A" "alice" "X" (Some shadow) (Some "Spy") false 0)
              (Room.mk "X" [("A", 0); ("B", 1); ("C", 2)] assigning 1 6 "A"
                 (Some (mkWordPair "Spy" "Password")) [] [] None)
              eq_refl eq_refl) as (_ & H).
  destruct (H eq_refl) as (room' & data & _ & _ & _ & _ & _ & Hdata & _).
  exists data. split; [exact Hdata|].
  vm_compute in Hdata. injection Hdata as <-. reflexivity.
Defined.

(** ** The next round *)

(** X3: [nextRound] by the host of a room, in any phase: the round number
    grows by one, the phase is the lobby, the votes and the revealed set are
    empty, every member has no role, no word and is not ready, and keeps its
    id, name and score.  The members, the host, the capacity, the word pair
    and the last results stay in the room (the snapshot hides the pair in the
    lobby); the other rooms, their players and the global players are
    untouched.  A caller that is not the host changes nothing. *)
Theorem nextRound_spec (st : State) (sid : string) (pref : nat)
    (player : Player.t) (room : Room.t) :
  reachable st →
  getPlayer st sid = Some (pref, player) →
  rooms st !! Player.room player = Some room →
  let st' := (nextRound st sid).1 in
  (Room.hostId room ≠ sid → nextRound st sid = (st, []))
  ∧ (Room.hostId room = sid →
     rooms st'
     = <[Player.room player :=
           Room.mk (Room.code room) (Room.players room) lobby
             (Room.round room + 1) (Room.maxPlayers room) (Room.hostId room)
             (Room.wordPair room) [] [] (Room.results room)]> (rooms st)
     ∧ players st' = players st
     ∧ (∀ k p, member (heap st) room k = Some p →
          member (heap st') room k
          = Some (Player.mk (Player.id p) (Player.name p) (Player.room p)
                    None None false (Player.score p)))
     ∧ heap_frame (Player.room player) (heap st) (heap st')
     ∧ ∃ data,
         getRoomData st' (Player.room player) = Some data
         ∧ rd_wordPair data = None
         ∧ Forall (λ pd, pd_role pd = None ∧ pd_word pd = None
                         ∧ pd_isReady pd = false) (rd_players data)).
Proof.
  intros [_ Hrooms]%reachable_wf Hgp Hroom st'. subst st'. split.
  - intros Hhost.
    by destruct (host_handlers_skip _ _ _ _ _ Hgp Hroom Hhost) as (_ & E & _).
  - intros Hhost. rewrite (nextRound_run _ _ _ _ _ Hgp Hroom Hhost). simpl.
    pose proof (Hrooms _ _ Hroom) as Hrwf.
    assert (Hm : ∀ k, member
                (forEachPlayer resetPlayer (JsMap.values (Room.players room))
                   (heap st)) room k
              = resetPlayer <$> member (heap st) room k).
    { intros k. by eapply member_forEach. }
    split_and!; try done.
    + intros k p Hp. by rewrite Hm, Hp.
    + rewrite forEachPlayer_updateAll.
      eapply room_loop_frame; [done|apply fmap_fst_refs].
    + unfold getRoomData. simpl. rewrite lookup_insert_eq. eexists.
      split_and!; [done..|]. simpl. apply Forall_fmap, Forall_forall.
      intros p' Hp'. unfold members in Hp'. simpl in Hp'.
      apply list_elem_of_omap in Hp' as (pref' & Hin & Hp').
      apply list_elem_of_fmap in Hin as ([k pref''] & -> & Hin). simpl in Hp'.
      destruct Hrwf as (_ & _ & Hnd & _).
      assert (Hk : member
                (forEachPlayer resetPlayer (JsMap.values (Room.players room))
                   (heap st)) room k = Some p').
      { apply member_Some. exists pref''. split; [|done].
        by apply elem_get_Some. }
      rewrite Hm in Hk. destruct (member (heap st) room k); [|done].
      simpl in Hk. by simplify_eq.
Qed.

Lemma nextRound_spec_witness :
  (Room.round <$> rooms nextLobby3 !! "X") = Some 2%Z
  ∧ (Room.gameState <$> rooms nextLobby3 !! "X") = Some lobby
  ∧ nextRound results3 "B" = (results3, []).
Proof.
  pose (room := Room.mk "X" [("A", 0); ("B", 1); ("C", 2)] results 1 6 "A"
                  (Some (mkWordPair "Spy" "Password"))
                  [("A", "B"); ("B", "C"); ("C", "B")] []
                  (Some (mkResults (Some "B") (Some false)
                           [("B", 2); ("C", 1)]))).
  assert (Hreach : reachable results3)
    by apply reachable_fresh_reachable, results3_fresh.
  destruct (nextRound_spec results3 "A" 0
              (Player.mk "A" "alice" "X" (Some shadow) (Some "Spy") true 200)
              room Hreach eq_refl eq_refl) as (_ & Hhost).
  destruct (Hhost eq_refl) as (Hrooms & _).
  destruct (nextRound_spec results3 "B" 1
              (Player.mk "B" "bob" "X" (Some signal) (Some "Password") true 0)
              room Hreach eq_refl eq_refl) as (Hskip & _).
  unfold nextLobby3, step. simpl handle. rewrite Hrooms.
  split_and!; [by rewrite lookup_insert_eq..|].
  apply Hskip. discriminate.
Defined.

(** ** Voting *)

(** X4: a vote in a room under discussion that does not complete the votes is
    recorded under the voter's id, replacing the voter's earlier vote if there
    is one and leaving the other votes, the phase and every player as they
    are; the room is told how many votes are missing.  The last vote of a
    voter wins: voting [t1] and then [t2] leaves the server in the state that
    voting [t2] alone leaves it in. *)
Theorem submitVote_last_write_wins (st : State) (sid t1 t2 : string)
    (pref : nat) (player : Player.t) (room : Room.t) :
  getPlayer st sid = Some (pref, player) →
  rooms st !! Player.room player = Some room →
  Room.gameState room = discussion →
  JsMap.size (JsMap.set sid t1 (Room.votes room))
  ≠ JsMap.size (Room.players room) →
  submitVote st sid t1
  = (mkState
       (<[Player.room player :=
            Room.set_votes (JsMap.set sid t1 (Room.votes room)) room]>
          (rooms st))
       (players st) (heap st),
     [mkEvent (ToRoom (Player.room player)) "voteReceived"
        (PVoteReceived sid
           (Z.of_nat (JsMap.size (Room.players room))
            - Z.of_nat (JsMap.size (JsMap.set sid t1 (Room.votes room)))))])
  ∧ JsMap.get sid (JsMap.set sid t1 (Room.votes room)) = Some t1
  ∧ (∀ k, k ≠ sid →
       JsMap.get k (JsMap.set sid t1 (Room.votes room))
       = JsMap.get k (Room.votes room))
  ∧ (submitVote (submitVote st sid t1).1 sid t2).1 = (submitVote st sid t2).1.
Proof.
  intros Hgp Hroom Hphase Hsize.
  assert (E1 : submitVote st sid t1
    = (mkState
         (<[Player.room player :=
              Room.set_votes (JsMap.set sid t1 (Room.votes room)) room]>
            (rooms st))
         (players st) (heap st),
       [mkEvent (ToRoom (Player.room player)) "voteReceived"
          (PVoteReceived sid
             (Z.of_nat (JsMap.size (Room.players room))
              - Z.of_nat (JsMap.size (JsMap.set sid t1 (Room.votes room)))))])).
  { unfold submitVote. rewrite Hgp, Hroom.
    rewrite decide_False by (intros H; by apply H). simpl.
    by rewrite decide_False. }
  split_and!; [done|apply get_set_eq|by intros k Hk; apply get_set_ne|].
  rewrite E1. simpl.
  erewrite (submitVote_run _ sid t2);
    [|by erewrite getPlayer_same|simpl; apply lookup_insert_eq|done].
  rewrite (submitVote_run _ sid t2 _ _ _ Hgp Hroom Hphase). simpl.
  rewrite set_set, !insert_insert_eq. done.
Qed.

Lemma submitVote_last_write_wins_witness :
  (submitVote (submitVote discussion3 "A" "B").1 "A" "C").1
  = (submitVote discussion3 "A" "C").1.
Proof.
  apply (submitVote_last_write_wins discussion3 "A" "B" "C" 0
           (Player.mk "A" "alice" "X" (Some shadow) (Some "Spy") true 0)
           (Room.mk "X" [("A", 0); ("B", 1); ("C", 2)] discussion 1 6 "A"
              (Some (mkWordPair "Spy" "Password")) [] [] None));
    [reflexivity..|vm_compute; discriminate].
Defined.

(** X5: the tally runs only when the number of recorded votes equals the
    number of members, and nothing ever removes a vote during a discussion;
    so once a room holds more votes than members (a member left after
    voting) no vote ends the round: after any [submitVote] the room has the
    same phase, members and results, and still more votes than members. *)
Theorem submitVote_stuck (st : State) (c : string) (room : Room.t)
    (sid target : string) :
  rooms st !! c = Some room →
  JsMap.size (Room.players room) < JsMap.size (Room.votes room) →
  ∃ room',
    rooms (submitVote st sid target).1 !! c = Some room'
    ∧ Room.gameState room' = Room.gameState room
    ∧ Room.players room' = Room.players room
    ∧ Room.results room' = Room.results room
    ∧ JsMap.size (Room.players room') < JsMap.size (Room.votes room').
Proof.
  intros Hroom Hmore.
  caller_cases st sid;
    [|destruct Hskip as (_ & _ & E & _); rewrite E;
      exists room; by split_and!..].
  destruct (decide (Room.gameState room0 = discussion)) as [Hphase|Hphase];
    [|rewrite (submitVote_skip _ _ _ _ _ _ Hgp Hroom0 Hphase);
      exists room; by split_and!].
  rewrite (submitVote_run _ _ _ _ _ _ Hgp Hroom0 Hphase).
  destruct (decide (Player.room player = c)) as [Hc|Hc].
  - rewrite Hc in *. assert (room0 = room) as -> by congruence.
    pose proof (size_set_ge sid target (Room.votes room)) as Hge.
    rewrite decide_False by (simpl; lia). simpl. rewrite lookup_insert_eq.
    eexists. split_and!; [done..|]. simpl. lia.
  - exists room.
    case_decide; simpl; rewrite lookup_insert_ne by done; by split_and!.
Qed.

Lemma submitVote_stuck_witness :
  (Room.gameState <$> rooms stuck3 !! "X") = Some discussion
  ∧ ∃ room',
      rooms (submitVote stuck3 "B" "C").1 !! "X" = Some room'
      ∧ Room.gameState room' = discussion.
Proof.
  pose (room := Room.mk "X" [("B", 1); ("C", 2)] discussion 1 6 "B"
                  (Some (mkWordPair "Spy" "Password"))
                  [("A", "B"); ("B", "C"); ("C", "B")] [] None).
  split; [reflexivity|].
  destruct (submitVote_stuck stuck3 "X" room "B" "C")
    as (room' & Hroom' & Hphase & _); [reflexivity|simpl; lia|].
  exists room'. split; [exact Hroom'|]. by rewrite Hphase.
Defined.

(** ** The registry *)

Lemma rooms_insert_Forall (P : Room.t → Prop) (rs : gmap string Room.t) c r' :
  (∀ c0 r0, rs !! c0 = Some r0 → P r0) → P r' →
  ∀ c0 r0, <[c := r']> rs !! c0 = Some r0 → P r0.
Proof.
  intros Hall Hr' c0 r0. destruct (decide (c0 = c)) as [->|Hne].
  - rewrite lookup_insert_eq. by intros [= <-].
  - rewrite lookup_insert_ne by done. apply Hall.
Qed.

Lemma room_static_fields r r' :
  Room.players r' = Room.players r → Room.hostId r' = Room.hostId r →
  Room.maxPlayers r' = Room.maxPlayers r → (Room.round r ≤ Room.round r')%Z →
  room_static r → room_static r'.
Proof.
  unfold room_static. intros -> -> -> Hround (Hhost & Hmax & H1).
  split_and!; [done..|lia].
Qed.

Lemma room_static_set sid pref r :
  room_static r →
  room_static (Room.set_players (JsMap.set sid pref (Room.players r)) r).
Proof.
  intros (Hhost & Hmax & H1). split_and!; [|done..]. simpl.
  destruct (decide (sid = Room.hostId r)) as [->|Hne].
  - by rewrite get_set_eq.
  - by rewrite get_set_ne.
Qed.

Lemma firstKey_member (ps : JsMap.t nat) dflt :
  ps ≠ [] → is_Some (JsMap.get (firstKey ps dflt) ps).
Proof.
  destruct ps as [|[k v] ps]; [done|]. intros _. unfold firstKey. simpl.
  by rewrite decide_True.
Qed.

Lemma room_static_step st i :
  wf st →
  (∀ c r, rooms st !! c = Some r → room_static r) →
  ∀ c r, rooms (step st i) !! c = Some r → room_static r.
Proof.
  intros Hwf Hall. unfold step.
  assert (Hleave : ∀ sid c r,
            rooms (leaveRoom st sid).1 !! c = Some r → room_static r).
  { intros sid. caller_cases st sid;
      [|destruct Hskip as (_ & _ & _ & _ & _ & E); by rewrite E..].
    rewrite (leaveRoom_run _ _ _ _ _ Hgp Hroom).
    destruct (Hall _ _ Hroom) as (Hhost & Hmax & H1).
    case_decide as Hsize; simpl.
    - intros c r [_ H]%lookup_delete_Some. by eapply Hall.
    - apply rooms_insert_Forall; [done|].
      case_decide as Hh; (split_and!; [|done..]); simpl.
      + apply firstKey_member. by rewrite <- size_0_nil.
      + by rewrite get_delete_ne. }
  destruct i as [sid playerName roomCode|sid roomCode playerName
    |sid rnd1 rnd2|sid|sid target|sid|sid target|sid|sid]; simpl.
  - apply rooms_insert_Forall; [done|]. split_and!; simpl; [|done..].
    by rewrite decide_True.
  - destruct (rooms st !! roomCode) as [room|] eqn:Hroom;
      [|by rewrite joinRoom_not_found].
    destruct (decide (Room.maxPlayers room
                      ≤ Z.of_nat (JsMap.size (Room.players room)))%Z).
    { by rewrite (joinRoom_full _ _ _ _ room). }
    destruct (decide (Room.gameState room = lobby)) as [Hphase|Hphase];
      [|by rewrite (joinRoom_in_progress _ _ _ _ room) by (done || lia)].
    rewrite (joinRoom_success _ _ _ _ room) by (done || lia). simpl.
    apply rooms_insert_Forall; [done|]. apply room_static_set. by eapply Hall.
  - caller_cases st sid; [|destruct Hskip as (E & _); by rewrite E..].
    destruct (decide (Room.hostId room = sid)) as [Hhost|Hhost]; cycle 1.
    { destruct (host_handlers_skip _ _ _ _ _ Hgp Hroom Hhost) as (E & _).
      by rewrite E. }
    destruct (WORD_PAIRS !! Z.to_nat (random_index rnd2 (length WORD_PAIRS)))
      as [wp|] eqn:Hwp; cycle 1.
    { unfold startGame. rewrite Hgp, Hroom.
      rewrite decide_False by (intros H; by apply H). by rewrite Hwp. }
    rewrite (startGame_run _ _ _ _ _ _ _ _ Hgp Hroom Hhost Hwp). simpl.
    rewrite (startGame_players st (Player.room player)) by done.
    apply rooms_insert_Forall; [done|].
    eapply room_static_fields with (r := room);
      [done..|simpl; lia|by eapply Hall].
  - caller_cases st sid; [|destruct Hskip as (_ & E & _); by rewrite E..].
    rewrite (playerReady_run _ _ _ _ _ Hgp Hroom). simpl.
    apply rooms_insert_Forall; [done|].
    eapply room_static_fields with
      (r := Room.set_players (JsMap.set sid pref (Room.players room)) room);
      [by case_match..| |apply room_static_set; by eapply Hall].
    case_match; simpl; lia.
  - caller_cases st sid; [|destruct Hskip as (_ & _ & E & _); by rewrite E..].
    destruct (decide (Room.gameState room = discussion)) as [Hphase|Hphase];
      [|by rewrite (submitVote_skip _ _ _ _ _ _ Hgp Hroom Hphase)].
    rewrite (submitVote_run _ _ _ _ _ _ Hgp Hroom Hphase).
    case_decide; simpl; (apply rooms_insert_Forall; [done|]);
      (eapply room_static_fields with (r := room);
      [done..|simpl; lia|by eapply Hall]).
  - caller_cases st sid;
      [|destruct Hskip as (_ & _ & _ & E & _); by rewrite E..].
    destruct (decide (Room.hostId room = sid)) as [Hhost|Hhost]; cycle 1.
    { destruct (host_handlers_skip _ _ _ _ _ Hgp Hroom Hhost) as (_ & E & _).
      by rewrite E. }
    rewrite (nextRound_run _ _ _ _ _ Hgp Hroom Hhost). simpl.
    apply rooms_insert_Forall; [done|].
    eapply room_static_fields with (r := room);
      [done..|simpl; lia|by eapply Hall].
  - caller_cases st sid;
      [|destruct Hskip as (_ & _ & _ & _ & E & _); by rewrite E..].
    destruct (decide (Room.hostId room = sid)) as [Hhost|Hhost]; cycle 1.
    { destruct (host_handlers_skip _ _ _ _ _ Hgp Hroom Hhost) as (_ & _ & E).
      by rewrite E. }
    rewrite (revealRole_run _ _ _ _ _ _ Hgp Hroom Hhost). simpl.
    apply rooms_insert_Forall; [done|].
    eapply room_static_fields with (r := room);
      [done..|simpl; lia|by eapply Hall].
  - apply Hleave.
  - rewrite <- leaveRoom_eq_disconnect. apply Hleave.
Qed.

Lemma reachable_room_static st c r :
  reachable st → rooms st !! c = Some r → room_static r.
Proof.
  intros Hreach. revert c r.
  induction Hreach as [|st i Hreach IH _].
  - intros c r H. simpl in H. by rewrite lookup_empty in H.
  - apply room_static_step; [by apply reachable_wf|done].
Qed.

(** X6: in every reachable state, code collisions included, every room of
    the registry is stored under its own code and is not empty; the keys of
    its members are pairwise distinct and each key maps to a player record
    with that id which names this room; the host is one of the members; the
    capacity is 6 and the round counter is at least 1. *)
Theorem registry_invariant (st : State) (c : string) (room : Room.t) :
  reachable st → rooms st !! c = Some room →
  Room.code room = c
  ∧ Room.players room ≠ []
  ∧ NoDup (JsMap.keys (Room.players room))
  ∧ (∀ k, k ∈ JsMap.keys (Room.players room) →
       ∃ p, member (heap st) room k = Some p
            ∧ Player.id p = k ∧ Player.room p = c)
  ∧ Room.hostId room ∈ JsMap.keys (Room.players room)
  ∧ Room.maxPlayers room = 6%Z
  ∧ (1 ≤ Room.round room)%Z.
Proof.
  intros Hreach Hroom.
  destruct (reachable_wf _ Hreach) as [_ Hrooms].
  destruct (Hrooms _ _ Hroom) as (Hcode & Hne & Hnd & Hel).
  destruct (reachable_room_static _ _ _ Hreach Hroom) as (Hhost & Hmax & H1).
  split_and!; try done.
  - intros k Hk. destruct (JsMap.get k (Room.players room)) as [pref|] eqn:E;
      [|by apply get_None_keys in E].
    destruct (Hel k pref (get_Some_elem _ _ _ E)) as (p & Hp & Hid & Hr).
    exists p. split_and!; [|done..]. apply member_Some. eauto.
  - destruct (decide (Room.hostId room ∈ JsMap.keys (Room.players room)))
      as [|Hn]; [done|].
    apply get_None_keys in Hn. rewrite Hn in Hhost. by destruct Hhost.
Qed.

Lemma registry_invariant_witness :
  ∃ room, rooms started3 !! "X" = Some room
    ∧ Room.hostId room ∈ JsMap.keys (Room.players room)
    ∧ NoDup (JsMap.keys (Room.players room)).
Proof.
  eexists. split; [reflexivity|].
  destruct (registry_invariant started3 "X" _
              (reachable_fresh_reachable _ started3_fresh) eq_refl)
    as (_ & _ & Hnd & _ & Hh & _).
  split; [exact Hh|exact Hnd].
Defined.

(** X7: as long as no generated code repeats a live one, every entry of the
    global players map points to a player record with the entry's id, the
    room that record names is in the registry, and the room holds the very
    same record under that id. *)
Theorem index_invariant (st : State) (sid : string) (pref : nat) :
  reachable_fresh st → players st !! sid = Some pref →
  ∃ p room,
    heap st !! pref = Some p
    ∧ Player.id p = sid
    ∧ rooms st !! Player.room p = Some room
    ∧ JsMap.get sid (Room.players room) = Some pref
    ∧ member (heap st) room sid = Some p.
Proof.
  intros ([Hidx _] & Hok & _)%reachable_fresh_invariant Hsid.
  destruct (Hok _ _ Hsid) as (p & room & Hp & Hroom & Hget).
  destruct (Hidx _ _ Hsid) as (p' & Hp' & Hid).
  assert (p' = p) as -> by congruence.
  exists p, room. split_and!; [done..|]. apply member_Some. eauto.
Qed.

Lemma index_invariant_witness :
  ∃ p room,
    heap started3 !! 1 = Some p ∧ Player.id p = "B"
    ∧ rooms started3 !! Player.room p = Some room
    ∧ member (heap started3) room "B" = Some p.
Proof.
  destruct (index_invariant started3 "B" 1 started3_fresh eq_refl)
    as (p & room & Hp & Hid & Hroom & _ & Hm).
  by exists p, room.
Defined.

(** ** Errors *)

Ltac event_cases H :=
  repeat match type of H with
    | _ ∈ [] => by apply elem_of_nil in H
    | _ ∈ _ :: _ => apply elem_of_cons in H; destruct H as [H|H]; [subst|]
    | _ ∈ _ ++ _ => apply elem_of_app in H; destruct H as [H|H]
    | _ ∈ _ <$> _ =>
        apply list_elem_of_fmap in H; destruct H as (? & H & _); subst
    end.

(** X8: the only handler that ever sends an error event is [joinRoom]: when
    an event named "error" is emitted, the input was a [joinRoom], the event
    is the only one emitted, it goes to the caller's socket alone, it carries
    one of the three messages, and the state is unchanged.  The other
    handlers reject a call without a word. *)
Theorem errors_only_from_joinRoom (st : State) (i : Input) (ev : Event) :
  ev ∈ (handle st i).2 → ev_name ev = "error" →
  ∃ sid roomCode playerName message,
    i = JoinRoom sid roomCode playerName
    ∧ (handle st i).2 = [errorEvent sid message]
    ∧ ev = errorEvent sid message
    ∧ message ∈ ["Room not found"; "Room is full"; "Game already in progress"]
    ∧ (handle st i).1 = st.
Proof.
  intros Hev Hname.
  assert (Hleave : ∀ sid, ev ∈ (leaveRoom st sid).2 → False).
  { intros sid. unfold leaveRoom.
    destruct (getPlayer st sid) as [[pref player]|];
      [|intros H; by apply elem_of_nil in H].
    destruct (rooms st !! Player.room player) as [room|];
      [|intros H; by apply elem_of_nil in H].
    case_decide; simpl; intros Hin; event_cases Hin; done. }
  destruct i as [sid playerName roomCode|sid roomCode playerName
    |sid rnd1 rnd2|sid|sid target|sid|sid target|sid|sid]; simpl in *.
  - event_cases Hev; done.
  - exists sid, roomCode, playerName. unfold joinRoom in *.
    destruct (rooms st !! roomCode) as [room|].
    + repeat case_decide; simpl in *; event_cases Hev; try done;
        eexists; (split_and!; [done..| |done]); set_solver.
    + simpl in *. event_cases Hev. eexists.
      split_and!; [done..| |done]. set_solver.
  - unfold startGame in Hev.
    destruct (getPlayer st sid) as [[pref player]|];
      [|by apply elem_of_nil in Hev].
    destruct (rooms st !! Player.room player) as [room|];
      [|by apply elem_of_nil in Hev].
    case_decide; [by apply elem_of_nil in Hev|].
    destruct (WORD_PAIRS !! _) as [wp|]; [|by apply elem_of_nil in Hev].
    destruct (assignRoles _ _ _ _ _ _ _) as [[h rp] pls].
    simpl in Hev. event_cases Hev; done.
  - unfold playerReady in Hev.
    destruct (getPlayer st sid) as [[pref player]|];
      [|by apply elem_of_nil in Hev].
    destruct (rooms st !! Player.room player) as [room|];
      [|by apply elem_of_nil in Hev].
    case_match; simpl in Hev; event_cases Hev; done.
  - unfold submitVote in Hev.
    destruct (getPlayer st sid) as [[pref player]|];
      [|by apply elem_of_nil in Hev].
    destruct (rooms st !! Player.room player) as [room|];
      [|by apply elem_of_nil in Hev].
    repeat case_decide; simpl in Hev; event_cases Hev; done.
  - unfold nextRound in Hev.
    destruct (getPlayer st sid) as [[pref player]|];
      [|by apply elem_of_nil in Hev].
    destruct (rooms st !! Player.room player) as [room|];
      [|by apply elem_of_nil in Hev].
    case_decide; simpl in Hev; event_cases Hev; done.
  - unfold revealRole in Hev.
    destruct (getPlayer st sid) as [[pref player]|];
      [|by apply elem_of_nil in Hev].
    destruct (rooms st !! Player.room player) as [room|];
      [|by apply elem_of_nil in Hev].
    case_decide; simpl in Hev; event_cases Hev; done.
  - by destruct (Hleave sid).
  - rewrite <- leaveRoom_eq_disconnect in Hev. by destruct (Hleave sid).
Qed.

Lemma errors_only_from_joinRoom_witness :
  (handle full6 (JoinRoom "G" "X" "grace")).1 = full6.
Proof.
  destruct (errors_only_from_joinRoom full6 (JoinRoom "G" "X" "grace")
              (errorEvent "G" "Room is full"))
    as (sid & roomCode & playerName & message & _ & _ & _ & _ & Hst);
    [vm_compute; left|reflexivity|exact Hst].
Defined.

(** ** The list of members *)

Lemma members_lookup h c r j k pref :
  room_wf h c r → Room.players r !! j = Some (k, pref) →
  members h r !! j = h !! pref.
Proof.
  intros (_ & _ & _ & Hel). unfold members, JsMap.values.
  revert j Hel. induction (Room.players r) as [|[k0 pref0] ps IH];
    intros j Hel Hj; [done|].
  destruct (Hel k0 pref0) as (p0 & Hp0 & _); [by left|].
  simpl. rewrite Hp0. simpl. destruct j as [|j]; simpl in *.
  - by simplify_eq.
  - apply IH; [|done]. intros k' pref' Hin. apply Hel. by right.
Qed.

Lemma members_length h c r :
  room_wf h c r → length (members h r) = JsMap.size (Room.players r).
Proof.
  intros (_ & _ & _ & Hel). unfold members, JsMap.values, JsMap.size.
  revert Hel. induction (Room.players r) as [|[k0 pref0] ps IH];
    intros Hel; [done|].
  destruct (Hel k0 pref0) as (p0 & Hp0 & _); [by left|].
  simpl. rewrite Hp0. simpl. f_equal. apply IH.
  intros k' pref' Hin. apply Hel. by right.
Qed.

Lemma members_ids h c r :
  room_wf h c r → Player.id <$> members h r = JsMap.keys (Room.players r).
Proof.
  intros (_ & _ & _ & Hel). unfold members, JsMap.values, JsMap.keys.
  revert Hel. induction (Room.players r) as [|[k0 pref0] ps IH];
    intros Hel; [done|].
  destruct (Hel k0 pref0) as (p0 & Hp0 & Hid & _); [by left|].
  simpl. rewrite Hp0. simpl. f_equal; [done|]. apply IH.
  intros k' pref' Hin. apply Hel. by right.
Qed.

(** X9: in every reachable state the snapshot of a room lists its members in
    the iteration order of the room's players map, one entry per member: the
    ids of the entries are the keys of the map, they are pairwise distinct,
    the host's id is among them, and each entry carries the name, readiness
    and score of the member with that id. *)
Theorem getRoomData_players (st : State) (c : string) (room : Room.t) :
  reachable st → rooms st !! c = Some room →
  ∃ data,
    getRoomData st c = Some data
    ∧ pd_id <$> rd_players data = JsMap.keys (Room.players room)
    ∧ NoDup (pd_id <$> rd_players data)
    ∧ rd_hostId data ∈ pd_id <$> rd_players data
    ∧ rd_code data = c
    ∧ ∀ pd, pd ∈ rd_players data →
        ∃ p, member (heap st) room (pd_id pd) = Some p
             ∧ pd_name pd = Player.name p
             ∧ pd_isReady pd = Player.isReady p
             ∧ pd_score pd = Player.score p.
Proof.
  intros Hreach Hroom.
  destruct (reachable_wf _ Hreach) as [_ Hrooms].
  pose proof (Hrooms _ _ Hroom) as Hrwf.
  destruct (reachable_room_static _ _ _ Hreach Hroom) as (Hhost & _).
  exists (roomData (heap st) room).
  assert (Hids : pd_id <$> rd_players (roomData (heap st) room)
                 = JsMap.keys (Room.players room)).
  { simpl. rewrite <- list_fmap_compose.
    rewrite <- (members_ids (heap st) c room) by done. done. }
  destruct Hrwf as (Hcode & Hne & Hnd & Hel).
  split_and!.
  - unfold getRoomData. by rewrite Hroom.
  - done.
  - by rewrite Hids.
  - rewrite Hids. simpl.
    destruct (decide (Room.hostId room ∈ JsMap.keys (Room.players room)))
      as [|Hn]; [done|].
    apply get_None_keys in Hn. rewrite Hn in Hhost. by destruct Hhost.
  - done.
  - intros pd (p & -> & Hp)%list_elem_of_fmap. exists p.
    split_and!; [|done..]. simpl.
    unfold members in Hp. apply list_elem_of_omap in Hp as (pref & Hin & Hp).
    apply list_elem_of_fmap in Hin as ([k pref'] & -> & Hin). simpl in Hp.
    destruct (Hel k pref' Hin) as (p' & Hp' & Hid & _).
    assert (p' = p) as -> by congruence. rewrite Hid.
    apply member_Some. exists pref'. split; [|done]. by apply elem_get_Some.
Qed.

Lemma getRoomData_players_witness :
  ∃ data,
    getRoomData overfull "X" = Some data
    ∧ pd_id <$> rd_players data = ["A"; "B"; "C"; "D"; "E"; "F"; "Z"].
Proof.
  assert (Hreach : reachable overfull).
  { constructor; [|done]. apply reachable_run; [constructor|].
    simpl. by split_and!. }
  destruct (getRoomData_players overfull "X"
              (Room.mk "X"
                 [("A", 1); ("B", 2); ("C", 3); ("D", 4); ("E", 5); ("F", 6);
                  ("Z", 0)] lobby 1 6 "A" None [] [] None) Hreach eq_refl)
    as (data & Hdata & Hids & _).
  exists data. split; [exact Hdata|exact Hids].
Defined.

(** ** The events of [startGame] *)

Lemma startGame_run_events st sid rnd1 rnd2 pref player room wp :
  getPlayer st sid = Some (pref, player) →
  rooms st !! Player.room player = Some room →
  Room.hostId room = sid →
  WORD_PAIRS !! Z.to_nat (random_index rnd2 (length WORD_PAIRS)) = Some wp →
  let st' := (startGame st sid rnd1 rnd2).1 in
  let data := getRoomData st' (Player.room player) in
  (startGame st sid rnd1 rnd2).2
  = ((λ p, mkEvent (ToSocket (Player.id p)) "roleAssigned"
             (PRoleAssigned (Player.role p) (Player.word p) (roster data)))
       <$> omap (λ pref, heap st' !! pref) (JsMap.values (Room.players room)))
    ++ [mkEvent (ToRoom (Player.room player)) "gameStarted" (PRoomData data)].
Proof.
  intros Hgp Hroom Hhost Hwp. unfold startGame.
  rewrite Hgp, Hroom. rewrite decide_False by (intros H; by apply H).
  rewrite Hwp. simpl.
  by destruct (assignRoles _ _ _ _ _ _ _) as [[h rp] pls].
Qed.

(** X10: the events of a successful [startGame] in a room with [n] members
    are [n] role notices followed by one announcement to the room.  The
    notice at position [j] goes to the socket of the member at position [j]
    and to no other, and carries that member's own role and word as stored;
    the list of players inside a notice has one entry per member, with its
    id, and nobody marked ready.  The announcement is the snapshot of the
    room, which shows no role, no word and no word pair. *)
Theorem startGame_events (st : State) (sid : string) (rnd1 rnd2 : Q)
    (pref : nat) (player : Player.t) (room : Room.t) :
  reachable st → unit_interval rnd1 → unit_interval rnd2 →
  getPlayer st sid = Some (pref, player) →
  rooms st !! Player.room player = Some room →
  Room.hostId room = sid →
  Room.revealedPlayers room = [] →
  let st' := (startGame st sid rnd1 rnd2).1 in
  let evs := (startGame st sid rnd1 rnd2).2 in
  ∃ room' data,
    rooms st' !! Player.room player = Some room'
    ∧ getRoomData st' (Player.room player) = Some data
    ∧ length evs = S (JsMap.size (Room.players room))
    ∧ (∀ j k pref0, Room.players room !! j = Some (k, pref0) →
         ∃ p, member (heap st') room' k = Some p
           ∧ evs !! j
             = Some (mkEvent (ToSocket k) "roleAssigned"
                       (PRoleAssigned (Player.role p) (Player.word p)
                          (roster (Some data)))))
    ∧ evs !! JsMap.size (Room.players room)
      = Some (mkEvent (ToRoom (Player.room player)) "gameStarted"
                (PRoomData (Some data)))
    ∧ (roster (Some data)).*1.*1 = JsMap.keys (Room.players room)
    ∧ (∀ e, e ∈ roster (Some data) → e.2 = false)
    ∧ rd_wordPair data = None
    ∧ ∀ pd, pd ∈ rd_players data → pd_role pd = None ∧ pd_word pd = None.
Proof.
  intros Hreach Hrnd1 Hrnd2 Hgp Hroom Hhost Hrev st' evs.
  pose proof (reachable_wf _ Hreach) as Hwf.
  assert (Hwf' : wf st').
  { by apply (wf_step st (StartGame sid rnd1 rnd2)). }
  destruct (wordPair_drawn rnd2 Hrnd2) as [wp Hwp].
  destruct (startGame_assigns _ _ _ _ _ _ _ Hwf Hrnd1 Hrnd2 Hgp Hroom Hhost)
    as (wp' & i & _ & Hi & Hrooms' & Hmem & _).
  fold st' in Hrooms', Hmem.
  set (room' := Room.set_gameState assigning
                  (Room.set_wordPair (Some wp') room)).
  assert (Hroom' : rooms st' !! Player.room player = Some room').
  { by rewrite Hrooms', lookup_insert_eq. }
  pose proof Hwf' as [_ Hrooms'wf].
  pose proof (Hrooms'wf _ _ Hroom') as Hrwf'.
  assert (Hdata : getRoomData st' (Player.room player)
                  = Some (roomData (heap st') room')).
  { unfold getRoomData. by rewrite Hroom'. }
  assert (Hevs : evs
    = ((λ p, mkEvent (ToSocket (Player.id p)) "roleAssigned"
               (PRoleAssigned (Player.role p) (Player.word p)
                  (roster (Some (roomData (heap st') room')))))
         <$> members (heap st') room')
      ++ [mkEvent (ToRoom (Player.room player)) "gameStarted"
            (PRoomData (Some (roomData (heap st') room')))]).
  { unfold evs.
    rewrite (startGame_run_events _ _ _ _ _ _ _ _ Hgp Hroom Hhost Hwp).
    fold st'. by rewrite Hdata. }
  assert (Hlen : length (members (heap st') room')
                 = JsMap.size (Room.players room)).
  { by rewrite (members_length _ _ _ Hrwf'). }
  exists room', (roomData (heap st') room'). split_and!.
  - done.
  - done.
  - rewrite Hevs, length_app, length_fmap, Hlen. simpl. lia.
  - intros j k pref0 Hj.
    assert (Hj' : Room.players room' !! j = Some (k, pref0)) by done.
    pose proof (members_lookup _ _ _ _ _ _ Hrwf' Hj') as Hmj.
    destruct Hrwf' as (_ & _ & Hnd & Hel).
    destruct (Hel k pref0) as (p & Hp & Hid & _);
      [by eapply list_elem_of_lookup_2|].
    exists p. split.
    + apply member_Some. exists pref0. split; [|done].
      apply elem_get_Some; [done|]. by eapply list_elem_of_lookup_2.
    + rewrite Hevs, lookup_app_l
        by (rewrite length_fmap, Hlen; by eapply lookup_lt_Some).
      rewrite list_lookup_fmap, Hmj, Hp. simpl. by rewrite Hid.
  - rewrite Hevs, lookup_app_r by (rewrite length_fmap, Hlen; lia).
    rewrite length_fmap, Hlen, Nat.sub_diag. done.
  - transitivity (Player.id <$> members (heap st') room');
      [|exact (members_ids _ _ _ Hrwf')].
    simpl. by rewrite <- !list_fmap_compose.
  - intros e. simpl. rewrite <- list_fmap_compose.
    intros (p & -> & Hp)%list_elem_of_fmap. simpl.
    unfold members in Hp. apply list_elem_of_omap in Hp as (pref' & Hin & Hp).
    apply list_elem_of_fmap in Hin as ([k pref''] & -> & Hin). simpl in Hp.
    apply list_elem_of_lookup in Hin as [j Hj].
    destruct (Hmem _ _ _ Hj) as (q & _ & Hq). rewrite Hq in Hp. simplify_eq.
    by destruct (assignRole_fields wp' (Z.of_nat i) j q) as (_ & _ & -> & _).
  - done.
  - intros pd (p & -> & _)%list_elem_of_fmap. unfold playerData. simpl.
    by rewrite Hrev.
Qed.

Lemma startGame_events_witness :
  ∃ p roster0,
    member (heap started3)
      (Room.mk "X" [("A", 0); ("B", 1); ("C", 2)] assigning 1 6 "A"
         (WORD_PAIRS !! 6) [] [] None) "B" = Some p
    ∧ (startGame lobby3 "A" (0 # 1) (3 # 4)).2 !! 1
      = Some (mkEvent (ToSocket "B") "roleAssigned"
                (PRoleAssigned (Player.role p) (Player.word p) roster0))
    ∧ length (startGame lobby3 "A" (0 # 1) (3 # 4)).2 = 4.
Proof.
  destruct (startGame_events lobby3 "A" (0 # 1) (3 # 4) 0
              (newPlayer "A" "alice" "X")
              (Room.mk "X" [("A", 0); ("B", 1); ("C", 2)] lobby 1 6 "A" None
                 [] [] None))
    as (room' & data & Hroom' & _ & Hlen & Hev & _);
    [apply reachable_fresh_reachable, lobby3_fresh
    |apply unit_interval_0|apply unit_interval_3_4|reflexivity..|].
  destruct (Hev 1 "B" 1 eq_refl) as (p & Hp & Hj).
  exists p, (roster (Some data)). split_and!.
  - vm_compute in Hroom'. injection Hroom' as <-. exact Hp.
  - exact Hj.
  - exact Hlen.
Defined.

(** ** The vote that completes the round *)

Lemma submitVote_final_run st sid target pref player room :
  getPlayer st sid = Some (pref, player) →
  rooms st !! Player.room player = Some room →
  Room.gameState room = discussion →
  JsMap.size (JsMap.set sid target (Room.votes room))
  = JsMap.size (Room.players room) →
  let room1 :=
    Room.set_gameState results
      (Room.set_votes (JsMap.set sid target (Room.votes room)) room) in
  let st' :=
    mkState
      (<[Player.room player := (calculateResults (heap st) room1).2]>
         (rooms st))
      (players st) (calculateResults (heap st) room1).1 in
  submitVote st sid target
  = (st', [mkEvent (ToRoom (Player.room player)) "roundResults"
             (PRoomData (getRoomData st' (Player.room player)))]).
Proof.
  intros Hgp Hroom Hphase Hsize. unfold submitVote. rewrite Hgp, Hroom.
  rewrite decide_False by (intros H; by apply H).
  by rewrite decide_True by done.
Qed.

Lemma updateScore_keeps sc p :
  Player.id (updateScore sc p) = Player.id p
  ∧ Player.name (updateScore sc p) = Player.name p
  ∧ Player.role (updateScore sc p) = Player.role p
  ∧ Player.word (updateScore sc p) = Player.word p.
Proof.
  destruct (updateScore_grows sc p) as (? & ? & _).
  destruct (updateScore_sameRole sc p) as (? & ?). done.
Qed.

(** X11: the vote that makes the number of recorded votes equal to the
    number of members closes the round in the same step: the room enters the
    results phase with the vote recorded and the tally of all recorded votes
    stored, and the one event sent is [roundResults] to the room, carrying
    the snapshot taken after the scores were updated: it shows the word pair
    and, for the member at every position, its role, its word and its new
    score. *)
Theorem submitVote_final (st : State) (sid target : string) (pref : nat)
    (player : Player.t) (room : Room.t) :
  reachable st →
  getPlayer st sid = Some (pref, player) →
  rooms st !! Player.room player = Some room →
  Room.gameState room = discussion →
  JsMap.size (JsMap.set sid target (Room.votes room))
  = JsMap.size (Room.players room) →
  let st' := (submitVote st sid target).1 in
  ∃ room' res data,
    rooms st' !! Player.room player = Some room'
    ∧ Room.gameState room' = results
    ∧ Room.votes room' = JsMap.set sid target (Room.votes room)
    ∧ Room.players room' = Room.players room
    ∧ Room.results room' = Some res
    ∧ voteCount res = countVotes (JsMap.set sid target (Room.votes room))
    ∧ (submitVote st sid target).2
      = [mkEvent (ToRoom (Player.room player)) "roundResults"
           (PRoomData (Some data))]
    ∧ rd_gameState data = results
    ∧ rd_wordPair data = Room.wordPair room
    ∧ rd_votes data = JsMap.size (Room.players room)
    ∧ ∀ j k pref0 p,
        Room.players room !! j = Some (k, pref0) →
        heap st !! pref0 = Some p →
        rd_players data !! j
        = Some (mkPlayerData k (Player.name p) (Player.isReady p)
                  (Player.score p
                   + if truthy (shadowCaught res)
                     then (if decide (Player.role p = Some signal)
                           then 100 else 0)
                     else (if decide (Player.role p = Some shadow)
                           then 200 else 0))%Z
                  (Player.role p) (Player.word p)).
Proof.
  intros Hreach Hgp Hroom Hphase Hsize st'.
  pose proof (reachable_wf _ Hreach) as Hwf.
  assert (Hwf' : wf st') by (by apply (wf_step st (SubmitVote sid target))).
  pose proof Hwf as [_ Hrooms]. pose proof (Hrooms _ _ Hroom) as Hrwf.
  pose proof (submitVote_final_run _ _ _ _ _ _ Hgp Hroom Hphase Hsize) as Hrun.
  unfold st' in *. rewrite Hrun in *. simpl in *. clear Hrun.
  set (room1 := Room.set_gameState results
                  (Room.set_votes (JsMap.set sid target (Room.votes room))
                     room)) in *.
  pose proof Hwf' as [_ Hrooms'].
  pose proof (Hrooms' (Player.room player)
                (calculateResults (heap st) room1).2) as Hrwf'.
  simpl in Hrwf'. rewrite lookup_insert_eq in Hrwf'. specialize (Hrwf' eq_refl).
  unfold getRoomData. simpl. rewrite lookup_insert_eq.
  eexists _, _, _. split_and!; try done.
  intros j k pref0 p Hj Hp. unfold roomData; simpl.
  rewrite list_lookup_fmap.
  rewrite (members_lookup _ _ _ j k pref0 Hrwf') by done.
  rewrite forEachPlayer_updateAll.
  erewrite room_loop_lookup; [|exact Hrwf|apply fmap_fst_refs|].
  2:{ apply list_elem_of_fmap. exists pref0. split; [done|].
      apply list_elem_of_fmap. exists (k, pref0). split; [done|].
      by eapply list_elem_of_lookup_2. }
  rewrite Hp. simpl. unfold playerData. simpl.
  destruct Hrwf as (_ & _ & _ & Hel).
  destruct (Hel k pref0) as (p' & Hp' & Hid & _);
    [by eapply list_elem_of_lookup_2|].
  assert (p' = p) as -> by congruence.
  match goal with
  | |- context [updateScore ?sc p] =>
      destruct (updateScore_keeps sc p) as (-> & -> & -> & ->);
      rewrite (updateScore_fields sc p), (updateScore_score sc p)
  end.
  by rewrite Hid.
Qed.

Lemma submitVote_final_witness :
  ∃ data,
    (submitVote (run discussion3 [SubmitVote "A" "B"; SubmitVote "B" "C"])
       "C" "B").2
    = [mkEvent (ToRoom "X") "roundResults" (PRoomData (Some data))]
    ∧ rd_players data !! 0
      = Some (mkPlayerData "A" "alice" true 200 (Some shadow) (Some "Spy")).
Proof.
  destruct (submitVote_final
              (run discussion3 [SubmitVote "A" "B"; SubmitVote "B" "C"])
              "C" "B" 2
              (Player.mk "C" "carol" "X" (Some signal) (Some "Password")
                 true 0)
              (Room.mk "X" [("A", 0); ("B", 1); ("C", 2)] discussion 1 6 "A"
                 (Some (mkWordPair "Spy" "Password"))
                 [("A", "B"); ("B", "C")] [] None))
    as (room' & res & data & Hroom' & _ & _ & _ & Hres & _ & Hev & _ & _ & _
        & Hpl);
    [apply reachable_run;
       [apply reachable_fresh_reachable, discussion3_fresh|simpl; done]
    |reflexivity..|].
  exists data. split; [exact Hev|].
  rewrite (Hpl 0 "A" 0
             (Player.mk "A" "alice" "X" (Some shadow) (Some "Spy") true 0)
             eq_refl eq_refl).
  vm_compute in Hroom'. injection Hroom' as <-. simpl in Hres.
  injection Hres as <-. reflexivity.
Defined.

(** ** Snapshots *)

Lemma getRoomData_code st c d :
  wf st → getRoomData st c = Some d → rd_code d = c.
Proof.
  intros [_ Hrooms]. unfold getRoomData.
  destruct (rooms st !! c) as [room|] eqn:Hroom; [|done].
  intros [= <-]. by destruct (Hrooms _ _ Hroom) as (Hcode & _).
Qed.

Ltac snapshot_cases H Hpay :=
  simpl in H; event_cases H; simpl in Hpay; simplify_eq;
  eexists _, _; unfold roomUpdated, getRoomData; simpl;
  rewrite !lookup_insert_eq; (split_and!; [done..|set_solver]).

(** X12: every snapshot the server sends describes the state the handler
    leaves behind.  An event that carries a snapshot is broadcast to the
    group of one room, the snapshot is the one [getRoomData] gives for that
    room in the state after the handler, never an earlier one and never that
    of another room, and it is never [null]; the event is one of
    [roomUpdated], [gameStarted], [discussionStarted], [roundResults] and
    [roundAdvanced]. *)
Theorem snapshots_current (st : State) (i : Input) (ev : Event)
    (data : option RoomData) :
  ev ∈ (handle st i).2 → ev_payload ev = PRoomData data →
  ∃ c d,
    ev_to ev = ToRoom c ∧ data = Some d
    ∧ getRoomData (step st i) c = Some d
    ∧ (reachable st → rd_code d = c)
    ∧ ev_name ev ∈ ["roomUpdated"; "gameStarted"; "discussionStarted";
                    "roundResults"; "roundAdvanced"].
Proof.
  intros Hev Hpay.
  cut (∃ c d, ev_to ev = ToRoom c ∧ data = Some d
         ∧ getRoomData (step st i) c = Some d
         ∧ ev_name ev ∈ ["roomUpdated"; "gameStarted"; "discussionStarted";
                         "roundResults"; "roundAdvanced"]).
  { intros (c & d & Hto & -> & Hd & Hname). exists c, d.
    split_and!; try done. intros Hreach.
    apply (getRoomData_code (step st i)); [|done].
    by apply wf_step, reachable_wf. }
  assert (Hleave : ∀ sid, ev ∈ (leaveRoom st sid).2 →
    ∃ c d, ev_to ev = ToRoom c ∧ data = Some d
      ∧ getRoomData (leaveRoom st sid).1 c = Some d
      ∧ ev_name ev ∈ ["roomUpdated"; "gameStarted"; "discussionStarted";
                      "roundResults"; "roundAdvanced"]).
  { intros sid. unfold leaveRoom.
    destruct (getPlayer st sid) as [[pref player]|];
      [|intros H; by apply elem_of_nil in H].
    destruct (rooms st !! Player.room player) as [room|];
      [|intros H; by apply elem_of_nil in H].
    case_decide; intros Hin; [by apply elem_of_nil in Hin|].
    snapshot_cases Hin Hpay. }
  destruct i as [sid playerName roomCode|sid roomCode playerName
    |sid rnd1 rnd2|sid|sid target|sid|sid target|sid|sid];
    unfold step; simpl in *.
  - unfold createRoom in *. snapshot_cases Hev Hpay.
  - unfold joinRoom in *.
    destruct (rooms st !! roomCode) as [room|].
    + repeat case_decide; simpl in *; event_cases Hev; simpl in Hpay;
        simplify_eq.
      eexists _, _; unfold roomUpdated, getRoomData; simpl;
        rewrite !lookup_insert_eq.
      split_and!; [done..|set_solver].
    + simpl in *. event_cases Hev. done.
  - unfold startGame in *.
    destruct (getPlayer st sid) as [[pref player]|];
      [|by apply elem_of_nil in Hev].
    destruct (rooms st !! Player.room player) as [room|];
      [|by apply elem_of_nil in Hev].
    case_decide; [by apply elem_of_nil in Hev|].
    destruct (WORD_PAIRS !! _) as [wp|]; [|by apply elem_of_nil in Hev].
    destruct (assignRoles _ _ _ _ _ _ _) as [[h rp] pls].
    snapshot_cases Hev Hpay.
  - unfold playerReady in *.
    destruct (getPlayer st sid) as [[pref player]|];
      [|by apply elem_of_nil in Hev].
    destruct (rooms st !! Player.room player) as [room|];
      [|by apply elem_of_nil in Hev].
    case_match; snapshot_cases Hev Hpay.
  - unfold submitVote in *.
    destruct (getPlayer st sid) as [[pref player]|];
      [|by apply elem_of_nil in Hev].
    destruct (rooms st !! Player.room player) as [room|];
      [|by apply elem_of_nil in Hev].
    case_decide; [by apply elem_of_nil in Hev|].
    case_decide; [|simpl in Hev; event_cases Hev; done].
    snapshot_cases Hev Hpay.
  - unfold nextRound in *.
    destruct (getPlayer st sid) as [[pref player]|];
      [|by apply elem_of_nil in Hev].
    destruct (rooms st !! Player.room player) as [room|];
      [|by apply elem_of_nil in Hev].
    case_decide; [by apply elem_of_nil in Hev|].
    snapshot_cases Hev Hpay.
  - unfold revealRole in *.
    destruct (getPlayer st sid) as [[pref player]|];
      [|by apply elem_of_nil in Hev].
    destruct (rooms st !! Player.room player) as [room|];
      [|by apply elem_of_nil in Hev].
    case_decide; simpl in Hev; event_cases Hev; done.
  - by apply Hleave.
  - rewrite <- leaveRoom_eq_disconnect in *. by apply Hleave.
Qed.

Lemma snapshots_current_witness :
  ∃ d, getRoomData (step lobby3 (PlayerReady "B")) "X" = Some d
       ∧ rd_code d = "X".
Proof.
  destruct (snapshots_current lobby3 (PlayerReady "B")
              (roomUpdated (step lobby3 (PlayerReady "B")) "X")
              (getRoomData (step lobby3 (PlayerReady "B")) "X"))
    as (c & d & Hto & _ & Hget & Hcode & _);
    [vm_compute; left|reflexivity|].
  injection Hto as <-. exists d. split; [exact Hget|].
  apply Hcode, reachable_fresh_reachable, lobby3_fresh.
Defined.

(** ** Entering a second room *)

(** X13: neither [createRoom] nor [joinRoom] looks at the room the caller is
    already in.  When a member of room [X] creates or successfully joins
    another room, [X] is left exactly as it was and still lists the caller
    with its old player object, while the caller's entry in the global
    players now points to the new room.  A [leaveRoom] right after that
    removes the caller from the new room only: in the state it leaves, [X]
    still lists the caller, who has no entry in the global players, and in
    that state a [startGame], [playerReady], [submitVote], [nextRound],
    [revealRole] or [leaveRoom] of this socket changes nothing and emits
    nothing.  (The entry can come back: see [ghost_registered_again].) *)
Theorem second_room_leaves_ghost (st : State) (i : Input)
    (sid playerName roomCode : string) (pref : nat) (player : Player.t)
    (room : Room.t) :
  getPlayer st sid = Some (pref, player) →
  rooms st !! Player.room player = Some room →
  JsMap.get sid (Room.players room) = Some pref →
  roomCode ≠ Player.room player →
  (i = CreateRoom sid playerName roomCode
   ∨ (i = JoinRoom sid roomCode playerName
      ∧ ∃ room2, rooms st !! roomCode = Some room2
          ∧ (Z.of_nat (JsMap.size (Room.players room2))
             < Room.maxPlayers room2)%Z
          ∧ Room.gameState room2 = lobby)) →
  let st1 := step st i in
  let st2 := step st1 (LeaveRoom sid) in
  rooms st1 !! Player.room player = Some room
  ∧ member (heap st1) room sid = Some player
  ∧ getPlayer st1 sid
    = Some (length (heap st), newPlayer sid playerName roomCode)
  ∧ rooms st2 !! Player.room player = Some room
  ∧ member (heap st2) room sid = Some player
  ∧ players st2 !! sid = None
  ∧ (∀ r, rooms st2 !! roomCode = Some r →
          JsMap.get sid (Room.players r) = None)
  ∧ (∀ rnd1 rnd2, startGame st2 sid rnd1 rnd2 = (st2, []))
  ∧ playerReady st2 sid = (st2, [])
  ∧ (∀ target, submitVote st2 sid target = (st2, []))
  ∧ nextRound st2 sid = (st2, [])
  ∧ (∀ target, revealRole st2 sid target = (st2, []))
  ∧ leaveRoom st2 sid = (st2, []).
Proof.
  intros Hgp Hroom Hget Hne Hi st1 st2.
  pose proof Hgp as [Hsid Hp]%getPlayer_Some.
  assert (Hst1 : ∃ r1,
    st1 = mkState (<[roomCode := r1]> (rooms st))
            (<[sid := length (heap st)]> (players st))
            (heap st ++ [newPlayer sid playerName roomCode])
    ∧ ∃ ps, Room.players r1 = JsMap.set sid (length (heap st)) ps).
  { destruct Hi as [->|(-> & room2 & Hroom2 & Hsize & Hphase)].
    - eexists. split; [reflexivity|]. by exists [].
    - unfold st1, step. simpl.
      rewrite (joinRoom_success _ _ _ _ _ Hroom2 Hsize Hphase). simpl.
      eexists. split; [reflexivity|]. by eexists. }
  destruct Hst1 as (r1 & Est1 & ps & Hps).
  assert (Hgp1 : getPlayer st1 sid
                 = Some (length (heap st), newPlayer sid playerName roomCode)).
  { apply getPlayer_Some. rewrite Est1. simpl. rewrite lookup_insert_eq.
    split; [done|]. rewrite lookup_app_r by lia.
    by rewrite Nat.sub_diag. }
  assert (Hroom1 : rooms st1 !! roomCode = Some r1).
  { rewrite Est1. simpl. by rewrite lookup_insert_eq. }
  assert (Hmem : ∀ h', heap_rel eq (heap st) h' →
                       member h' room sid = Some player).
  { intros h' Hrel. apply member_Some. exists pref. split; [done|].
    by destruct (Hrel _ _ Hp) as (p' & Hp' & <-). }
  assert (Hrel1 : heap_rel eq (heap st) (heap st1)).
  { rewrite Est1. simpl. intros q p Hq. exists p. split; [|done].
    by apply lookup_app_l_Some. }
  assert (Est2 : heap st2 = heap st1 ∧ players st2 = delete sid (players st1)
    ∧ rooms st2 !! Player.room player = Some room
    ∧ ∀ r, rooms st2 !! roomCode = Some r →
           JsMap.get sid (Room.players r) = None).
  { unfold st2, step. simpl.
    rewrite (leaveRoom_run _ _ _ _ _ Hgp1 Hroom1). simpl.
    case_decide; simpl.
    - split_and!; [done..| |].
      + rewrite lookup_delete_ne by done. rewrite Est1. simpl.
        by rewrite lookup_insert_ne.
      + intros r. by rewrite lookup_delete_eq.
    - split_and!; [done..| |].
      + rewrite lookup_insert_ne by done. rewrite Est1. simpl.
        by rewrite lookup_insert_ne.
      + intros r. rewrite lookup_insert_eq. intros [= <-].
        case_decide; simpl; apply get_delete_eq. }
  destruct Est2 as (Eh2 & Ep2 & Hroom2 & Hleft).
  assert (Hnone : getPlayer st2 sid = None).
  { unfold getPlayer. by rewrite Ep2, lookup_delete_eq. }
  destruct (guarded_handlers_skip st2 sid (or_introl Hnone))
    as (H1 & H2 & H3 & H4 & H5 & H6).
  split_and!; try done.
  - rewrite Est1. simpl. by rewrite lookup_insert_ne.
  - by apply Hmem.
  - apply Hmem. by rewrite Eh2.
  - by rewrite Ep2, lookup_delete_eq.
Qed.

(** The caller is without an entry only until something stores one: Bob
    has left for a second room and left that one; when Alice, the host of X,
    starts the game, the loop over the members of X stores Bob's old object
    under his id in the global players again, and his [playerReady] is
    handled. *)
Lemma ghost_registered_again :
  let st2 := run lobby3 [CreateRoom "B" "bob" "Y"; LeaveRoom "B"] in
  let st3 := step st2 (StartGame "A" (0 # 1) (3 # 4)) in
  players st2 !! "B" = None
  ∧ players st3 !! "B" = Some 1
  ∧ (ev_name <$> (playerReady st3 "B").2) = ["roomUpdated"].
Proof. vm_compute. done. Qed.

Lemma second_room_leaves_ghost_witness :
  let st2 := run lobby3 [CreateRoom "B" "bob" "Y"; LeaveRoom "B"] in
  (JsMap.keys ∘ Room.players <$> rooms st2 !! "X") = Some ["A"; "B"; "C"]
  ∧ players st2 !! "B" = None
  ∧ rooms st2 !! "Y" = None
  ∧ playerReady st2 "B" = (st2, []).
Proof.
  intros st2.
  destruct (second_room_leaves_ghost lobby3 (CreateRoom "B" "bob" "Y")
              "B" "bob" "Y" 1 (newPlayer "B" "bob" "X")
              (Room.mk "X" [("A", 0); ("B", 1); ("C", 2)] lobby 1 6 "A" None
                 [] [] None))
    as (_ & _ & _ & Hroom & _ & Hsid & _ & _ & Hready & _);
    [reflexivity..|discriminate|by left|].
  split_and!.
  - unfold st2. simpl run. simpl in Hroom. by rewrite Hroom.
  - exact Hsid.
  - reflexivity.
  - exact Hready.
Defined.

(** ** Readiness during a round *)

Lemma member_in_members h r k p : member h r k = Some p → p ∈ members h r.
Proof.
  intros (pref & Hget & Hp)%member_Some. unfold members.
  apply list_elem_of_omap. exists pref. split; [|done].
  apply list_elem_of_fmap. exists (k, pref). split; [done|].
  by apply get_Some_elem.
Qed.

Lemma ready_rooms_update st c room' h' :
  wf st →
  (∀ c0 r0, rooms st !! c0 = Some r0 → ready_ok (heap st) r0) →
  heap_frame c (heap st) h' →
  ready_ok h' room' →
  ∀ c0 r0, <[c := room']> (rooms st) !! c0 = Some r0 → ready_ok h' r0.
Proof.
  intros [_ Hrooms] Hok Hfr Hroom' c0 r0.
  destruct (decide (c0 = c)) as [->|Hne].
  - rewrite lookup_insert_eq. by intros [= <-].
  - rewrite lookup_insert_ne by done. intros H0 Hphase k p.
    rewrite (member_frame (heap st) h' c r0 c0 k);
      [by apply (Hok _ _ H0)|by apply Hrooms|done..].
Qed.

Lemma ready_ok_other h r :
  Room.gameState r = lobby ∨ Room.gameState r = assigning → ready_ok h r.
Proof. intros [E|E] [H|H]; congruence. Qed.

Lemma ready_ok_sub h h' r r' :
  (∀ k p', member h' r' k = Some p' →
     ∃ p, member h r k = Some p ∧ Player.isReady p' = Player.isReady p) →
  Room.gameState r' = Room.gameState r →
  ready_ok h r → ready_ok h' r'.
Proof.
  intros Hsub Hphase Hok Hp k p' Hm. rewrite Hphase in Hp.
  destruct (Hsub _ _ Hm) as (p & Hm0 & ->). by eapply Hok.
Qed.

Lemma ready_step st i :
  wf st →
  (∀ c r, rooms st !! c = Some r → ready_ok (heap st) r) →
  ∀ c r, rooms (step st i) !! c = Some r → ready_ok (heap (step st i)) r.
Proof.
  intros Hwf Hall. pose proof Hwf as [_ Hrooms]. unfold step.
  assert (Hleave : ∀ sid c r,
            rooms (leaveRoom st sid).1 !! c = Some r →
            ready_ok (heap (leaveRoom st sid).1) r).
  { intros sid. caller_cases st sid;
      [|destruct Hskip as (_ & _ & _ & _ & _ & E); by rewrite E..].
    rewrite (leaveRoom_run _ _ _ _ _ Hgp Hroom).
    case_decide as Hsize; simpl.
    - intros c r [_ H]%lookup_delete_Some. by eapply Hall.
    - apply ready_rooms_update; [done..|apply heap_frame_refl|].
      eapply (ready_ok_sub (heap st) _ room);
        [|by case_decide|exact (Hall _ _ Hroom)].
      intros k p' (pref' & Hget & Hp')%member_Some.
      exists p'. split; [|done]. apply member_Some. exists pref'.
      split; [|done].
      assert (Hget' : JsMap.get k (JsMap.delete sid (Room.players room))
                      = Some pref') by (by case_decide).
      destruct (decide (sid = k)) as [->|Hne].
      + by rewrite get_delete_eq in Hget'.
      + by rewrite get_delete_ne in Hget'. }
  destruct i as [sid playerName roomCode|sid roomCode playerName
    |sid rnd1 rnd2|sid|sid target|sid|sid target|sid|sid]; simpl.
  - (* createRoom *)
    apply ready_rooms_update; [done..|apply heap_frame_app|].
    apply ready_ok_other. by left.
  - (* joinRoom *)
    destruct (rooms st !! roomCode) as [room|] eqn:Hroom;
      [|by rewrite joinRoom_not_found].
    destruct (decide (Room.maxPlayers room
                      ≤ Z.of_nat (JsMap.size (Room.players room)))%Z).
    { by rewrite (joinRoom_full _ _ _ _ room). }
    destruct (decide (Room.gameState room = lobby)) as [Hphase|Hphase];
      [|by rewrite (joinRoom_in_progress _ _ _ _ room) by (done || lia)].
    rewrite (joinRoom_success _ _ _ _ room) by (done || lia). simpl.
    apply ready_rooms_update; [done..|apply heap_frame_app|].
    apply ready_ok_other. by left.
  - (* startGame *)
    caller_cases st sid;
      [|destruct Hskip as (E & _); by rewrite E in *..].
    destruct (decide (Room.hostId room = sid)) as [Hhost|Hhost]; cycle 1.
    { destruct (host_handlers_skip _ _ _ _ _ Hgp Hroom Hhost) as (E & _).
      by rewrite E. }
    destruct (WORD_PAIRS !! Z.to_nat (random_index rnd2 (length WORD_PAIRS)))
      as [wp|] eqn:Hwp; cycle 1.
    { unfold startGame. rewrite Hgp, Hroom.
      rewrite decide_False by (intros H; by apply H). by rewrite Hwp. }
    rewrite (startGame_run _ _ _ _ _ _ _ _ Hgp Hroom Hhost Hwp). simpl.
    rewrite assignRoles_heap.
    apply ready_rooms_update; [done..| |].
    { eapply room_loop_frame; [by apply Hrooms|apply imap_fst_refs]. }
    apply ready_ok_other. by right.
  - (* playerReady *)
    caller_cases st sid;
      [|destruct Hskip as (_ & E & _); by rewrite E in *..].
    rewrite (playerReady_run _ _ _ _ _ Hgp Hroom). simpl.
    pose proof Hgp as [Hsid Hp]%getPlayer_Some.
    pose proof (Hrooms _ _ Hroom) as Hrwf.
    apply ready_rooms_update; [done..| |].
    { eapply heap_frame_insert; [done|].
      destruct (decide (Player.room player = Player.room player)); done. }
    set (h' := <[pref := Player.set_isReady true player]> (heap st)).
    set (room1 := Room.set_players (JsMap.set sid pref (Room.players room))
                    room).
    destruct (forallb Player.isReady (members h' room1)) eqn:Hb.
    + intros _ k p Hm. apply forallb_isReady in Hb.
      rewrite Forall_forall in Hb. apply Hb.
      by apply (member_in_members h' _ k).
    + intros Hphase k p (pref' & Hget & Hp')%member_Some. simpl in Hget.
      destruct (decide (pref' = pref)) as [->|Hne].
      * unfold h' in Hp'.
        rewrite list_lookup_insert_eq in Hp' by (by eapply lookup_lt_Some).
        by simplify_eq.
      * unfold h' in Hp'. rewrite list_lookup_insert_ne in Hp' by done.
        destruct (decide (k = sid)) as [->|Hk].
        { rewrite get_set_eq in Hget. by simplify_eq. }
        rewrite get_set_ne in Hget by done.
        apply (Hall _ _ Hroom Hphase k). apply member_Some. eauto.
  - (* submitVote *)
    caller_cases st sid;
      [|destruct Hskip as (_ & _ & E & _); by rewrite E in *..].
    destruct (decide (Room.gameState room = discussion)) as [Hphase|Hphase];
      [|by rewrite (submitVote_skip _ _ _ _ _ _ Hgp Hroom Hphase)].
    rewrite (submitVote_run _ _ _ _ _ _ Hgp Hroom Hphase).
    pose proof (Hrooms _ _ Hroom) as Hrwf.
    case_decide; simpl.
    + apply ready_rooms_update; [done..| |].
      { rewrite forEachPlayer_updateAll.
        eapply room_loop_frame; [done|apply fmap_fst_refs]. }
      intros _ k p' Hm. erewrite member_forEach in Hm by done.
      destruct (member (heap st) room k) as [p|] eqn:Hmk; [|done].
      simpl in Hm. simplify_eq. rewrite updateScore_fields.
      apply (Hall _ _ Hroom (or_introl Hphase) k). done.
    + apply ready_rooms_update; [done..|apply heap_frame_refl|].
      eapply (ready_ok_sub (heap st) _ room);
      [|done|exact (Hall _ _ Hroom)]. eauto.
  - (* nextRound *)
    caller_cases st sid;
      [|destruct Hskip as (_ & _ & _ & E & _); by rewrite E in *..].
    destruct (decide (Room.hostId room = sid)) as [Hhost|Hhost]; cycle 1.
    { destruct (host_handlers_skip _ _ _ _ _ Hgp Hroom Hhost) as (_ & E & _).
      by rewrite E. }
    rewrite (nextRound_run _ _ _ _ _ Hgp Hroom Hhost). simpl.
    apply ready_rooms_update; [done..| |].
    { rewrite forEachPlayer_updateAll.
      eapply room_loop_frame; [by apply Hrooms|apply fmap_fst_refs]. }
    apply ready_ok_other. by left.
  - (* revealRole *)
    caller_cases st sid;
      [|destruct Hskip as (_ & _ & _ & _ & E & _); by rewrite E in *..].
    destruct (decide (Room.hostId room = sid)) as [Hhost|Hhost]; cycle 1.
    { destruct (host_handlers_skip _ _ _ _ _ Hgp Hroom Hhost) as (_ & _ & E).
      by rewrite E. }
    rewrite (revealRole_run _ _ _ _ _ _ Hgp Hroom Hhost). simpl.
    apply ready_rooms_update; [done..|apply heap_frame_refl|].
    eapply (ready_ok_sub (heap st) _ room);
      [|done|exact (Hall _ _ Hroom)]. eauto.
  - apply Hleave.
  - rewrite <- leaveRoom_eq_disconnect. apply Hleave.
Qed.

Lemma reachable_ready st c r :
  reachable st → rooms st !! c = Some r → ready_ok (heap st) r.
Proof.
  intros Hreach. revert c r.
  induction Hreach as [|st i Hreach IH _].
  - intros c r H. simpl in H. by rewrite lookup_empty in H.
  - apply ready_step; [by apply reachable_wf|done].
Qed.

Lemma members_member h c r p :
  room_wf h c r → p ∈ members h r → ∃ k, member h r k = Some p.
Proof.
  intros (_ & _ & Hnd & _) (pref & Hin & Hp)%list_elem_of_omap.
  apply list_elem_of_fmap in Hin as ([k pref'] & -> & Hin).
  exists k. apply member_Some. exists pref'. split; [|done].
  by apply elem_get_Some.
Qed.

(** X14: in every reachable state, every member of a room that is under
    discussion or showing results is marked ready: no handler clears the
    mark without leaving these phases.  So the test of [playerReady] for
    "all ready" succeeds there for any caller whose room it is: during a
    discussion the call throws away the votes recorded so far, and after the
    results it puts the room back into discussion with no votes, the stored
    results and word pair, and every score, left as they are. *)
Theorem ready_restarts_discussion (st : State) (sid : string) (pref : nat)
    (player : Player.t) (room : Room.t) :
  reachable st →
  getPlayer st sid = Some (pref, player) →
  rooms st !! Player.room player = Some room →
  Room.gameState room = discussion ∨ Room.gameState room = results →
  let st' := (playerReady st sid).1 in
  (∀ k p, member (heap st) room k = Some p → Player.isReady p = true)
  ∧ ∃ room',
      rooms st' !! Player.room player = Some room'
      ∧ Room.gameState room' = discussion
      ∧ Room.votes room' = []
      ∧ Room.results room' = Room.results room
      ∧ Room.wordPair room' = Room.wordPair room
      ∧ Room.round room' = Room.round room
      ∧ member (heap st') room' sid = Some (Player.set_isReady true player)
      ∧ (∀ k p, k ≠ sid → member (heap st) room k = Some p →
           ∃ p', member (heap st') room' k = Some p'
                 ∧ Player.score p' = Player.score p
                 ∧ Player.role p' = Player.role p)
      ∧ (playerReady st sid).2
        = [mkEvent (ToRoom (Player.room player)) "discussionStarted"
             (PRoomData (getRoomData st' (Player.room player)))].
Proof.
  intros Hreach Hgp Hroom Hphase st'.
  pose proof (reachable_ready _ _ _ Hreach Hroom Hphase) as Hready.
  split; [done|].
  set (h' := <[pref := Player.set_isReady true player]> (heap st)).
  set (room1 := Room.set_players (JsMap.set sid pref (Room.players room))
                  room).
  assert (Hreach' : reachable (step st (PlayerReady sid)))
    by (by constructor).
  pose proof (reachable_wf _ Hreach') as [_ Hrooms'].
  pose proof (playerReady_run _ _ _ _ _ Hgp Hroom) as Hrun.
  simpl in Hrun. fold h' room1 in Hrun.
  assert (Hb : forallb Player.isReady (members h' room1) = true).
  { destruct (forallb Player.isReady (members h' room1)) eqn:Hb; [done|].
    assert (Hroom1 : rooms (step st (PlayerReady sid))
                       !! Player.room player = Some room1).
    { unfold step. simpl. rewrite Hrun. simpl. by rewrite lookup_insert_eq. }
    pose proof (reachable_ready _ _ _ Hreach' Hroom1 Hphase) as Hready1.
    pose proof (Hrooms' _ _ Hroom1) as Hrwf1.
    assert (Eh : heap (step st (PlayerReady sid)) = h').
    { unfold step. simpl. by rewrite Hrun. }
    rewrite Eh in Hready1, Hrwf1.
    assert (Hall : forallb Player.isReady (members h' room1) = true).
    { apply forallb_isReady, Forall_forall. intros p Hin.
      destruct (members_member _ _ _ _ Hrwf1 Hin) as [k Hk].
      by apply (Hready1 k). }
    congruence. }
  assert (Hev : playerReady st sid
    = (let st' :=
         mkState
           (<[Player.room player :=
                Room.set_votes [] (Room.set_gameState discussion room1)]>
              (rooms st)) (players st) h' in
       (st', [mkEvent (ToRoom (Player.room player)) "discussionStarted"
                (PRoomData (getRoomData st' (Player.room player)))]))).
  { unfold playerReady. rewrite Hgp, Hroom. fold h' room1. by rewrite Hb. }
  unfold st'. rewrite Hev. simpl. rewrite lookup_insert_eq.
  pose proof Hgp as [Hsid Hpl]%getPlayer_Some.
  assert (Hnew : h' !! pref = Some (Player.set_isReady true player)).
  { unfold h'. by rewrite list_lookup_insert_eq by (by eapply lookup_lt_Some). }
  eexists. split_and!; try done.
  - apply member_Some. simpl. exists pref. by rewrite get_set_eq.
  - intros k p Hk (pref' & Hget & Hp)%member_Some.
    destruct (decide (pref' = pref)) as [->|Hne].
    + assert (p = player) as -> by congruence.
      exists (Player.set_isReady true player). split; [|done].
      apply member_Some. simpl. exists pref. by rewrite get_set_ne.
    + exists p. split; [|done]. apply member_Some. simpl. exists pref'.
      rewrite get_set_ne by done. split; [done|].
      unfold h'. by rewrite list_lookup_insert_ne.
Qed.

Lemma ready_restarts_discussion_witness :
  ∃ room',
    rooms (playerReady results3 "B").1 !! "X" = Some room'
    ∧ Room.gameState room' = discussion
    ∧ Room.votes room' = []
    ∧ Room.results room'
      = Some (mkResults (Some "B") (Some false) [("B", 2); ("C", 1)]).
Proof.
  destruct (ready_restarts_discussion results3 "B" 1
              (Player.mk "B" "bob" "X" (Some signal) (Some "Password") true 0)
              (Room.mk "X" [("A", 0); ("B", 1); ("C", 2)] results 1 6 "A"
                 (Some (mkWordPair "Spy" "Password"))
                 [("A", "B"); ("B", "C"); ("C", "B")] []
                 (Some (mkResults (Some "B") (Some false)
                          [("B", 2); ("C", 1)]))))
    as (_ & room' & Hroom' & Hphase & Hvotes & Hres & _);
    [apply reachable_fresh_reachable, results3_fresh
    |reflexivity|reflexivity|by right|].
  exists room'. split_and!; [exact Hroom'|exact Hphase|exact Hvotes|].
  exact Hres.
Defined.

(** ** The range of the scores *)

Lemma updateAll_Forall (P : Player.t → Prop) fs : ∀ h,
  (∀ pref f, (pref, f) ∈ fs → ∀ p, P p → P (f p)) →
  Forall P h → Forall P (updateAll fs h).
Proof.
  induction fs as [|[pref f] fs IH]; intros h Hfs Hh; simpl; [done|].
  assert (Hrest : ∀ pref' f', (pref', f') ∈ fs → ∀ p, P p → P (f' p)).
  { intros pref' f' Hin. apply (Hfs pref' f'). by right. }
  destruct (h !! pref) as [p|] eqn:Hp; [|by apply IH].
  apply IH; [done|]. apply Forall_insert; [done|].
  apply (Hfs pref f); [by left|].
  rewrite Forall_forall in Hh. apply Hh. by eapply list_elem_of_lookup_2.
Qed.

Lemma updateScore_score_ok sc p : score_ok p → score_ok (updateScore sc p).
Proof.
  intros [H0 [q Hq]]. unfold score_ok. rewrite updateScore_score.
  destruct (truthy sc); case_decide.
  - split; [lia|]. exists (q + 1)%Z. lia.
  - split; [lia|]. exists q. lia.
  - split; [lia|]. exists (q + 2)%Z. lia.
  - split; [lia|]. exists q. lia.
Qed.

Lemma score_ok_0 sid playerName roomCode :
  score_ok (Player.mk sid playerName roomCode None None false 0).
Proof. split; simpl; [lia|]. by exists 0%Z. Qed.

Lemma score_step st i :
  Forall score_ok (heap st) → Forall score_ok (heap (step st i)).
Proof.
  intros Hall. unfold step.
  assert (Hleave : ∀ sid, Forall score_ok (heap (leaveRoom st sid).1)).
  { intros sid. caller_cases st sid;
      [|destruct Hskip as (_ & _ & _ & _ & _ & E); by rewrite E..].
    rewrite (leaveRoom_run _ _ _ _ _ Hgp Hroom). by case_decide. }
  destruct i as [sid playerName roomCode|sid roomCode playerName
    |sid rnd1 rnd2|sid|sid target|sid|sid target|sid|sid]; simpl.
  - apply Forall_app. split; [done|]. constructor; [|done]. apply score_ok_0.
  - destruct (rooms st !! roomCode) as [room|] eqn:Hroom;
      [|by rewrite joinRoom_not_found].
    destruct (decide (Room.maxPlayers room
                      ≤ Z.of_nat (JsMap.size (Room.players room)))%Z).
    { by rewrite (joinRoom_full _ _ _ _ room). }
    destruct (decide (Room.gameState room = lobby)) as [Hphase|Hphase];
      [|by rewrite (joinRoom_in_progress _ _ _ _ room) by (done || lia)].
    rewrite (joinRoom_success _ _ _ _ room) by (done || lia). simpl.
    apply Forall_app. split; [done|]. constructor; [|done]. apply score_ok_0.
  - caller_cases st sid;
      [|destruct Hskip as (E & _); by rewrite E in *..].
    destruct (decide (Room.hostId room = sid)) as [Hhost|Hhost]; cycle 1.
    { destruct (host_handlers_skip _ _ _ _ _ Hgp Hroom Hhost) as (E & _).
      by rewrite E. }
    destruct (WORD_PAIRS !! Z.to_nat (random_index rnd2 (length WORD_PAIRS)))
      as [wp|] eqn:Hwp; cycle 1.
    { unfold startGame. rewrite Hgp, Hroom.
      rewrite decide_False by (intros H; by apply H). by rewrite Hwp. }
    rewrite (startGame_run _ _ _ _ _ _ _ _ Hgp Hroom Hhost Hwp). simpl.
    rewrite assignRoles_heap. apply updateAll_Forall; [|done].
    intros pref' f (j & x & [= -> ->] & _)%elem_of_lookup_imap p Hp.
    unfold score_ok.
    match goal with
    | |- context [Player.score (assignRole ?w ?s ?n p)] =>
        by destruct (assignRole_fields w s n p) as (_ & _ & _ & ->)
    end.
  - caller_cases st sid;
      [|destruct Hskip as (_ & E & _); by rewrite E in *..].
    rewrite (playerReady_run _ _ _ _ _ Hgp Hroom). simpl.
    apply Forall_insert; [done|].
    apply getPlayer_Some in Hgp as [_ Hp].
    rewrite Forall_forall in Hall. apply (Hall player).
    by eapply list_elem_of_lookup_2.
  - caller_cases st sid;
      [|destruct Hskip as (_ & _ & E & _); by rewrite E in *..].
    destruct (decide (Room.gameState room = discussion)) as [Hphase|Hphase];
      [|by rewrite (submitVote_skip _ _ _ _ _ _ Hgp Hroom Hphase)].
    rewrite (submitVote_run _ _ _ _ _ _ Hgp Hroom Hphase).
    case_decide; simpl; [|done].
    rewrite forEachPlayer_updateAll. apply updateAll_Forall; [|done].
    intros pref' f (x & [= -> ->] & _)%list_elem_of_fmap p.
    apply updateScore_score_ok.
  - caller_cases st sid;
      [|destruct Hskip as (_ & _ & _ & E & _); by rewrite E in *..].
    destruct (decide (Room.hostId room = sid)) as [Hhost|Hhost]; cycle 1.
    { destruct (host_handlers_skip _ _ _ _ _ Hgp Hroom Hhost) as (_ & E & _).
      by rewrite E. }
    rewrite (nextRound_run _ _ _ _ _ Hgp Hroom Hhost). simpl.
    rewrite forEachPlayer_updateAll. apply updateAll_Forall; [|done].
    by intros pref' f (x & [= -> ->] & _)%list_elem_of_fmap p.
  - caller_cases st sid;
      [|destruct Hskip as (_ & _ & _ & _ & E & _); by rewrite E in *..].
    destruct (decide (Room.hostId room = sid)) as [Hhost|Hhost]; cycle 1.
    { destruct (host_handlers_skip _ _ _ _ _ Hgp Hroom Hhost) as (_ & _ & E).
      by rewrite E. }
    by rewrite (revealRole_run _ _ _ _ _ _ Hgp Hroom Hhost).
  - apply Hleave.
  - rewrite <- leaveRoom_eq_disconnect. apply Hleave.
Qed.

(** X15: the only amounts the server ever adds to a score are 100 and 200,
    and it never subtracts: in every reachable state the score of every
    player object, and so every score shown in a snapshot, is a multiple of
    100 that is not negative. *)
Theorem scores_multiple_of_100 (st : State) (c : string) (data : RoomData)
    (pd : PlayerData) :
  reachable st → getRoomData st c = Some data → pd ∈ rd_players data →
  (0 ≤ pd_score pd)%Z ∧ (100 | pd_score pd)%Z.
Proof.
  intros Hreach Hdata Hpd.
  assert (Hall : Forall score_ok (heap st)).
  { clear Hdata Hpd. induction Hreach as [|st i Hreach IH _]; [constructor|].
    by apply score_step. }
  unfold getRoomData in Hdata.
  destruct (rooms st !! c) as [room|]; [|done]. simplify_eq. simpl in Hpd.
  apply list_elem_of_fmap in Hpd as (p & -> & Hp). simpl.
  unfold members in Hp. apply list_elem_of_omap in Hp as (pref & _ & Hp).
  rewrite Forall_forall in Hall. apply (Hall p).
  by eapply list_elem_of_lookup_2.
Qed.

Lemma scores_multiple_of_100_witness :
  (0 ≤ 200)%Z ∧ (100 | 200)%Z.
Proof.
  apply (scores_multiple_of_100 results3 "X"
           (roomData (heap results3)
              (Room.mk "X" [("A", 0); ("B", 1); ("C", 2)] results 1 6 "A"
                 (Some (mkWordPair "Spy" "Password"))
                 [("A", "B"); ("B", "C"); ("C", "B")] []
                 (Some (mkResults (Some "B") (Some false)
                          [("B", 2); ("C", 1)]))))
           (mkPlayerData "A" "alice" true 200 (Some shadow) (Some "Spy")));
    [apply reachable_fresh_reachable, results3_fresh|reflexivity
    |vm_compute; left].
Defined.

(** ** The words of a round *)

Lemma WORD_PAIRS_differ wp : wp ∈ WORD_PAIRS → wp_shadow wp ≠ wp_signal wp.
Proof.
  unfold WORD_PAIRS. rewrite !elem_of_cons, elem_of_nil.
  intros H. repeat (destruct H as [->|H]; [done|]). done.
Qed.

(** X16: in the catalogue the two words of a pair are never the same, and
    [startGame] hands out the words of one pair only.  So after a successful
    [startGame] the word of a member tells its role: the members of the room
    hold the odd word of the stored pair exactly when they are the shadow and
    the common word exactly when they are a signal, and two members hold the
    same word exactly when they have the same role. *)
Theorem startGame_words (st : State) (sid : string) (rnd1 rnd2 : Q)
    (pref : nat) (player : Player.t) (room : Room.t) :
  reachable st → unit_interval rnd1 → unit_interval rnd2 →
  getPlayer st sid = Some (pref, player) →
  rooms st !! Player.room player = Some room →
  Room.hostId room = sid →
  let st' := (startGame st sid rnd1 rnd2).1 in
  ∃ room' wp,
    rooms st' !! Player.room player = Some room'
    ∧ Room.wordPair room' = Some wp
    ∧ wp ∈ WORD_PAIRS
    ∧ wp_shadow wp ≠ wp_signal wp
    ∧ (∀ k p, member (heap st') room' k = Some p →
         (Player.role p = Some shadow ∧ Player.word p = Some (wp_shadow wp))
         ∨ (Player.role p = Some signal
            ∧ Player.word p = Some (wp_signal wp)))
    ∧ ∀ k1 k2 p1 p2,
        member (heap st') room' k1 = Some p1 →
        member (heap st') room' k2 = Some p2 →
        (Player.word p1 = Player.word p2 ↔ Player.role p1 = Player.role p2).
Proof.
  intros Hreach Hrnd1 Hrnd2 Hgp Hroom Hhost st'.
  pose proof (reachable_wf _ Hreach) as Hwf.
  destruct (startGame_assigns _ _ _ _ _ _ _ Hwf Hrnd1 Hrnd2 Hgp Hroom Hhost)
    as (wp & i & Hwp & _ & Hrooms' & Hmem & _).
  fold st' in Hrooms', Hmem.
  pose proof (WORD_PAIRS_differ _ Hwp) as Hdiff.
  assert (Hmember : ∀ k p,
    member (heap st')
      (Room.set_gameState assigning (Room.set_wordPair (Some wp) room)) k
    = Some p →
    (Player.role p = Some shadow ∧ Player.word p = Some (wp_shadow wp))
    ∨ (Player.role p = Some signal ∧ Player.word p = Some (wp_signal wp))).
  { intros k p (pref' & Hget & Hp')%member_Some. simpl in Hget.
    apply get_Some_elem, list_elem_of_lookup in Hget as [j Hj].
    destruct (Hmem _ _ _ Hj) as (q & Hq & Hq'). rewrite Hq' in Hp'.
    simplify_eq.
    destruct (assignRole_fields wp (Z.of_nat i) j q) as (-> & -> & _).
    case_decide; auto. }
  eexists _, wp. rewrite Hrooms', lookup_insert_eq.
  split_and!; [done..|].
  intros k1 k2 p1 p2 H1 H2.
  destruct (Hmember _ _ H1) as [[-> ->]|[-> ->]],
           (Hmember _ _ H2) as [[-> ->]|[-> ->]];
    split; try done; intros [=]; congruence.
Qed.

Lemma startGame_words_witness :
  ∃ room' wp,
    rooms started3 !! "X" = Some room'
    ∧ Room.wordPair room' = Some wp
    ∧ wp_shadow wp ≠ wp_signal wp.
Proof.
  destruct (startGame_words lobby3 "A" (0 # 1) (3 # 4) 0
              (newPlayer "A" "alice" "X")
              (Room.mk "X" [("A", 0); ("B", 1); ("C", 2)] lobby 1 6 "A" None
                 [] [] None))
    as (room' & wp & Hroom' & Hpair & _ & Hdiff & _);
    [apply reachable_fresh_reachable, lobby3_fresh
    |apply unit_interval_0|apply unit_interval_3_4|reflexivity..|].
  exists room', wp. split_and!; [exact Hroom'|exact Hpair|exact Hdiff].
Defined.

(** ** The phases of a room *)

Lemma phase_ok_fields r r' :
  Room.gameState r' = Room.gameState r → Room.votes r' = Room.votes r →
  Room.wordPair r' = Room.wordPair r → Room.results r' = Room.results r →
  phase_ok r → phase_ok r'.
Proof. unfold phase_ok. by intros -> -> -> ->. Qed.

Lemma tally_of_eliminated votes res :
  tally_of votes res →
  ∃ t n, eliminatedPlayerId res = Some t ∧ (t, n) ∈ voteCount res
         ∧ n = votesFor votes t ∧ 0 < n
         ∧ ∀ t', votesFor votes t' ≤ n.
Proof.
  intros (Hne & -> & ->).
  destruct (first_max_exists (countVotes votes))
    as (l1 & t & n & l2 & E & H1 & H2).
  { by rewrite countVotes_nil. }
  assert (Hin : ∀ t' n', (t', n') ∈ countVotes votes ↔
                (t', n') ∈ l1 ∨ (t', n') = (t, n) ∨ (t', n') ∈ l2).
  { intros t' n'. rewrite E, elem_of_app, elem_of_cons. done. }
  assert (Hn : n = votesFor votes t ∧ n ≠ 0).
  { apply countVotes_elem, Hin. by right; left. }
  destruct Hn as [Hn Hpos].
  exists t, n. split_and!.
  - rewrite E. rewrite mostVotes_first_max; [done|lia|done|done].
  - apply Hin. by right; left.
  - done.
  - lia.
  - intros t'. destruct (decide (votesFor votes t' = 0)) as [->|Hnz]; [lia|].
    assert (Ht' : (t', votesFor votes t') ∈ countVotes votes)
      by (by apply countVotes_elem).
    apply Hin in Ht' as [Ht'|[Ht'|Ht']].
    + rewrite Forall_forall in H1. apply H1 in Ht'. simpl in Ht'. lia.
    + simplify_eq. lia.
    + rewrite Forall_forall in H2. apply H2 in Ht'. simpl in Ht'. lia.
Qed.

Lemma phase_step st i :
  (∀ c r, rooms st !! c = Some r → phase_ok r) →
  ∀ c r, rooms (step st i) !! c = Some r → phase_ok r.
Proof.
  intros Hall. unfold step.
  assert (Hleave : ∀ sid c r,
            rooms (leaveRoom st sid).1 !! c = Some r → phase_ok r).
  { intros sid. caller_cases st sid;
      [|destruct Hskip as (_ & _ & _ & _ & _ & E); by rewrite E..].
    rewrite (leaveRoom_run _ _ _ _ _ Hgp Hroom).
    case_decide as Hsize; simpl.
    - intros c r [_ H]%lookup_delete_Some. by eapply Hall.
    - apply rooms_insert_Forall; [done|].
      eapply (phase_ok_fields room); [by case_decide..|by eapply Hall]. }
  destruct i as [sid playerName roomCode|sid roomCode playerName
    |sid rnd1 rnd2|sid|sid target|sid|sid target|sid|sid]; simpl.
  - apply rooms_insert_Forall; [done|]. by split_and!.
  - destruct (rooms st !! roomCode) as [room|] eqn:Hroom;
      [|by rewrite joinRoom_not_found].
    destruct (decide (Room.maxPlayers room
                      ≤ Z.of_nat (JsMap.size (Room.players room)))%Z).
    { by rewrite (joinRoom_full _ _ _ _ room). }
    destruct (decide (Room.gameState room = lobby)) as [Hphase|Hphase];
      [|by rewrite (joinRoom_in_progress _ _ _ _ room) by (done || lia)].
    rewrite (joinRoom_success _ _ _ _ room) by (done || lia). simpl.
    apply rooms_insert_Forall; [done|].
    eapply (phase_ok_fields room); [done..|by eapply Hall].
  - caller_cases st sid; [|destruct Hskip as (E & _); by rewrite E..].
    destruct (decide (Room.hostId room = sid)) as [Hhost|Hhost]; cycle 1.
    { destruct (host_handlers_skip _ _ _ _ _ Hgp Hroom Hhost) as (E & _).
      by rewrite E. }
    destruct (WORD_PAIRS !! Z.to_nat (random_index rnd2 (length WORD_PAIRS)))
      as [wp|] eqn:Hwp; cycle 1.
    { unfold startGame. rewrite Hgp, Hroom.
      rewrite decide_False by (intros H; by apply H). by rewrite Hwp. }
    rewrite (startGame_run _ _ _ _ _ _ _ _ Hgp Hroom Hhost Hwp). simpl.
    apply rooms_insert_Forall; [done|].
    destruct (Hall _ _ Hroom) as (_ & _ & _ & _ & Hres).
    split_and!; simpl; try done.
    intros wp' [= <-]. by eapply list_elem_of_lookup_2.
  - caller_cases st sid; [|destruct Hskip as (_ & E & _); by rewrite E..].
    rewrite (playerReady_run _ _ _ _ _ Hgp Hroom). simpl.
    apply rooms_insert_Forall; [done|].
    destruct (Hall _ _ Hroom) as (H1 & H2 & H3 & H4 & H5).
    case_match; [by split_and!|].
    eapply (phase_ok_fields room); [done..|by eapply Hall].
  - caller_cases st sid; [|destruct Hskip as (_ & _ & E & _); by rewrite E..].
    destruct (decide (Room.gameState room = discussion)) as [Hphase|Hphase];
      [|by rewrite (submitVote_skip _ _ _ _ _ _ Hgp Hroom Hphase)].
    rewrite (submitVote_run _ _ _ _ _ _ Hgp Hroom Hphase).
    destruct (Hall _ _ Hroom) as (H1 & H2 & H3 & H4 & H5).
    case_decide; simpl; (apply rooms_insert_Forall; [done|]).
    + assert (Ht : tally_of (JsMap.set sid target (Room.votes room))
                     (mkResults
                        (mostVotes
                           (countVotes
                              (JsMap.set sid target (Room.votes room)))).2
                        match
                          (mostVotes
                             (countVotes
                                (JsMap.set sid target (Room.votes room)))).2
                          ≫= λ eid, JsMap.get eid (Room.players room)
                          ≫= λ pref, heap st !! pref
                        with
                        | Some p =>
                            Some (bool_decide (Player.role p = Some shadow))
                        | None => None
                        end
                        (countVotes
                           (JsMap.set sid target (Room.votes room))))).
      { split_and!; [apply set_not_nil|done..]. }
      split_and!; simpl; try done.
      * eexists. split; [done|exact Ht].
      * intros res [= <-]. eexists. exact Ht.
    + split_and!; simpl; try done; congruence.
  - caller_cases st sid;
      [|destruct Hskip as (_ & _ & _ & E & _); by rewrite E..].
    destruct (decide (Room.hostId room = sid)) as [Hhost|Hhost]; cycle 1.
    { destruct (host_handlers_skip _ _ _ _ _ Hgp Hroom Hhost) as (_ & E & _).
      by rewrite E. }
    rewrite (nextRound_run _ _ _ _ _ Hgp Hroom Hhost). simpl.
    apply rooms_insert_Forall; [done|].
    destruct (Hall _ _ Hroom) as (H1 & H2 & H3 & H4 & H5).
    by split_and!.
  - caller_cases st sid;
      [|destruct Hskip as (_ & _ & _ & _ & E & _); by rewrite E..].
    destruct (decide (Room.hostId room = sid)) as [Hhost|Hhost]; cycle 1.
    { destruct (host_handlers_skip _ _ _ _ _ Hgp Hroom Hhost) as (_ & _ & E).
      by rewrite E. }
    rewrite (revealRole_run _ _ _ _ _ _ Hgp Hroom Hhost). simpl.
    apply rooms_insert_Forall; [done|].
    eapply (phase_ok_fields room); [done..|by eapply Hall].
  - apply Hleave.
  - rewrite <- leaveRoom_eq_disconnect. apply Hleave.
Qed.

Lemma reachable_phase st c r :
  reachable st → rooms st !! c = Some r → phase_ok r.
Proof.
  intros Hreach. revert c r.
  induction Hreach as [|st i Hreach IH _].
  - intros c r H. simpl in H. by rewrite lookup_empty in H.
  - by apply phase_step.
Qed.

(** X17: what the phase of a room says in every reachable state.  A room in
    the lobby holds no votes.  A room in the assigning phase has a word
    pair, and a stored word pair is always one of the catalogue.  A room
    showing results holds the votes that were tallied, at least one, and the
    stored vote count and eliminated id are the tally of exactly these
    votes.  Stored results, in whatever phase they are read, always name an
    eliminated id: it received at least one vote and no id received more. *)
Theorem phase_invariant (st : State) (c : string) (room : Room.t) :
  reachable st → rooms st !! c = Some room →
  (Room.gameState room = lobby → Room.votes room = [])
  ∧ (Room.gameState room = assigning →
     ∃ wp, Room.wordPair room = Some wp)
  ∧ (∀ wp, Room.wordPair room = Some wp → wp ∈ WORD_PAIRS)
  ∧ (Room.gameState room = results →
     Room.votes room ≠ []
     ∧ ∃ res, Room.results room = Some res
         ∧ voteCount res = countVotes (Room.votes room)
         ∧ eliminatedPlayerId res
           = (mostVotes (countVotes (Room.votes room))).2)
  ∧ (∀ res, Room.results room = Some res →
     ∃ t n, eliminatedPlayerId res = Some t
       ∧ JsMap.get t (voteCount res) = Some n ∧ 0 < n
       ∧ ∀ t' n', JsMap.get t' (voteCount res) = Some n' → n' ≤ n).
Proof.
  intros Hreach Hroom.
  destruct (reachable_phase _ _ _ Hreach Hroom) as (H1 & H2 & H3 & H4 & H5).
  split_and!; try done.
  - intros Hp. specialize (H2 Hp).
    destruct (Room.wordPair room) as [wp|]; [by exists wp|done].
  - intros Hp. destruct (H4 Hp) as (res & Hres & Hne & Hvc & He).
    split; [done|]. by exists res.
  - intros res Hres. destruct (H5 _ Hres) as (votes & Ht).
    destruct (tally_of_eliminated _ _ Ht) as (t & n & He & Hin & Hn & Hpos & Hmax).
    destruct Ht as (_ & Hvc & _).
    exists t, n. split_and!; [done| |done|].
    + apply elem_get_Some; [|done]. rewrite Hvc. apply countVotes_NoDup.
    + intros t' n' Hget. apply get_Some_elem in Hget. rewrite Hvc in Hget.
      apply countVotes_elem in Hget as [-> _]. apply Hmax.
Qed.

Lemma phase_invariant_witness :
  ∃ t n, (eliminatedPlayerId <$> (rooms nextLobby3 !! "X" ≫= Room.results))
         = Some (Some t)
         ∧ 0 < n.
Proof.
  destruct (phase_invariant nextLobby3 "X"
              (Room.mk "X" [("A", 0); ("B", 1); ("C", 2)] lobby 2 6 "A"
                 (Some (mkWordPair "Spy" "Password")) [] []
                 (Some (mkResults (Some "B") (Some false)
                          [("B", 2); ("C", 1)]))))
    as (_ & _ & _ & _ & Hres).
  - unfold nextLobby3. constructor; [|done].
    apply reachable_fresh_reachable, results3_fresh.
  - reflexivity.
  - destruct (Hres _ eq_refl) as (t & n & He & _ & Hn & _).
    exists t, n. split; [|exact Hn]. simpl in He. by rewrite <- He.
Defined.

(** ** The client's view of a reveal *)

Lemma roleRevealedUpdate_id revealedPlayers prev :
  roleRevealedUpdate revealedPlayers prev = prev.
Proof.
  destruct prev as [[code pls gs rnd mx host wp votes rev]|]; [|done].
  simpl. do 2 f_equal.
  induction pls as [|[id name isReady score role word] pls IH]; [done|].
  simpl. f_equal; [|done]. by case_bool_decide.
Qed.

(** X18: the game page does not show a reveal.  The only event [revealRole]
    sends is [roleRevealed], and the updater the page runs on it rebuilds
    the snapshot it already holds, field by field: whatever the page held
    before, it holds the same afterwards.  The server's own snapshot of the
    room has changed meanwhile, so a page that was up to date before the
    host revealed a new target is out of date after it, until the next
    event that carries a snapshot. *)
Theorem client_ignores_reveal (st : State) (sid target : string) :
  (∀ view, foldl onGameEvent view (revealRole st sid target).2 = view)
  ∧ ∀ pref player room,
      getPlayer st sid = Some (pref, player) →
      rooms st !! Player.room player = Some room →
      Room.hostId room = sid →
      target ∉ Room.revealedPlayers room →
      let st' := (revealRole st sid target).1 in
      (rd_revealedPlayers <$> getRoomData st' (Player.room player))
      = Some (Room.revealedPlayers room ++ [target])
      ∧ foldl onGameEvent (getRoomData st (Player.room player))
          (revealRole st sid target).2
        ≠ getRoomData st' (Player.room player).
Proof.
  assert (Hview : ∀ view,
            foldl onGameEvent view (revealRole st sid target).2 = view).
  { intros view. unfold revealRole.
    destruct (getPlayer st sid) as [[pref player]|]; [|done].
    destruct (rooms st !! Player.room player) as [room|]; [|done].
    case_decide; [done|]. simpl. unfold onGameEvent. simpl.
    apply roleRevealedUpdate_id. }
  split; [done|].
  intros pref player room Hgp Hroom Hhost Hnew st'. rewrite Hview.
  assert (Hrev : (rd_revealedPlayers <$> getRoomData st' (Player.room player))
                 = Some (Room.revealedPlayers room ++ [target])).
  { unfold st'. rewrite (revealRole_run _ _ _ _ _ _ Hgp Hroom Hhost).
    unfold getRoomData. simpl. rewrite lookup_insert_eq. simpl.
    unfold JsSet.add, JsSet.has. by rewrite bool_decide_eq_false_2. }
  split; [done|]. intros E. rewrite <- E in Hrev.
  unfold getRoomData in Hrev. rewrite Hroom in Hrev. simpl in Hrev.
  injection Hrev as Hrev. apply (f_equal length) in Hrev.
  rewrite length_app in Hrev. simpl in Hrev. lia.
Qed.

Lemma client_ignores_reveal_witness :
  (rd_revealedPlayers <$> getRoomData (revealRole results3 "A" "B").1 "X")
  = Some ["B"]
  ∧ foldl onGameEvent (getRoomData results3 "X")
      (revealRole results3 "A" "B").2
    ≠ getRoomData (revealRole results3 "A" "B").1 "X".
Proof.
  destruct (client_ignores_reveal results3 "A" "B") as [_ H].
  apply (H 0 (Player.mk "A" "alice" "X" (Some shadow) (Some "Spy") true 200)
           (Room.mk "X" [("A", 0); ("B", 1); ("C", 2)] results 1 6 "A"
              (Some (mkWordPair "Spy" "Password"))
              [("A", "B"); ("B", "C"); ("C", "B")] []
              (Some (mkResults (Some "B") (Some false)
                       [("B", 2); ("C", 1)]))));
    [reflexivity..|].
  apply not_elem_of_nil.
Defined.

(** ** The timer text *)

Lemma string_length_app (a b : string) :
  String.length (a +:+ b) = String.length a + String.length b.
Proof. induction a as [|c a IH]; simpl; [done|]. by rewrite IH. Qed.

Lemma string_app_inj_suffix (a b x y : string) :
  a +:+ x = b +:+ y → String.length x = String.length y → a = b ∧ x = y.
Proof.
  revert b. induction a as [|c a IH]; intros [|d b] E Hlen; simpl in E.
  - done.
  - apply (f_equal String.length) in E.
    rewrite !string_length_app in E. simpl in E. lia.
  - apply (f_equal String.length) in E.
    rewrite !string_length_app in E. simpl in E. lia.
  - injection E as -> E. destruct (IH _ E Hlen) as [-> ->]. done.
Qed.

Lemma padStart_seconds (n : nat) :
  n < 60 →
  padStart 2 "0" (pretty (Z.of_nat n))
  = pretty (Z.of_nat n `div` 10)%Z +:+ pretty (Z.of_nat n `mod` 10)%Z.
Proof.
  intros Hn.
  do 60 (destruct n as [|n]; [vm_compute; reflexivity|]). lia.
Qed.

Lemma pretty_digit_length (n : nat) :
  n < 10 → String.length (pretty (Z.of_nat n)) = 1.
Proof.
  intros Hn.
  do 10 (destruct n as [|n]; [vm_compute; reflexivity|]). lia.
Qed.

Lemma formatTime_unfold (seconds : Z) :
  (0 ≤ seconds < 2 ^ 53)%Z →
  formatTime seconds
  = Some (pretty (seconds `div` 60)%Z +:+ ":"
          +:+ pretty ((seconds `mod` 60) `div` 10)%Z
          +:+ pretty ((seconds `mod` 60) `mod` 10)%Z).
Proof.
  intros H0. unfold formatTime.
  rewrite decide_True by (unfold safeInteger; lia).
  rewrite Z.rem_mod_nonneg by lia.
  assert (Hs : (0 ≤ seconds `mod` 60 < 60)%Z) by (apply Z.mod_pos_bound; lia).
  rewrite <- (Z2Nat.id (seconds `mod` 60)) at 1 by lia.
  rewrite padStart_seconds by lia. rewrite Z2Nat.id by lia. done.
Qed.

(** X19: the timer text of a remaining time of [seconds] seconds, a whole
    number that is not negative and below 2^53, is the number of whole
    minutes in decimal, a colon, and the remaining seconds in exactly two
    decimal digits, tens first.  Different remaining times in that range
    give different texts. *)
Theorem formatTime_spec (seconds : Z) :
  (0 ≤ seconds < 2 ^ 53)%Z →
  formatTime seconds
  = Some (pretty (seconds `div` 60)%Z +:+ ":"
          +:+ pretty ((seconds `mod` 60) `div` 10)%Z
          +:+ pretty ((seconds `mod` 60) `mod` 10)%Z)
  ∧ String.length (pretty ((seconds `mod` 60) `div` 10)%Z) = 1
  ∧ String.length (pretty ((seconds `mod` 60) `mod` 10)%Z) = 1
  ∧ ∀ seconds', (0 ≤ seconds' < 2 ^ 53)%Z →
      formatTime seconds' = formatTime seconds → seconds' = seconds.
Proof.
  intros H0.
  assert (Hdigits : ∀ s, (0 ≤ s)%Z →
    String.length (pretty ((s `mod` 60) `div` 10)%Z) = 1
    ∧ String.length (pretty ((s `mod` 60) `mod` 10)%Z) = 1).
  { intros s Hs0.
    assert (Hs : (0 ≤ s `mod` 60 < 60)%Z) by (apply Z.mod_pos_bound; lia).
    assert (Ht : (0 ≤ (s `mod` 60) `div` 10 < 10)%Z).
    { split; [apply Z.div_pos; lia|]. apply Z.div_lt_upper_bound; lia. }
    assert (Hu : (0 ≤ (s `mod` 60) `mod` 10 < 10)%Z)
      by (apply Z.mod_pos_bound; lia).
    split.
    - rewrite <- (Z2Nat.id ((s `mod` 60) `div` 10)) by lia.
      apply pretty_digit_length. lia.
    - rewrite <- (Z2Nat.id ((s `mod` 60) `mod` 10)) by lia.
      apply pretty_digit_length. lia. }
  destruct (Hdigits seconds) as [Ht Hu]; [lia|].
  split_and!; [by apply formatTime_unfold|done..|].
  intros seconds' H0' E.
  rewrite (formatTime_unfold seconds H0), (formatTime_unfold seconds' H0') in E.
  injection E as E.
  destruct (Hdigits seconds') as [Ht' Hu']; [lia|].
  apply string_app_inj_suffix in E as [Em E];
    [|simpl; rewrite !string_length_app; lia].
  apply string_app_inj_suffix in E as [_ E];
    [|rewrite !string_length_app; lia].
  apply string_app_inj_suffix in E as [Et Eu]; [|lia].
  apply (inj pretty) in Em, Et, Eu.
  rewrite (Z.div_mod seconds 60), (Z.div_mod seconds' 60) by lia.
  rewrite (Z.div_mod (seconds `mod` 60) 10),
    (Z.div_mod (seconds' `mod` 60) 10) by lia.
  lia.
Qed.

Lemma formatTime_spec_witness :
  formatTime 125 = Some "2:05"
  ∧ ∀ seconds', (0 ≤ seconds' < 2 ^ 53)%Z →
      formatTime seconds' = formatTime 125 → seconds' = 125%Z.
Proof.
  destruct (formatTime_spec 125) as (E & _ & _ & Hinj); [lia|].
  split; [exact E|exact Hinj].
Defined.
